(** * Aho-Corasick automaton builder (FailureLinks.py): model and properties

    The Python objects of [FailureLinks.py] live in a store: a [heap] is the
    list of all [TrieNode] objects allocated so far, and an object's identity
    is its index in that list.  [TrieNode()] appends a fresh object, field
    assignments rewrite one cell in place, and [==] / [!=] on nodes compare
    indices (the class defines no [__eq__]).  A Python [str] is a list of
    characters, a [dict] from characters to nodes is an association list in
    insertion order (which is the order [items()] iterates in), and [None]
    in a field is [None] of an option.  [add_pattern] and
    [build_failure_links] have loops only: they give [None] where Python
    would stop with an exception or a loop would not stop, the loops run on
    fuel, and the size of the store is shown to be fuel enough for every
    automaton.  [get_path_to_node] and [get_failure_links_representation]
    recurse, one nested call for each level of the trie, and Python raises
    [RecursionError] on the call that exceeds the interpreter's recursion
    limit: these two take the number of nested calls the interpreter still
    allows and have that error among their outcomes.  Characters are 8-bit
    [ascii] characters, ordered by their code as Python orders
    one-character strings; the counter and the node ids, which only count
    up from 0, are [nat]. *)

From Stdlib Require Import Ascii String.
From stdpp Require Import base option list numbers sorting strings gmap.

Set Default Proof Using "Type".

(** ** Data model *)

Abbreviation addr := nat.
Abbreviation str := (list ascii).

Definition lit (s : string) : str := list_ascii_of_string s.

Record TrieNode := mkTrieNode {
  children : list (ascii * addr);
  is_end : bool;
  failure : option addr;
  output : list str;
  node_id : option nat
}.

(** [TrieNode.__init__] *)
Definition TrieNode_new : TrieNode := mkTrieNode [] false None [] None.

Definition set_children (v : list (ascii * addr)) (n : TrieNode) : TrieNode :=
  mkTrieNode v (is_end n) (failure n) (output n) (node_id n).
Definition set_is_end (v : bool) (n : TrieNode) : TrieNode :=
  mkTrieNode (children n) v (failure n) (output n) (node_id n).
Definition set_failure (v : option addr) (n : TrieNode) : TrieNode :=
  mkTrieNode (children n) (is_end n) v (output n) (node_id n).
Definition set_output (v : list str) (n : TrieNode) : TrieNode :=
  mkTrieNode (children n) (is_end n) (failure n) v (node_id n).
Definition set_node_id (v : option nat) (n : TrieNode) : TrieNode :=
  mkTrieNode (children n) (is_end n) (failure n) (output n) v.

Abbreviation heap := (list TrieNode).

Record AhoCorasick := mkAhoCorasick {
  root : addr;
  node_counter : nat
}.

Abbreviation state := (heap * AhoCorasick)%type.

(** [d[char]] and [char in d] on a dict kept as an association list. *)
Fixpoint dict_get (char : ascii) (d : list (ascii * addr)) : option addr :=
  match d with
  | [] => None
  | (k, v) :: d => if decide (k = char) then Some v else dict_get char d
  end.

Definition dict_has (char : ascii) (d : list (ascii * addr)) : bool :=
  bool_decide (is_Some (dict_get char d)).

(** A [for] loop whose body may fail. *)
Fixpoint for_each {S A : Type} (body : S → A → option S) (s : S) (l : list A)
  : option S :=
  match l with
  | [] => Some s
  | x :: l => s' ← body s x; for_each body s' l
  end.

(** ** AhoCorasick.__init__ *)

Definition AhoCorasick_new (h : heap) : state :=
  let r := length h in
  let h := h ++ [TrieNode_new] in
  let h := alter (set_failure (Some r)) r h in
  let h := alter (set_node_id (Some 0)) r h in
  (h, mkAhoCorasick r 1).

(** ** AhoCorasick.add_pattern *)

(** The [for char in pattern] loop; the loop state is the store, the
    counter and the variable [node]. *)
Fixpoint add_chars (pattern : str) (h : heap) (counter : nat) (node : addr)
  : option (heap * nat * addr) :=
  match pattern with
  | [] => Some (h, counter, node)
  | char :: rest =>
    n ← h !! node;
    match dict_get char (children n) with
    | Some child => add_chars rest h counter child
    | None =>
      let child := length h in
      let h := h ++ [TrieNode_new] in
      let h := alter (λ n, set_children (children n ++ [(char, child)]) n) node h in
      let h := alter (set_node_id (Some counter)) child h in
      add_chars rest h (S counter) child
    end
  end.

Definition add_pattern (pattern : str) (s : state) : option state :=
  let '(h, ac) := s in
  '(h, counter, node) ← add_chars pattern h (node_counter ac) (root ac);
  _ ← h !! node;
  let h := alter (set_is_end true) node h in
  let h := alter (λ n, set_output (output n ++ [pattern]) n) node h in
  Some (h, mkAhoCorasick (root ac) counter).

(** ** AhoCorasick.build_failure_links *)

(** The inner [while] loop: follow failure links from [failure_node] until
    the root or a node with a transition for [char]. *)
Fixpoint follow_failure (fuel : nat) (h : heap) (rt : addr) (char : ascii)
    (failure_node : addr) : option addr :=
  match fuel with
  | 0 => None
  | S fuel =>
    if decide (failure_node = rt) then Some failure_node else
    n ← h !! failure_node;
    if dict_has char (children n) then Some failure_node else
    f ← failure n;
    follow_failure fuel h rt char f
  end.

(** The node that [child.failure] is set to (the [if]/[else] after the
    loop), given the node the loop stopped at. *)
Definition choose_failure (h : heap) (rt : addr) (char : ascii) (child : addr)
    (failure_node : addr) : option addr :=
  fn ← h !! failure_node;
  match dict_get char (children fn) with
  | Some x => if decide (x ≠ child) then Some x else Some rt
  | None => Some rt
  end.

(** Lines 48-59 for one [(char, child)] of [current]. *)
Definition failure_target (h : heap) (rt current : addr) (char : ascii)
    (child : addr) : option addr :=
  cur ← h !! current;
  f0 ← failure cur;
  failure_node ← follow_failure (length h) h rt char f0;
  choose_failure h rt char child failure_node.

(** Body of the [for char, child in current.children.items()] loop. *)
Definition link_child (rt current : addr) (st : heap * list addr)
    (item : ascii * addr) : option (heap * list addr) :=
  let '(h, queue) := st in
  let '(char, child) := item in
  let queue := queue ++ [child] in
  target ← failure_target h rt current char child;
  _ ← h !! child;
  let h := alter (set_failure (Some target)) child h in
  t ← h !! target;
  let h := alter (λ n, set_output (output n ++ output t) n) child h in
  Some (h, queue).

(** The [while queue] loop. *)
Fixpoint bfs (fuel : nat) (rt : addr) (h : heap) (queue : list addr)
  : option heap :=
  match queue with
  | [] => Some h
  | current :: queue =>
    match fuel with
    | 0 => None
    | S fuel =>
      cur ← h !! current;
      '(h, queue) ← for_each (link_child rt current) (h, queue) (children cur);
      bfs fuel rt h queue
    end
  end.

(** Body of the first loop, over the children of the root. *)
Definition link_root_child (rt : addr) (st : heap * list addr)
    (item : ascii * addr) : option (heap * list addr) :=
  let '(h, queue) := st in
  let '(char, child) := item in
  _ ← h !! child;
  Some (alter (set_failure (Some rt)) child h, queue ++ [child]).

Definition build_failure_links (s : state) : option state :=
  let '(h, ac) := s in
  r ← h !! root ac;
  '(h, queue) ← for_each (link_root_child (root ac)) (h, []) (children r);
  h ← bfs (length h) (root ac) h queue;
  Some (h, ac).

(** ** Nested calls and the recursion limit

    The interpreter lets calls nest up to its recursion limit and raises
    [RecursionError] on the call that would go beyond.  [frames] is the
    number of nested calls still allowed where a method is called: every
    call of a method or of a nested function takes one of them for as long
    as it runs, and a call with none left raises.  Calls of builtins and
    operators ([sorted], [items], [append], [==], [+]) need none: as in
    CPython from version 3.12 on, only calls of Python functions count
    against the limit.  Under the default limit of 1000 no call has more
    than 1000 left. *)
Inductive outcome (A : Type) : Type :=
  | Returns : A → outcome A
  | RecursionError : outcome A
  | Dangling : outcome A.

Arguments Returns {A} _.
Arguments RecursionError {A}.
Arguments Dangling {A}.

Global Instance outcome_bind : MBind outcome := λ A B f m,
  match m with
  | Returns a => f a
  | RecursionError => RecursionError
  | Dangling => Dangling
  end.

(** Following a reference.  A Python reference always leads to an object;
    [Dangling] is the outcome on a store that lacks the object, which the
    store of an automaton never does. *)
Definition object (h : heap) (a : addr) : outcome TrieNode :=
  match h !! a with
  | Some n => Returns n
  | None => Dangling
  end.

(** ** AhoCorasick.get_path_to_node *)

Definition ROOT : str := lit "ROOT".
Definition UNKNOWN : str := lit "UNKNOWN".

(** The nested function [find_path]; the result [None] is Python's [None]
    (not found below [node]). *)
Fixpoint find_path (frames : nat) (h : heap) (target node : addr) (path : str)
  : outcome (option str) :=
  match frames with
  | 0 => RecursionError
  | S frames =>
    if decide (node = target) then Returns (Some path) else
    n ← object h node;
    (fix loop (items : list (ascii * addr)) : outcome (option str) :=
       match items with
       | [] => Returns None
       | (char, child) :: items =>
         result ← find_path frames h target child (path ++ [char]);
         match result with
         | Some p => Returns (Some p)
         | None => loop items
         end
       end) (children n)
  end.

(** [x or "UNKNOWN"]: [None] and the empty string are both falsy. *)
Definition or_unknown (result : option str) : str :=
  match result with
  | Some (c :: p) => c :: p
  | _ => UNKNOWN
  end.

Definition get_path_to_node (frames : nat) (h : heap) (ac : AhoCorasick)
    (target_node : addr) : outcome str :=
  match frames with
  | 0 => RecursionError
  | S frames =>
    if decide (target_node = root ac) then Returns ROOT else
    result ← find_path frames h target_node (root ac) [];
    Returns (or_unknown result)
  end.

(** ** AhoCorasick.get_failure_links_representation *)

Record link_record := mkRecord {
  r_node_id : nat;
  r_path : str;
  r_failure_node_id : option nat;
  r_failure_path : str;
  r_is_end : bool;
  r_output : list str
}.

(** Order of [sorted(node.children.items())]: tuples compare on the
    character first, and a dict never holds two items with one key. *)
Definition item_le (x y : ascii * addr) : Prop :=
  nat_of_ascii x.1 ≤ nat_of_ascii y.1.

Global Instance item_le_dec x y : Decision (item_le x y).
Proof. unfold item_le. apply _. Defined.

Definition sorted_items (d : list (ascii * addr)) : list (ascii * addr) :=
  merge_sort item_le d.

(** [path if path else "ROOT"] *)
Definition or_root (path : str) : str :=
  match path with [] => ROOT | _ => path end.

(** The record appended for [node]: [failure_path] of line 70 first, then
    the dict literal of lines 71-78. *)
Definition record_of (frames : nat) (h : heap) (ac : AhoCorasick)
    (n : TrieNode) (id : nat) (path : str) : outcome link_record :=
  match failure n with
  | Some f =>
    failure_path ← get_path_to_node frames h ac f;
    fn ← object h f;
    Returns (mkRecord id (or_root path) (node_id fn) failure_path
               (is_end n) (output n))
  | None =>
    Returns (mkRecord id (or_root path) None (lit "None") (is_end n) (output n))
  end.

(** The nested function [traverse]; what it appends to [result] is
    returned. *)
Fixpoint traverse (frames : nat) (h : heap) (ac : AhoCorasick) (node : addr)
    (path : str) : outcome (list link_record) :=
  match frames with
  | 0 => RecursionError
  | S frames =>
    n ← object h node;
    here ← match node_id n with
            | Some id => r ← record_of frames h ac n id path; Returns [r]
            | None => Returns []
            end;
    below ← (fix loop (items : list (ascii * addr))
                 : outcome (list link_record) :=
               match items with
               | [] => Returns []
               | (char, child) :: items =>
                 r1 ← traverse frames h ac child (path ++ [char]);
                 r2 ← loop items;
                 Returns (r1 ++ r2)
               end) (sorted_items (children n));
    Returns (here ++ below)
  end.

Definition get_failure_links_representation (frames : nat) (s : state)
  : outcome (list link_record) :=
  let '(h, ac) := s in
  match frames with
  | 0 => RecursionError
  | S frames => traverse frames h ac (root ac) []
  end.

(** ** The script: create the automaton, add the patterns, build the links *)

Definition add_patterns (patterns : list str) (s : state) : option state :=
  for_each (λ s pattern, add_pattern pattern s) s patterns.

Definition automaton (h0 : heap) (patterns : list str) : option state :=
  add_patterns patterns (AhoCorasick_new h0).

Definition build (h0 : heap) (patterns : list str) : option state :=
  s ← automaton h0 patterns; build_failure_links s.

(** Following trie edges from a node along a string. *)
Fixpoint walk (h : heap) (node : addr) (path : str) : option addr :=
  match path with
  | [] => Some node
  | char :: path => n ← h !! node; child ← dict_get char (children n); walk h child path
  end.

(** Field of the node stored at an address. *)
Definition field {A} (f : TrieNode → A) (h : heap) (a : addr) : option A :=
  f <$> h !! a.

Definition out_of (h : heap) (a : addr) : list str :=
  default [] (field output h a).


(** ** Vocabulary of the properties *)

(** An automaton is created by [__init__] and then changed by its two
    mutating methods only, in any order. *)
Inductive reachable : state → Prop :=
| reach_new h0 : reachable (AhoCorasick_new h0)
| reach_add s pattern s' :
    reachable s → add_pattern pattern s = Some s' → reachable s'
| reach_build s s' :
    reachable s → build_failure_links s = Some s' → reachable s'.

(** The search of step 2b, in the spec's words: from a candidate, advance
    to the candidate's failure node while the candidate is not the root and
    has no child for the character. *)
Inductive candidate_walk (h : heap) (rt : addr) (char : ascii)
  : addr → addr → Prop :=
| cw_stop candidate n :
    h !! candidate = Some n →
    candidate = rt ∨ dict_has char (children n) = true →
    candidate_walk h rt char candidate candidate
| cw_advance candidate n next final :
    h !! candidate = Some n →
    candidate ≠ rt → dict_has char (children n) = false →
    failure n = Some next →
    candidate_walk h rt char next final →
    candidate_walk h rt char candidate final.

(** Steps 2a-2d: [link] is what the rule assigns to [child], the child of
    [current] for [char]. *)
Definition spec_link (h : heap) (rt current : addr) (char : ascii)
    (child link : addr) : Prop :=
  ∃ cur start candidate cn,
    h !! current = Some cur ∧ failure cur = Some start ∧
    candidate_walk h rt char start candidate ∧
    h !! candidate = Some cn ∧
    link = match dict_get char (children cn) with
           | Some x => if decide (x ≠ child) then x else rt
           | None => rt
           end.

(** What can be seen of the node at a path without looking at object
    identities: its id, the keys of its [children] in dict order, and the id
    of its failure node ([None] when there is no node at the path). *)
Definition node_view (s : state) (path : str)
  : option (option nat * list ascii * option nat) :=
  let '(h, ac) := s in
  a ← walk h (root ac) path;
  n ← h !! a;
  Some (node_id n, (children n).*1, f ← failure n; fn ← h !! f; node_id fn).

(** The order in which a depth-first walk that takes the children of each
    node in increasing character order meets the paths: a path comes before
    its extensions, and otherwise the first differing character decides. *)
Fixpoint path_lt (u v : str) : Prop :=
  match u, v with
  | [], [] => False
  | [], _ :: _ => True
  | _ :: _, [] => False
  | c :: u, d :: v =>
    nat_of_ascii c < nat_of_ascii d ∨ (c = d ∧ path_lt u v)
  end.

(** What the record of the node [a] at path [w] holds. *)
Definition record_for (h : heap) (ac : AhoCorasick) (a : addr) (w : str)
    (r : link_record) : Prop :=
  ∃ n f fn v,
    h !! a = Some n ∧ node_id n = Some (r_node_id r) ∧
    r_path r = or_root w ∧
    failure n = Some f ∧ h !! f = Some fn ∧
    r_failure_node_id r = node_id fn ∧
    walk h (root ac) v = Some f ∧ r_failure_path r = or_root v ∧
    r_is_end r = is_end n ∧ r_output r = output n.

Definition item_lt (x y : ascii * addr) : Prop :=
  nat_of_ascii x.1 < nat_of_ascii y.1.

(** The [for] loop of [find_path], with the recursive call as [rec]. *)
Fixpoint find_in (rec : addr → str → outcome (option str)) (path : str)
    (items : list (ascii * addr)) : outcome (option str) :=
  match items with
  | [] => Returns None
  | (char, child) :: items =>
    result ← rec child (path ++ [char]);
    match result with
    | Some p => Returns (Some p)
    | None => find_in rec path items
    end
  end.

(** The [for] loop of [traverse], with the recursive call as [rec]. *)
Fixpoint traverse_in (rec : addr → str → outcome (list link_record))
    (path : str) (items : list (ascii * addr)) : outcome (list link_record) :=
  match items with
  | [] => Returns []
  | (char, child) :: items =>
    r1 ← rec child (path ++ [char]);
    r2 ← traverse_in rec path items;
    Returns (r1 ++ r2)
  end.

(** The patterns of the running example. *)
Definition ex_patterns : list str := [lit "he"; lit "she"; lit "his"].

(** ** The trie inside the store

    A labelling lists the nodes of an automaton in creation order, each with
    the string spelled by the edges from the root to it. *)

Abbreviation labelling := (list (addr * str)).

(** The dict item that the entry [e] is in the node labelled [w]: [e] is a
    child of that node when its string is [w] plus one character. *)
Definition child_entry (w : str) (e : addr * str) : option (ascii * addr) :=
  match reverse e.2 with
  | c :: u => if decide (reverse u = w) then Some (c, e.1) else None
  | [] => None
  end.

Record trie (h : heap) (rt : addr) (L : labelling) : Prop := mkTrie {
  trie_addrs : NoDup L.*1;
  trie_words : NoDup L.*2;
  trie_root : L !! 0 = Some (rt, []);
  trie_closed : ∀ b v c, (b, v ++ [c]) ∈ L → ∃ a, (a, v) ∈ L;
  trie_kids : ∀ a w, (a, w) ∈ L →
    ∃ n, h !! a = Some n ∧ children n = omap (child_entry w) L;
  trie_ids : ∀ i a w, L !! i = Some (a, w) →
    ∃ n, h !! a = Some n ∧ node_id n = Some i
}.

(** Words of the trie after inserting [pat] below the node labelled [w]. *)
Fixpoint add_words (pat : str) (w : str) (W : list str) : list str :=
  match pat with
  | [] => W
  | c :: rest =>
    if decide (w ++ [c] ∈ W) then add_words rest (w ++ [c]) W
    else add_words rest (w ++ [c]) (W ++ [w ++ [c]])
  end.

Definition trie_words_of (patterns : list str) : list str :=
  foldl (λ W pat, add_words pat [] W) [[]] patterns.

(** ** Invariants used in the proofs *)

(** Existing objects keep every field but [children]. *)
Definition same_data (h h' : heap) : Prop :=
  ∀ a n, h !! a = Some n →
    ∃ n', h' !! a = Some n' ∧ is_end n' = is_end n ∧ failure n' = failure n ∧
          output n' = output n ∧ node_id n' = node_id n.

(** What [add_pattern] keeps: the failure link of every existing object, and
    the other data of every object but the one the pattern ends at. *)
Definition same_but (node : addr) (h h' : heap) : Prop :=
  ∀ a n, h !! a = Some n →
    ∃ n', h' !! a = Some n' ∧ failure n' = failure n ∧
          (a ≠ node → is_end n' = is_end n ∧ output n' = output n).

(** The invariant of an automaton that only [__init__] and [add_pattern]
    have touched. *)
Record automaton_inv (h : heap) (ac : AhoCorasick) (L : labelling) : Prop := {
  ai_trie : trie h (root ac) L;
  ai_counter : node_counter ac = length L;
  ai_root : ∃ r, h !! root ac = Some r ∧ failure r = Some (root ac)
}.

(** What [build_failure_links] keeps of every object. *)
Definition same_shape (h h' : heap) : Prop :=
  length h' = length h ∧
  ∀ a, children <$> h' !! a = children <$> h !! a ∧
       is_end <$> h' !! a = is_end <$> h !! a ∧
       node_id <$> h' !! a = node_id <$> h !! a.

(** The breadth-first pass: [h0] is the store when [build_failure_links]
    starts and [L] labels its trie.  During the pass, [D] lists the nodes
    whose link has been set, [Q] is the queue, and [pend] lists the children
    of the node being expanded that are still to be linked. *)

Section pass.
Context (h0 : heap) (rt : addr) (L : labelling).

Definition has_depth (d : nat) (a : addr) : Prop :=
  ∃ w, (a, w) ∈ L ∧ length w = d.

(** The queue holds nodes of depth [d], then nodes of depth [d + 1]. *)
Definition level (d : nat) (Q : list addr) : Prop :=
  ∃ Qa Qb, Q = Qa ++ Qb ∧ Forall (has_depth d) Qa ∧
           Forall (has_depth (S d)) Qb.

(** What holds of a node once its link is set. *)
Definition linked (h : heap) (D : list addr) (a : addr) : Prop :=
  ∀ p u c, (a, u ++ [c]) ∈ L → (p, u) ∈ L →
    ∃ n b v, h !! a = Some n ∧ failure n = Some b ∧ (b, v) ∈ L ∧
      length v ≤ length u ∧ (b = rt ∨ b ∈ D) ∧
      (u = [] → b = rt ∧ output n = out_of h0 a) ∧
      (u ≠ [] → failure_target h rt p c a = Some b ∧
         ∃ nb, h !! b = Some nb ∧ output n = out_of h0 a ++ output nb).

Record bfs_inv (h : heap) (D Q pend : list addr) : Prop := {
  bi_trie : trie h rt L;
  bi_untouched : ∀ a, a ∉ D → h !! a = h0 !! a;
  bi_nodup : NoDup D;
  bi_nonroot : ∀ a, a ∈ D → ∃ w, (a, w) ∈ L ∧ w ≠ [];
  bi_done : ∀ a p u c, (a, u ++ [c]) ∈ L → (p, u) ∈ L →
    a ∈ D ↔ (u = [] ∨ (p ∈ D ∧ (p ∉ Q) ∧ (a ∉ pend)));
  bi_linked : ∀ a, a ∈ D → linked h D a;
  bi_queue : NoDup Q ∧ ∀ a, a ∈ Q → a ∈ D
}.

(** The store when the pass is over. *)
Definition links_built (h' : heap) : Prop :=
  trie h' rt L ∧
  (∀ a, (∀ w, (a, w) ∈ L → w = []) → h' !! a = h0 !! a) ∧
  ∀ a p u c, (a, u ++ [c]) ∈ L → (p, u) ∈ L →
    ∃ n b v, h' !! a = Some n ∧ failure n = Some b ∧ (b, v) ∈ L ∧
      length v ≤ length u ∧
      (u = [] → b = rt ∧ output n = out_of h0 a) ∧
      (u ≠ [] → failure_target h' rt p c a = Some b ∧
         ∃ nb, h' !! b = Some nb ∧ output n = out_of h0 a ++ output nb).

End pass.

(** Two tries side by side. *)

Section correspondence.
Context (LA LB : labelling) (hA' hB' : heap).

(** The two nodes spell the same word. *)
Definition same_word (a b : addr) : Prop := ∃ v, (a, v) ∈ LA ∧ (b, v) ∈ LB.

(** Nodes of depth at most [k] have corresponding links. *)
Definition links_agree (k : nat) : Prop :=
  ∀ a b w na nb fa fb,
    length w ≤ k → w ≠ [] → (a, w) ∈ LA → (b, w) ∈ LB →
    hA' !! a = Some na → hB' !! b = Some nb →
    failure na = Some fa → failure nb = Some fb → same_word fa fb.

End correspondence.

(** [nodes] holds exactly the nodes of the trie at and below the path [w]. *)
Definition below (L : labelling) (w : str) (nodes : labelling) : Prop :=
  ∀ b v, (b, v) ∈ nodes ↔ (b, v) ∈ L ∧ w `prefix_of` v.

(** ** The script's removal of repeated keywords (lines 113-119) *)

(** One turn of the loop; the state is the list [unique_keywords] and the
    set [seen]. *)
Definition keep_unseen (st : list str * gset str) (keyword : str)
  : list str * gset str :=
  let '(unique_keywords, seen) := st in
  if decide (keyword ∈ seen) then (unique_keywords, seen)
  else (unique_keywords ++ [keyword], {[keyword]} ∪ seen).

Definition unique_keywords_of (keywords : list str) : list str :=
  (foldl keep_unseen ([], ∅) keywords).1.

(** What the loop is for, in its comment's words ("remove duplicates while
    preserving order"): each keyword where it occurs first. *)
Fixpoint first_occurrences (l : list str) : list str :=
  match l with
  | [] => []
  | x :: l => x :: filter (λ y, y ≠ x) (first_occurrences l)
  end.

(** ** Vocabulary of the further properties *)

(** What [__init__] and [add_pattern] have stored in the nodes once the
    patterns [ps] are inserted: a node is terminal when its path is one of
    the patterns, its output holds its path once for each time it was
    inserted, and only the root has a failure link. *)
Definition content (h : heap) (rt : addr) (L : labelling) (ps : list str)
  : Prop :=
  ∀ a w, (a, w) ∈ L →
    ∃ n, h !! a = Some n ∧ is_end n = bool_decide (w ∈ ps) ∧
         output n = filter (λ p, p = w) ps ∧
         failure n = if decide (w = []) then Some rt else None.

(** An object as [add_pattern]'s loop leaves a node it has created. *)
Definition fresh_node (n : TrieNode) : Prop :=
  is_end n = false ∧ output n = [] ∧ failure n = None.

(** [v] is the longest proper suffix of [w] that is a path of the trie. *)
Definition longest_proper_suffix (h : heap) (rt : addr) (w v : str) : Prop :=
  v `suffix_of` w ∧ v ≠ w ∧ is_Some (walk h rt v) ∧
  ∀ u, u `suffix_of` w → u ≠ w → is_Some (walk h rt u) → length u ≤ length v.

(** [v] is the longest proper suffix of [w] among the words of [L]. *)
Definition lps_word (L : labelling) (w v : str) : Prop :=
  v `suffix_of` w ∧ v ≠ w ∧ v ∈ L.*2 ∧
  ∀ u, u `suffix_of` w → u ≠ w → u ∈ L.*2 → length u ≤ length v.

(** The links of the nodes of depth at most [k] are longest suffixes. *)
Definition lps_upto (L : labelling) (h' : heap) (k : nat) : Prop :=
  ∀ a w n b v, length w ≤ k → w ≠ [] → (a, w) ∈ L →
    h' !! a = Some n → failure n = Some b → (b, v) ∈ L → lps_word L w v.

(** ** The script's two selections from the snapshot *)

(** The list [interesting_cases] (the loop of lines 156-159). *)
Definition interesting_cases (failure_links : list link_record)
  : list link_record :=
  filter (λ link, r_failure_path link ≠ ROOT ∧ r_path link ≠ ROOT)
    failure_links.

(** The list [root_connections] (the comprehension of line 186). *)
Definition root_connections (failure_links : list link_record)
  : list link_record :=
  filter (λ link, r_failure_path link = ROOT ∧ r_path link ≠ ROOT)
    failure_links.

(** The failure links of the nodes of the trie lead to nodes of the trie. *)
Definition links_inside (h : heap) (L : labelling) : Prop :=
  ∀ a w n f, (a, w) ∈ L → h !! a = Some n → failure n = Some f → f ∈ L.*1.

(** The record of the snapshot for the node [a] at path [w], whether the
    node has a failure link or not. *)
Definition record_any (h : heap) (ac : AhoCorasick) (a : addr) (w : str)
    (r : link_record) : Prop :=
  ∃ n, h !! a = Some n ∧ node_id n = Some (r_node_id r) ∧
    r_path r = or_root w ∧ r_is_end r = is_end n ∧ r_output r = output n ∧
    match failure n with
    | Some f => ∃ fn v, h !! f = Some fn ∧ r_failure_node_id r = node_id fn ∧
                        walk h (root ac) v = Some f ∧
                        r_failure_path r = or_root v
    | None => r_failure_node_id r = None ∧ r_failure_path r = lit "None"
    end.

(** * Properties *)

(** ** Basic facts *)

Lemma child_entry_Some w e c b :
  child_entry w e = Some (c, b) ↔ e = (b, w ++ [c]).
Proof.
  destruct e as [a v]. unfold child_entry. simpl. split.
  - destruct (reverse v) as [|c' u] eqn:E; [done|].
    case_decide as Hw; [|done]. intros [= -> ->].
    f_equal. rewrite <- (reverse_involutive v), E, reverse_cons.
    by rewrite Hw.
  - intros [= -> ->]. rewrite reverse_snoc, decide_True; [done|].
    apply reverse_involutive.
Qed.

Lemma child_entry_snoc w b c : child_entry w (b, w ++ [c]) = Some (c, b).
Proof. by apply child_entry_Some. Qed.

Lemma snoc_inv (u v : str) c d : u ++ [c] = v ++ [d] → u = v ∧ c = d.
Proof. intros H. apply app_inj_2 in H as [? [= ?]]; done. Qed.

Lemma dict_get_elem_of c d b : dict_get c d = Some b → (c, b) ∈ d.
Proof.
  induction d as [|[k v] d IH]; simpl; [done|].
  case_decide; [intros [= ->]; subst; left | right; auto].
Qed.

Lemma dict_get_NoDup c d b : NoDup d.*1 → (c, b) ∈ d → dict_get c d = Some b.
Proof.
  induction d as [|[k v] d IH]; simpl; [by intros _ ?%elem_of_nil|].
  intros [Hk Hd]%NoDup_cons [[= -> ->]|Hin]%elem_of_cons.
  - by rewrite decide_True.
  - case_decide; [|auto]. subst k. destruct Hk.
    apply list_elem_of_fmap. by exists (c, b).
Qed.

Lemma dict_get_None c d : dict_get c d = None ↔ ∀ b, (c, b) ∉ d.
Proof.
  induction d as [|[k v] d IH]; simpl.
  - split; [intros _ b ?%elem_of_nil; done|done].
  - case_decide as Hk.
    + subst k. split; [done|]. intros H. destruct (H v). left.
    + rewrite IH. split; intros H b.
      * intros [[= ? ?]|?]%elem_of_cons; [done|]. by eapply H.
      * intros ?. eapply H. by right.
Qed.

Lemma dict_has_false c d : dict_has c d = false ↔ dict_get c d = None.
Proof.
  unfold dict_has. rewrite bool_decide_eq_false, <- eq_None_not_Some. done.
Qed.

Lemma omap_none {A B} (f : A → option B) l :
  (∀ x, x ∈ l → f x = None) → omap f l = [].
Proof.
  induction l as [|x l IH]; intros H; simpl; [done|].
  rewrite (H x) by left. apply IH. intros y Hy. apply H. by right.
Qed.

Lemma for_each_cons {S A} (body : S → A → option S) s x l :
  for_each body s (x :: l) = s' ← body s x; for_each body s' l.
Proof. done. Qed.

(** ** Facts about a trie *)

Section trie_facts.
Context {h : heap} {rt : addr} {L : labelling} (T : trie h rt L).

Lemma trie_root_in : (rt, []) ∈ L.
Proof using T. eapply list_elem_of_lookup_2, T. Qed.

Lemma trie_word_unique a w1 w2 : (a, w1) ∈ L → (a, w2) ∈ L → w1 = w2.
Proof using T.
  intros H1 H2. pose proof (trie_addrs _ _ _ T) as Hnd.
  apply list_elem_of_lookup in H1 as [i Hi], H2 as [j Hj].
  assert (i = j) as ->; [|congruence].
  eapply NoDup_lookup; [exact Hnd|..];
    rewrite list_lookup_fmap; [by rewrite Hi | by rewrite Hj].
Qed.

Lemma trie_addr_unique a1 a2 w : (a1, w) ∈ L → (a2, w) ∈ L → a1 = a2.
Proof using T.
  intros H1 H2. pose proof (trie_words _ _ _ T) as Hnd.
  apply list_elem_of_lookup in H1 as [i Hi], H2 as [j Hj].
  assert (i = j) as ->; [|congruence].
  eapply NoDup_lookup; [exact Hnd|..];
    rewrite list_lookup_fmap; [by rewrite Hi | by rewrite Hj].
Qed.

Lemma trie_root_word a w : (a, w) ∈ L → a = rt ↔ w = [].
Proof using T.
  intros Ha. split; intros ->.
  - eapply trie_word_unique; [done|apply trie_root_in].
  - eapply trie_addr_unique; [done|apply trie_root_in].
Qed.

Lemma trie_lookup a w : (a, w) ∈ L → ∃ n, h !! a = Some n.
Proof using T. intros (n & ? & _)%(trie_kids _ _ _ T). eauto. Qed.

Lemma trie_addr_lt a w : (a, w) ∈ L → a < length h.
Proof using T. intros [n Hn]%trie_lookup. by eapply lookup_lt_Some. Qed.

Lemma trie_child_elem a w n c b :
  (a, w) ∈ L → h !! a = Some n → (c, b) ∈ children n ↔ (b, w ++ [c]) ∈ L.
Proof using T.
  intros Ha Hn. destruct (trie_kids _ _ _ T _ _ Ha) as (n' & Hn' & Hk).
  assert (n' = n) as -> by congruence. rewrite Hk.
  rewrite list_elem_of_omap. split.
  - intros (e & He & ->%child_entry_Some). done.
  - intros He. eexists. split; [done|]. apply child_entry_snoc.
Qed.

Lemma trie_keys_NoDup a w n :
  (a, w) ∈ L → h !! a = Some n → NoDup (children n).*1.
Proof using T.
  intros Ha Hn. destruct (trie_kids _ _ _ T _ _ Ha) as (n' & Hn' & Hk).
  assert (n' = n) as -> by congruence. rewrite Hk.
  clear Hn n Hn' Hk. pose proof (trie_words _ _ _ T) as Hnd. clear T Ha.
  induction L as [|[b v] L' IH]; simpl; [constructor|].
  apply NoDup_cons in Hnd as [Hv Hnd]. specialize (IH Hnd).
  destruct (child_entry w (b, v)) as [[c b']|] eqn:E; simpl; [|done].
  apply child_entry_Some in E as [= -> ->].
  constructor; [|done].
  intros ([c' b''] & Hc & (e & He & E)%list_elem_of_omap)%list_elem_of_fmap.
  simpl in Hc. subst c'. apply child_entry_Some in E as ->.
  apply Hv. apply list_elem_of_fmap. by exists (b'', w ++ [c]).
Qed.

Lemma trie_child_get a w n c b :
  (a, w) ∈ L → h !! a = Some n →
  dict_get c (children n) = Some b ↔ (b, w ++ [c]) ∈ L.
Proof using T.
  intros Ha Hn. rewrite <- (trie_child_elem a w n c b Ha Hn). split.
  - apply dict_get_elem_of.
  - apply dict_get_NoDup. by eapply trie_keys_NoDup.
Qed.

Lemma trie_child_get_None a w n c :
  (a, w) ∈ L → h !! a = Some n →
  dict_get c (children n) = None ↔ w ++ [c] ∉ L.*2.
Proof using T.
  intros Ha Hn. rewrite dict_get_None. split.
  - intros H ([b v] & Hv & Hin)%list_elem_of_fmap. simpl in Hv. subst v.
    eapply H. by apply (trie_child_elem a w n c b).
  - intros H b Hin%(trie_child_elem a w n c b Ha Hn). apply H.
    apply list_elem_of_fmap. by exists (b, w ++ [c]).
Qed.

Lemma trie_prefix_closed b u v : (b, u ++ v) ∈ L → ∃ a, (a, u) ∈ L.
Proof using T.
  revert b. induction v as [|c v IH] using rev_ind; intros b Hb.
  - rewrite app_nil_r in Hb. eauto.
  - rewrite (assoc_L (++)) in Hb.
    apply (trie_closed _ _ _ T) in Hb as [a Ha]. eauto.
Qed.

Lemma trie_walk a w v b :
  (a, w) ∈ L → walk h a v = Some b ↔ (b, w ++ v) ∈ L.
Proof using T.
  revert a w. induction v as [|c v IH]; intros a w Ha; simpl.
  - rewrite app_nil_r. split.
    + by intros [= <-].
    + intros Hb. f_equal. by eapply trie_addr_unique.
  - destruct (trie_lookup _ _ Ha) as [n Hn]. rewrite Hn. simpl.
    replace (w ++ c :: v) with ((w ++ [c]) ++ v) by by rewrite <- (assoc_L (++)).
    destruct (dict_get c (children n)) as [x|] eqn:E; simpl.
    + apply (trie_child_get a w n c x Ha Hn) in E. by apply IH.
    + split; [done|]. intros [x Hx]%trie_prefix_closed.
      apply (trie_child_get a w n c x Ha Hn) in Hx. congruence.
Qed.

Lemma trie_walk_root w b : walk h rt w = Some b ↔ (b, w) ∈ L.
Proof using T. apply (trie_walk rt [] w b), trie_root_in. Qed.

(** A word of length [k] comes with its [k] proper prefixes. *)
Lemma trie_depth_lt a w : (a, w) ∈ L → length w < length L.
Proof using T.
  intros Ha.
  assert (∃ l : list str, NoDup l ∧ (∀ u, u ∈ l → u ∈ L.*2) ∧
            length l = S (length w) ∧ ∀ u, u ∈ l → length u ≤ length w)
    as (l & Hnd & Hsub & Hlen & _).
  { revert a Ha. induction w as [|c w IH] using rev_ind; intros a Ha.
    - exists [[]]. split_and!; [apply NoDup_singleton| |done|].
      + intros u ->%list_elem_of_singleton.
        apply list_elem_of_fmap. by exists (a, []).
      + by intros u ->%list_elem_of_singleton.
    - destruct (trie_closed _ _ _ T _ _ _ Ha) as [p Hp].
      destruct (IH p Hp) as (l & Hnd & Hsub & Hlen & Hle).
      exists ((w ++ [c]) :: l). rewrite length_app. simpl. split_and!.
      + constructor; [|done]. intros Hin%Hle. rewrite length_app in Hin.
        simpl in Hin. lia.
      + intros u [->|?]%elem_of_cons; [|auto].
        apply list_elem_of_fmap. by exists (a, w ++ [c]).
      + lia.
      + intros u [->|Hu%Hle]%elem_of_cons; [rewrite length_app; simpl|]; lia. }
  apply NoDup_submseteq in Hsub; [|done].
  apply submseteq_length in Hsub. rewrite length_fmap in Hsub. lia.
Qed.

Lemma trie_length : length L ≤ length h.
Proof using T.
  pose proof (trie_addrs _ _ _ T) as Hnd.
  assert (∀ a, a ∈ L.*1 → a ∈ seq 0 (length h)) as Hsub.
  { intros a ([a' w] & -> & Hin)%list_elem_of_fmap. simpl.
    apply elem_of_seq. pose proof (trie_addr_lt _ _ Hin). lia. }
  apply NoDup_submseteq in Hsub; [|done].
  apply submseteq_length in Hsub.
  by rewrite length_fmap, length_seq in Hsub.
Qed.
End trie_facts.

(** ** Insertion keeps the trie *)

Lemma same_data_refl h : same_data h h.
Proof. intros a n Hn. eauto 10. Qed.

Lemma same_data_trans h1 h2 h3 :
  same_data h1 h2 → same_data h2 h3 → same_data h1 h3.
Proof.
  intros H12 H23 a n Hn.
  destruct (H12 _ _ Hn) as (n2 & Hn2 & ? & ? & ? & ?).
  destruct (H23 _ _ Hn2) as (n3 & Hn3 & ? & ? & ? & ?).
  exists n3. split_and!; congruence.
Qed.

(** Rewriting fields other than [children] and [node_id] keeps the trie. *)
Lemma trie_alter h rt L f a :
  (∀ n, children (f n) = children n ∧ node_id (f n) = node_id n) →
  trie h rt L → trie (alter f a h) rt L.
Proof.
  intros Hf T. destruct T as [T1 T2 T3 T4 T5 T6].
  constructor; try done.
  - intros b w Hb. destruct (T5 _ _ Hb) as (n & Hn & Hk).
    destruct (decide (a = b)) as [->|Hne].
    + exists (f n). rewrite list_lookup_alter_eq, Hn. split; [done|].
      by rewrite (proj1 (Hf n)).
    + exists n. by rewrite list_lookup_alter_ne.
  - intros i b w Hb. destruct (T6 _ _ _ Hb) as (n & Hn & Hk).
    destruct (decide (a = b)) as [->|Hne].
    + exists (f n). rewrite list_lookup_alter_eq, Hn. split; [done|].
      by rewrite (proj2 (Hf n)).
    + exists n. by rewrite list_lookup_alter_ne.
Qed.

Section extend.
Context {h : heap} {rt : addr} {L : labelling} (T : trie h rt L).
Context (node : addr) (w : str) (c : ascii).
Context (Hnode : (node, w) ∈ L) (Hnew : w ++ [c] ∉ L.*2).

Let child := length h.
Let h1 := h ++ [TrieNode_new].
Let h2 := alter (λ n, set_children (children n ++ [(c, child)]) n) node h1.
Let h3 := alter (set_node_id (Some (length L))) child h2.

Lemma extend_lookup_old a n :
  a ≠ node → h !! a = Some n → h3 !! a = Some n.
Proof using Type.
  intros Hne Hn. pose proof (lookup_lt_Some _ _ _ Hn).
  unfold h3, h2, h1, child.
  rewrite list_lookup_alter_ne by lia.
  rewrite list_lookup_alter_ne by done.
  by apply lookup_app_l_Some.
Qed.

Lemma extend_lookup_node n :
  h !! node = Some n →
  h3 !! node = Some (set_children (children n ++ [(c, child)]) n).
Proof using Type.
  intros Hn. pose proof (lookup_lt_Some _ _ _ Hn).
  unfold h3, h2, h1, child.
  rewrite list_lookup_alter_ne by lia.
  rewrite list_lookup_alter_eq.
  by rewrite (lookup_app_l_Some _ _ _ _ Hn).
Qed.

Lemma extend_lookup_new :
  node < length h →
  h3 !! child = Some (set_node_id (Some (length L)) TrieNode_new).
Proof using Type.
  intros Hlt. unfold h3, h2, h1, child.
  rewrite list_lookup_alter_eq.
  rewrite list_lookup_alter_ne by lia.
  by rewrite list_lookup_middle.
Qed.

Lemma extend_same_data : same_data h h3.
Proof using Type.
  intros a n Hn. destruct (decide (a = node)) as [->|Hne].
  - rewrite (extend_lookup_node _ Hn). eauto 10.
  - rewrite (extend_lookup_old _ _ Hne Hn). eauto 10.
Qed.

Lemma trie_extend : trie h3 rt (L ++ [(child, w ++ [c])]).
Proof using T Hnode Hnew.
  pose proof (trie_addr_lt T _ _ Hnode) as Hlt.
  constructor.
  - rewrite fmap_app. apply NoDup_app. split_and!.
    + apply T.
    + intros a ([a' v] & -> & Hin)%list_elem_of_fmap. simpl.
      intros ->%list_elem_of_singleton.
      pose proof (trie_addr_lt T _ _ Hin). unfold child in *. lia.
    + apply NoDup_singleton.
  - rewrite fmap_app. apply NoDup_app. split_and!.
    + apply T.
    + intros v Hv ->%list_elem_of_singleton. done.
    + apply NoDup_singleton.
  - apply lookup_app_l_Some, T.
  - intros b v d [Hb|[= -> Hv]%list_elem_of_singleton]%elem_of_app.
    + apply (trie_closed _ _ _ T) in Hb as [a Ha].
      exists a. apply elem_of_app. by left.
    + apply snoc_inv in Hv as [-> ->].
      exists node. apply elem_of_app. by left.
  - intros a u [Ha|[= -> ->]%list_elem_of_singleton]%elem_of_app.
    + destruct (trie_kids _ _ _ T _ _ Ha) as (n & Hn & Hk).
      rewrite omap_app. simpl.
      destruct (decide (a = node)) as [->|Hne].
      * assert (u = w) as -> by by eapply (trie_word_unique T).
        eexists. split; [by apply extend_lookup_node|]. simpl.
        by rewrite Hk, child_entry_snoc.
      * exists n. split; [by apply extend_lookup_old|].
        rewrite Hk.
        destruct (child_entry u (child, w ++ [c])) as [[d b]|] eqn:E;
          [|by rewrite app_nil_r].
        apply child_entry_Some in E as [= -> [-> ->]%snoc_inv].
        destruct Hne. by eapply (trie_addr_unique T).
    + eexists. split; [by apply extend_lookup_new|]. simpl.
      symmetry. apply omap_none. intros [b v] Hin.
      destruct (child_entry (w ++ [c]) (b, v)) as [[d b']|] eqn:E; [|done].
      apply child_entry_Some in E as [= -> ->].
      apply elem_of_app in Hin as [Hin|[= _ Hv]%list_elem_of_singleton].
      * apply (trie_closed _ _ _ T) in Hin as [a Ha]. destruct Hnew.
        apply list_elem_of_fmap. by exists (a, w ++ [c]).
      * apply (f_equal length) in Hv. rewrite !length_app in Hv.
        simpl in Hv. lia.
  - intros i a u [[_ Hi]|[Hi [= <- <-]]]%lookup_snoc_Some.
    + destruct (trie_ids _ _ _ T _ _ _ Hi) as (n & Hn & Hid).
      destruct (decide (a = node)) as [->|Hne].
      * eexists. split; [by apply extend_lookup_node|]. done.
      * exists n. split; [by apply extend_lookup_old|]. done.
    + eexists. split; [by apply extend_lookup_new|]. simpl. by rewrite Hi.
Qed.
End extend.

Lemma add_chars_spec pat : ∀ h cnt node w L rt,
  trie h rt L → cnt = length L → (node, w) ∈ L →
  ∃ h' L' node',
    add_chars pat h cnt node = Some (h', length L', node') ∧
    trie h' rt L' ∧ (node', w ++ pat) ∈ L' ∧
    L'.*2 = add_words pat w L.*2 ∧ same_data h h'.
Proof.
  induction pat as [|c pat IH]; intros h cnt node w L rt T -> Hnode; simpl.
  - exists h, L, node. rewrite app_nil_r.
    split_and!; [done..|apply same_data_refl].
  - destruct (trie_lookup T _ _ Hnode) as [n Hn]. rewrite Hn. simpl.
    replace (w ++ c :: pat) with ((w ++ [c]) ++ pat)
      by by rewrite <- (assoc_L (++)).
    destruct (dict_get c (children n)) as [child|] eqn:E.
    + apply (trie_child_get T _ _ _ _ _ Hnode Hn) in E.
      rewrite decide_True
        by (apply list_elem_of_fmap; by exists (child, w ++ [c])).
      by apply IH.
    + apply (trie_child_get_None T _ _ _ _ Hnode Hn) in E.
      rewrite decide_False by done.
      pose proof (trie_extend T node w c Hnode E) as T'.
      edestruct (IH _ (S (length L)) (length h) (w ++ [c]) _ rt T')
        as (h' & L' & node' & Hrun & T'' & Hin & Hw & Hd).
      { rewrite length_app. simpl. lia. }
      { apply elem_of_app. right. by apply list_elem_of_singleton. }
      exists h', L', node'. split_and!; try done.
      * rewrite Hw, fmap_app. done.
      * eapply same_data_trans; [|done]. by apply extend_same_data.
Qed.

(** ** The automaton before the links are built *)

Lemma add_pattern_spec pat h ac L :
  trie h (root ac) L → node_counter ac = length L →
  ∃ h' L' node,
    add_pattern pat (h, ac) = Some (h', mkAhoCorasick (root ac) (length L')) ∧
    trie h' (root ac) L' ∧ (node, pat) ∈ L' ∧
    L'.*2 = add_words pat [] L.*2 ∧ same_but node h h'.
Proof.
  intros T Hc.
  destruct (add_chars_spec pat h _ (root ac) [] L (root ac) T Hc
              (trie_root_in T)) as (h1 & L' & node & Hrun & T1 & Hin & Hw & Hd).
  exists (alter (λ n, set_output (output n ++ [pat]) n) node
            (alter (set_is_end true) node h1)), L', node.
  simpl in Hin. unfold add_pattern. rewrite Hrun. simpl.
  destruct (trie_lookup T1 _ _ Hin) as [n1 Hn1]. rewrite Hn1. simpl.
  split_and!; try done.
  - apply trie_alter; [done|]. by apply trie_alter.
  - intros a n Hn. destruct (Hd _ _ Hn) as (n' & Hn' & ? & ? & ? & ?).
    destruct (decide (node = a)) as [->|Hne].
    + eexists. rewrite list_lookup_alter_eq, list_lookup_alter_eq, Hn'.
      split; [done|]. simpl. done.
    + exists n'. rewrite !list_lookup_alter_ne by done. done.
Qed.

Lemma AhoCorasick_new_inv h0 :
  automaton_inv (AhoCorasick_new h0).1 (AhoCorasick_new h0).2 [(length h0, [])].
Proof.
  unfold AhoCorasick_new. simpl.
  assert ((alter (set_node_id (Some 0)) (length h0)
             (alter (set_failure (Some (length h0))) (length h0)
                (h0 ++ [TrieNode_new]))) !! length h0
          = Some (mkTrieNode [] false (Some (length h0)) [] (Some 0))) as Hr.
  { by rewrite !list_lookup_alter_eq, list_lookup_middle. }
  constructor; simpl; [|done|eauto].
  constructor; simpl.
  - apply NoDup_singleton.
  - apply NoDup_singleton.
  - done.
  - intros b v c [= _ Hv]%list_elem_of_singleton. by destruct v.
  - intros a w [= -> ->]%list_elem_of_singleton. eauto.
  - intros [|i] a w; [|done]. intros [= <- <-]. eauto.
Qed.

Lemma AhoCorasick_new_root h0 :
  (AhoCorasick_new h0).1 !! root (AhoCorasick_new h0).2
  = Some (mkTrieNode [] false (Some (length h0)) [] (Some 0)).
Proof.
  unfold AhoCorasick_new. simpl.
  by rewrite !list_lookup_alter_eq, list_lookup_middle.
Qed.

Lemma add_pattern_inv pat h ac L :
  automaton_inv h ac L →
  ∃ h' ac' L' node,
    add_pattern pat (h, ac) = Some (h', ac') ∧ automaton_inv h' ac' L' ∧
    root ac' = root ac ∧ (node, pat) ∈ L' ∧
    L'.*2 = add_words pat [] L.*2 ∧ same_but node h h'.
Proof.
  intros [T Hc (r & Hr & Hf)].
  destruct (add_pattern_spec pat h ac L T Hc)
    as (h' & L' & node & Hrun & T' & Hin & Hw & Hd).
  eexists h', _, L', node. split_and!; try done.
  constructor; simpl; [done..|].
  destruct (Hd _ _ Hr) as (r' & Hr' & Hf' & _). exists r'. split; congruence.
Qed.

Lemma add_patterns_cons p ps s :
  add_patterns (p :: ps) s = s' ← add_pattern p s; add_patterns ps s'.
Proof. done. Qed.

Lemma add_patterns_inv ps : ∀ h ac L,
  automaton_inv h ac L →
  ∃ h' ac' L',
    add_patterns ps (h, ac) = Some (h', ac') ∧ automaton_inv h' ac' L' ∧
    root ac' = root ac ∧ L'.*2 = foldl (λ W pat, add_words pat [] W) L.*2 ps ∧
    (Forall (λ p, p ≠ []) ps → ∀ r, h !! root ac = Some r →
       ∃ r', h' !! root ac = Some r' ∧ is_end r' = is_end r ∧
             output r' = output r).
Proof.
  induction ps as [|p ps IH]; intros h ac L I.
  - exists h, ac, L. split_and!; eauto.
  - destruct (add_pattern_inv p h ac L I)
      as (h1 & ac1 & L1 & node & Hrun & I1 & Hrt & Hin & Hw & Hd).
    rewrite add_patterns_cons, Hrun. simpl.
    destruct (IH h1 ac1 L1 I1) as (h' & ac' & L' & Hrun' & I' & Hrt' & Hw' & Hk).
    exists h', ac', L'. split_and!; [done|done|congruence|by rewrite Hw', Hw|].
    intros [Hp Hps]%Forall_cons r Hr.
    destruct (Hd _ _ Hr) as (r1 & Hr1 & _ & Hsame).
    destruct Hsame as [He Ho].
    { intros Heq. apply Hp.
      apply (trie_root_word (ai_trie _ _ _ I1) _ _ Hin). congruence. }
    rewrite <- Hrt in Hr1. destruct (Hk Hps _ Hr1) as (r' & Hr' & ? & ?).
    exists r'. rewrite <- Hrt. split_and!; congruence.
Qed.

Lemma automaton_spec h0 ps :
  ∃ h ac L,
    automaton h0 ps = Some (h, ac) ∧ automaton_inv h ac L ∧
    root ac = length h0 ∧ L.*2 = trie_words_of ps ∧
    (Forall (λ p, p ≠ []) ps →
       ∃ r, h !! root ac = Some r ∧ is_end r = false ∧ output r = []).
Proof.
  unfold automaton.
  pose proof (AhoCorasick_new_inv h0) as I.
  pose proof (AhoCorasick_new_root h0) as Hr.
  destruct (AhoCorasick_new h0) as [h1 ac1] eqn:E. simpl in I, Hr.
  destruct (add_patterns_inv ps h1 ac1 _ I)
    as (h & ac & L & Hrun & I' & Hrt & Hw & Hk).
  exists h, ac, L. split_and!; try done.
  - rewrite Hrt. unfold AhoCorasick_new in E. by injection E as <- <-.
  - intros Hps. destruct (Hk Hps _ Hr) as (r' & Hr' & ? & ?).
    exists r'. rewrite Hrt. done.
Qed.

(** ** Frame of [build_failure_links]

    The links are built by rewriting [failure] and [output] only. *)

Lemma same_shape_refl h : same_shape h h.
Proof. by split. Qed.

Lemma same_shape_trans h1 h2 h3 :
  same_shape h1 h2 → same_shape h2 h3 → same_shape h1 h3.
Proof.
  intros [Hl1 H1] [Hl2 H2]. split; [congruence|].
  intros a. destruct (H1 a) as (? & ? & ?), (H2 a) as (? & ? & ?).
  split_and!; congruence.
Qed.

Lemma same_shape_alter h f a :
  (∀ n, children (f n) = children n ∧ is_end (f n) = is_end n ∧
        node_id (f n) = node_id n) →
  same_shape h (alter f a h).
Proof.
  intros Hf. split; [apply length_alter|]. intros b.
  destruct (decide (a = b)) as [->|Hne].
  - rewrite list_lookup_alter_eq. destruct (h !! b) as [n|]; simpl; [|done].
    destruct (Hf n) as (-> & -> & ->). done.
  - by rewrite list_lookup_alter_ne.
Qed.

Lemma link_child_shape rt current h q item h' q' :
  link_child rt current (h, q) item = Some (h', q') → same_shape h h'.
Proof.
  destruct item as [char child]. unfold link_child.
  intros H. simplify_option_eq.
  eapply same_shape_trans; by apply same_shape_alter.
Qed.

Lemma link_root_child_shape rt h q item h' q' :
  link_root_child rt (h, q) item = Some (h', q') → same_shape h h'.
Proof.
  destruct item as [char child]. unfold link_root_child.
  intros H. simplify_option_eq. by apply same_shape_alter.
Qed.

Lemma for_each_shape {A} (body : heap * list addr → A → option (heap * list addr)) :
  (∀ h q x h' q', body (h, q) x = Some (h', q') → same_shape h h') →
  ∀ l h q h' q', for_each body (h, q) l = Some (h', q') → same_shape h h'.
Proof.
  intros Hbody. induction l as [|x l IH]; intros h q h' q' H; simpl in H.
  - injection H as <- <-. apply same_shape_refl.
  - destruct (body (h, q) x) as [[h1 q1]|] eqn:E; [|done]. simpl in H.
    eapply same_shape_trans; [by eapply Hbody|by eapply IH].
Qed.

Lemma bfs_shape rt fuel : ∀ h q h',
  bfs fuel rt h q = Some h' → same_shape h h'.
Proof.
  induction fuel as [|fuel IH]; intros h q h' H; destruct q as [|x q];
    simpl in H; try done.
  - injection H as <-. apply same_shape_refl.
  - injection H as <-. apply same_shape_refl.
  - destruct (h !! x) as [cur|]; [|done]. simpl in H.
    destruct (for_each (link_child rt x) (h, q) (children cur))
      as [[h1 q1]|] eqn:E; [|done]. simpl in H.
    eapply same_shape_trans; [|by eapply IH].
    eapply for_each_shape; [|exact E].
    intros. by eapply link_child_shape.
Qed.

Lemma build_failure_links_shape h ac h' ac' :
  build_failure_links (h, ac) = Some (h', ac') → ac' = ac ∧ same_shape h h'.
Proof.
  unfold build_failure_links. intros H.
  destruct (h !! root ac) as [r|]; [|done]. simpl in H.
  destruct (for_each (link_root_child (root ac)) (h, []) (children r))
    as [[h1 q1]|] eqn:E; [|done]. simpl in H.
  destruct (bfs (length h1) (root ac) h1 q1) as [h2|] eqn:E2; [|done].
  injection H as <- <-. split; [done|].
  eapply same_shape_trans; [|by eapply bfs_shape].
  eapply for_each_shape; [|exact E].
  intros. by eapply link_root_child_shape.
Qed.

Lemma trie_same_shape h h' rt L : trie h rt L → same_shape h h' → trie h' rt L.
Proof.
  intros [T1 T2 T3 T4 T5 T6] [Hl Hs]. constructor; try done.
  - intros a w Ha. destruct (T5 _ _ Ha) as (n & Hn & Hk).
    destruct (Hs a) as (Hc & _ & _). rewrite Hn in Hc.
    destruct (h' !! a) as [n'|]; [|done]. injection Hc as Hc.
    exists n'. split; [done|congruence].
  - intros i a w Ha. destruct (T6 _ _ _ Ha) as (n & Hn & Hk).
    destruct (Hs a) as (_ & _ & Hc). rewrite Hn in Hc.
    destruct (h' !! a) as [n'|]; [|done]. injection Hc as Hc.
    exists n'. split; [done|congruence].
Qed.

Lemma trie_kid_addrs_NoDup h rt L a w n :
  trie h rt L → (a, w) ∈ L → h !! a = Some n → NoDup (children n).*2.
Proof.
  intros T Ha Hn. destruct (trie_kids _ _ _ T _ _ Ha) as (n' & Hn' & Hk).
  assert (n' = n) as -> by congruence. rewrite Hk.
  pose proof (trie_addrs _ _ _ T) as Hnd. revert Hnd. clear.
  induction L as [|[b v] L' IH]; simpl; [constructor|].
  intros [Hb Hnd]%NoDup_cons. specialize (IH Hnd).
  destruct (child_entry w (b, v)) as [[c b']|] eqn:E; simpl; [|done].
  apply child_entry_Some in E as [= -> ->].
  constructor; [|done].
  intros ([c' b''] & Hc & (e & He & E)%list_elem_of_omap)%list_elem_of_fmap.
  simpl in Hc. subst b''. apply child_entry_Some in E as ->.
  apply Hb. apply list_elem_of_fmap. by exists (b', w ++ [c']).
Qed.

(** The first loop sets the link of every child of the root. *)
Lemma link_root_children_run rt items : ∀ h q,
  (∀ b, b ∈ items.*2 → b < length h) →
  for_each (link_root_child rt) (h, q) items
  = Some (foldl (λ h b, alter (set_failure (Some rt)) b h) h items.*2,
          q ++ items.*2).
Proof.
  induction items as [|[c b] items IH]; intros h q Hlt; simpl.
  - by rewrite app_nil_r.
  - destruct (lookup_lt_is_Some_2 h b) as [n Hn]; [apply Hlt; left|].
    rewrite Hn. simpl. rewrite IH.
    + by rewrite <- (assoc_L (++)).
    + intros a Ha. rewrite length_alter. apply Hlt. by right.
Qed.

Lemma foldl_set_failure_lookup rt l : ∀ (h : heap) a,
  foldl (λ h b, alter (set_failure (Some rt)) b h) h l !! a
  = if decide (a ∈ l) then set_failure (Some rt) <$> h !! a else h !! a.
Proof.
  induction l as [|b l IH]; intros h a.
  - case_decide as H; [by apply elem_of_nil in H|done].
  - simpl foldl. rewrite IH. destruct (decide (a = b)) as [->|Hne].
    + rewrite list_lookup_alter_eq.
      destruct (decide (b ∈ b :: l)) as [_|H]; [|destruct H; left].
      case_decide; [|done]. by destruct (h !! b).
    + rewrite list_lookup_alter_ne by done.
      destruct (decide (a ∈ l)) as [H|H], (decide (a ∈ b :: l)) as [H'|H'];
        try done.
      * destruct H'. by right.
      * by apply elem_of_cons in H' as [?|?].
Qed.

(** ** The computation of a link reads only nodes that are already linked *)

Section agree.
Context (h h' : heap) (rt : addr) (D : list addr).
Context (Hlen : length h' = length h).
Context (Hrt : h' !! rt = h !! rt).
Context (Hagree : ∀ a, a ∈ D → h' !! a = h !! a).
Context (Hclosed : ∀ a n f,
  a ∈ D → h !! a = Some n → failure n = Some f → f = rt ∨ f ∈ D).

Lemma follow_failure_agree c fuel : ∀ fn,
  fn = rt ∨ fn ∈ D →
  follow_failure fuel h' rt c fn = follow_failure fuel h rt c fn ∧
  ∀ r, follow_failure fuel h rt c fn = Some r → r = rt ∨ r ∈ D.
Proof using Hagree Hclosed.
  induction fuel as [|fuel IH]; intros fn Hfn; simpl; [done|].
  case_decide as Hr.
  { split; [done|]. intros r [= <-]. by left. }
  destruct Hfn as [?|Hfn]; [done|]. rewrite (Hagree _ Hfn).
  destruct (h !! fn) as [n|] eqn:Hn; simpl; [|done].
  destruct (dict_has c (children n)).
  { split; [done|]. intros r [= <-]. by right. }
  destruct (failure n) as [f|] eqn:Hf; simpl; [|done].
  apply IH. by eapply Hclosed.
Qed.

Lemma failure_target_agree p c a :
  p ∈ D → failure_target h' rt p c a = failure_target h rt p c a.
Proof using Hlen Hrt Hagree Hclosed.
  intros Hp. unfold failure_target. rewrite (Hagree _ Hp), Hlen.
  destruct (h !! p) as [cur|] eqn:Hcur; simpl; [|done].
  destruct (failure cur) as [f0|] eqn:Hf0; simpl; [|done].
  destruct (follow_failure_agree c (length h) f0) as [-> Hin];
    [by eapply Hclosed|].
  destruct (follow_failure (length h) h rt c f0) as [r|]; simpl; [|done].
  unfold choose_failure.
  destruct (Hin r eq_refl) as [->|Hr]; [by rewrite Hrt|].
  by rewrite (Hagree _ Hr).
Qed.
End agree.

(** ** The breadth-first pass

    [h0] is the store when [build_failure_links] starts and [L] labels its
    trie.  During the pass, [D] lists the nodes whose link has been set, [Q]
    is the queue, and [pend] lists the children of the node being expanded
    that are still to be linked. *)

Section bfs.
Context (h0 : heap) (rt : addr) (L : labelling) (T0 : trie h0 rt L).

Local Abbreviation has_depth := (has_depth L).
Local Abbreviation level := (level L).
Local Abbreviation linked := (linked h0 rt L).
Local Abbreviation bfs_inv := (bfs_inv h0 rt L).
Local Abbreviation links_built := (links_built h0 rt L).
Local Abbreviation bi_trie := (bi_trie h0 rt L).
Local Abbreviation bi_untouched := (bi_untouched h0 rt L).
Local Abbreviation bi_nodup := (bi_nodup h0 rt L).
Local Abbreviation bi_nonroot := (bi_nonroot h0 rt L).
Local Abbreviation bi_done := (bi_done h0 rt L).
Local Abbreviation bi_linked := (bi_linked h0 rt L).
Local Abbreviation bi_queue := (bi_queue h0 rt L).

Lemma has_depth_unique d1 d2 a : has_depth d1 a → has_depth d2 a → d1 = d2.
Proof using T0.
  intros (w1 & H1 & <-) (w2 & H2 & <-).
  by rewrite (trie_word_unique T0 _ _ _ H1 H2).
Qed.

Lemma level_pop d x Q : level d (x :: Q) → ∃ d', has_depth d' x ∧ level d' Q.
Proof using Type.
  intros (Qa & Qb & HQ & Ha & Hb). destruct Qa as [|y Qa]; simpl in HQ.
  - subst Qb. apply Forall_cons in Hb as [Hx Hb].
    exists (S d). split; [done|]. exists Q, []. rewrite app_nil_r.
    split_and!; [done|done|constructor].
  - injection HQ as <- ->. apply Forall_cons in Ha as [Hx Ha].
    exists d. split; [done|]. by exists Qa, Qb.
Qed.

Lemma level_push d Q b : level d Q → has_depth (S d) b → level d (Q ++ [b]).
Proof using Type.
  intros (Qa & Qb & -> & Ha & Hb) Hd. exists Qa, (Qb ++ [b]).
  rewrite (assoc_L (++)). split_and!; [done|done|].
  apply Forall_app. split; [done|]. by apply Forall_singleton.
Qed.

Lemma level_ge d Q a k : level d Q → a ∈ Q → has_depth k a → d ≤ k.
Proof using T0.
  intros (Qa & Qb & -> & Ha & Hb) [Hin|Hin]%elem_of_app Hk.
  - rewrite Forall_forall in Ha.
    rewrite (has_depth_unique _ _ _ (Ha _ Hin) Hk). lia.
  - rewrite Forall_forall in Hb.
    rewrite <- (has_depth_unique _ _ _ (Hb _ Hin) Hk). lia.
Qed.

Section step.
Context {h : heap} {D Q pend : list addr} (I : bfs_inv h D Q pend).

Lemma linked_failure a w :
  a ∈ D → (a, w) ∈ L →
  ∃ n b v, h !! a = Some n ∧ failure n = Some b ∧ (b, v) ∈ L ∧
           length v < length w ∧ (b = rt ∨ b ∈ D).
Proof using I T0.
  intros HD Ha. destruct (bi_nonroot _ _ _ _ I a HD) as (w' & Ha' & Hne).
  rewrite (trie_word_unique T0 _ _ _ Ha Ha') in *.
  clear Ha. induction w' as [|c u _] using rev_ind; [done|].
  destruct (trie_closed _ _ _ T0 _ _ _ Ha') as [p Hp].
  destruct (bi_linked _ _ _ _ I a HD p u c Ha' Hp)
    as (n & b & v & Hn & Hf & Hb & Hlen & Hin & _).
  exists n, b, v. rewrite length_app. simpl. split_and!; [done..|lia|done].
Qed.

(** The [while] loop stops, at a node no deeper than where it starts. *)
Lemma follow_failure_ok c k : ∀ fuel fn v,
  length v ≤ k → k < fuel → (fn, v) ∈ L → fn = rt ∨ fn ∈ D →
  ∃ r vr, follow_failure fuel h rt c fn = Some r ∧ (r, vr) ∈ L ∧
          length vr ≤ length v ∧ (r = rt ∨ r ∈ D).
Proof using I T0.
  induction k as [|k IH]; intros fuel fn v Hk Hfuel Hfn Hin;
    (destruct fuel as [|fuel]; [lia|]); simpl.
  - destruct v; [|simpl in Hk; lia].
    apply (trie_root_word T0) in Hfn as [_ Hfn]. rewrite Hfn by done.
    rewrite decide_True by done. exists rt, [].
    split_and!; [done|apply (trie_root_in T0)|done|by left].
  - case_decide as Hrt.
    { subst fn. exists rt, v. split_and!; [done|done|done|by left]. }
    destruct Hin as [?|HD]; [done|].
    destruct (linked_failure fn v HD Hfn)
      as (n & b & vb & Hn & Hf & Hb & Hlen & Hin).
    rewrite Hn. simpl. destruct (dict_has c (children n)).
    { exists fn, v. split_and!; [done|done|done|by right]. }
    rewrite Hf. simpl.
    destruct (IH fuel b vb) as (r & vr & Hr & Hrin & Hrlen & HrD);
      [lia|lia|done|done|].
    exists r, vr. split_and!; [done|done|lia|done].
Qed.
End step.

(** Linking one child of the node [x] being expanded. *)
Lemma link_child_inv h D Q pend x wx c b :
  bfs_inv h D Q (b :: pend) → (x, wx) ∈ L → x ∈ D → x ∉ Q →
  level (length wx) Q → (b, wx ++ [c]) ∈ L → b ∉ pend →
  (∀ a, a ∈ pend → ∃ c', (a, wx ++ [c']) ∈ L) →
  ∃ h', link_child rt x (h, Q) (c, b) = Some (h', Q ++ [b]) ∧
        bfs_inv h' (b :: D) (Q ++ [b]) pend.
Proof using T0.
  intros I Hx HxD HxQ Hlev Hb Hbp Hpend.
  pose proof (bi_trie _ _ _ _ I) as T.
  assert (wx ≠ []) as Hwx.
  { destruct (bi_nonroot _ _ _ _ I x HxD) as (w' & Hx' & Hne).
    by rewrite (trie_word_unique T0 _ _ _ Hx Hx'). }
  assert (b ∉ D) as HbD.
  { intros HbD. apply (bi_done _ _ _ _ I b x wx c Hb Hx) in HbD
      as [?|(_ & _ & Hn)]; [done|]. apply Hn. left. }
  assert (b ≠ rt) as Hbrt.
  { intros Heq. apply (trie_root_word T0 _ _ Hb) in Heq. by destruct wx. }
  assert (x ≠ b) as Hxb by (by intros ->).
  destruct (linked_failure I x wx HxD Hx)
    as (cur & f0 & v0 & Hcur & Hf0 & Hv0 & Hlen0 & Hin0).
  pose proof (trie_depth_lt T0 _ _ Hx) as Hdx.
  pose proof (trie_length T) as HL.
  destruct (follow_failure_ok I c (length v0) (length h) f0 v0)
    as (r & vr & Hr & Hrin & Hrlen & HrD); [lia|lia|done|done|].
  destruct (trie_lookup T _ _ Hrin) as [nr Hnr].
  assert (∃ target vt, choose_failure h rt c b r = Some target ∧
            (target, vt) ∈ L ∧ length vt ≤ length wx ∧
            (target = rt ∨ target ∈ D)) as (target & vt & Hch & Ht & Htlen & HtD).
  { unfold choose_failure. rewrite Hnr. simpl.
    destruct (dict_get c (children nr)) as [t|] eqn:E.
    - apply (trie_child_get T r vr nr c t Hrin Hnr) in E.
      assert (t ≠ b) as Htb.
      { intros ->. pose proof (trie_word_unique T0 _ _ _ E Hb) as Heq.
        apply (f_equal length) in Heq. rewrite !length_app in Heq.
        simpl in Heq. lia. }
      rewrite decide_True by done. exists t, (vr ++ [c]).
      split_and!; [done|done|rewrite length_app; simpl; lia|].
      right. apply (bi_done _ _ _ _ I t r vr c E Hrin).
      destruct (decide (vr = [])) as [->|Hne]; [by left|right].
      split_and!.
      + destruct HrD as [->|?]; [|done].
        destruct Hne. by apply (trie_root_word T0 _ _ Hrin).
      + intros HrQ.
        assert (has_depth (length vr) r) as Hd by by exists vr.
        pose proof (level_ge _ _ _ _ Hlev HrQ Hd). lia.
      + intros [->|Hp]%elem_of_cons; [done|].
        destruct (Hpend _ Hp) as [c' Hc'].
        pose proof (trie_word_unique T0 _ _ _ E Hc') as Heq.
        apply (f_equal length) in Heq. rewrite !length_app in Heq.
        simpl in Heq. lia.
    - exists rt, []. split_and!; [done|apply (trie_root_in T0)|simpl; lia|by left]. }
  assert (target ≠ b) as Htb by (destruct HtD as [->|?]; by intros ->).
  destruct (trie_lookup T _ _ Hb) as [nb Hnb].
  destruct (trie_lookup T _ _ Ht) as [nt Hnt].
  set (h1 := alter (set_failure (Some target)) b h).
  set (h' := alter (λ n, set_output (output n ++ output nt) n) b h1).
  assert (∀ a, a ≠ b → h' !! a = h !! a) as Hother.
  { intros a Ha. unfold h', h1. by rewrite !list_lookup_alter_ne. }
  assert (h' !! b = Some (set_output (output nb ++ output nt)
                            (set_failure (Some target) nb))) as Hb'.
  { unfold h', h1. by rewrite !list_lookup_alter_eq, Hnb. }
  assert (∀ p c' a, p ∈ D →
            failure_target h' rt p c' a = failure_target h rt p c' a) as Hft.
  { intros p c' a Hp. apply (failure_target_agree h h' rt D); try done.
    - unfold h', h1. by rewrite !length_alter.
    - by apply Hother.
    - intros a' Ha'. apply Hother. by intros ->.
    - intros a' n f Ha' Hn Hf.
      destruct (bi_nonroot _ _ _ _ I a' Ha') as (w' & Hw' & _).
      destruct (linked_failure I a' w' Ha' Hw')
        as (n' & f' & _ & Hn' & Hf' & _ & _ & Hin).
      congruence. }
  exists h'. split.
  { unfold link_child, failure_target.
    rewrite Hcur. simpl. rewrite Hf0. simpl. rewrite Hr. simpl.
    rewrite Hch. simpl. rewrite Hnb. simpl.
    rewrite list_lookup_alter_ne by (by intros ->). by rewrite Hnt. }
  constructor.
  - unfold h', h1. apply trie_alter; [done|]. by apply trie_alter.
  - intros a [Hab Ha]%not_elem_of_cons.
    rewrite Hother by done. by apply (bi_untouched _ _ _ _ I).
  - constructor; [done|apply I].
  - intros a [->|Ha]%elem_of_cons; [|by apply (bi_nonroot _ _ _ _ I)].
    exists (wx ++ [c]). split; [done|]. by destruct wx.
  - intros a p u c' Ha Hp. rewrite elem_of_cons.
    destruct (decide (a = b)) as [->|Hab].
    + pose proof (trie_word_unique T0 _ _ _ Ha Hb) as [-> ->]%snoc_inv.
      rewrite (trie_addr_unique T0 _ _ _ Hp Hx).
      split; [intros _|by left]. right. split_and!; [by right| |done].
      intros [?|?%list_elem_of_singleton]%elem_of_app; done.
    + rewrite (bi_done _ _ _ _ I a p u c' Ha Hp). split.
      * intros [?|[?|(HpD & HpQ & Hap)]]; [done|by left|]. right.
        apply not_elem_of_cons in Hap as [_ Hap].
        split_and!; [by right| |done].
        intros [?| ->%list_elem_of_singleton]%elem_of_app; done.
      * intros [?|(HpD & HpQ & Hap)]; [right; by left|]. right. right.
        apply not_elem_of_app in HpQ as [HpQ Hpb%not_elem_of_cons].
        apply elem_of_cons in HpD as [->|HpD]; [by destruct Hpb|].
        split_and!; [done|done|]. by apply not_elem_of_cons.
  - intros a [->|HaD]%elem_of_cons.
    + intros p u c' Ha Hp.
      pose proof (trie_word_unique T0 _ _ _ Ha Hb) as [-> ->]%snoc_inv.
      rewrite (trie_addr_unique T0 _ _ _ Hp Hx).
      eexists _, target, vt. split_and!; [exact Hb'|done|done|done| |done|].
      { destruct HtD; [by left|right; by right]. }
      intros _. split.
      { rewrite Hft by done. unfold failure_target.
        rewrite Hcur. simpl. rewrite Hf0. simpl. rewrite Hr. simpl. done. }
      exists nt. split; [by rewrite Hother|]. simpl.
      unfold out_of, field.
      by rewrite <- (bi_untouched _ _ _ _ I b HbD), Hnb.
    + intros p u c' Ha Hp.
      assert (a ≠ b) as Hab by (by intros ->).
      destruct (bi_linked _ _ _ _ I a HaD p u c' Ha Hp)
        as (n & b' & v & Hn & Hf & Hb'' & Hlen & Hin & Hr1 & Hr2).
      exists n, b', v.
      split_and!; [by rewrite Hother|done|done|done| |done|].
      { destruct Hin; [by left|right; by right]. }
      intros Hu. destruct (Hr2 Hu) as (Hft' & nb' & Hnb' & Hout). split.
      { rewrite <- Hft'. apply Hft.
        destruct (proj1 (bi_done _ _ _ _ I a p u c' Ha Hp) HaD)
          as [?|(? & _)]; done. }
      exists nb'. split; [|done]. rewrite Hother; [done|].
      destruct Hin as [->|?]; [done|by intros ->].
  - destruct (bi_queue _ _ _ _ I) as [HQ1 HQ2]. split.
    + apply NoDup_app. split_and!; [done| |apply NoDup_singleton].
      intros a Ha%HQ2 ->%list_elem_of_singleton. done.
    + intros a [Ha%HQ2| ->%list_elem_of_singleton]%elem_of_app;
        [by right|by left].
Qed.

(** The [for] loop over the children of [x]. *)
Lemma link_children_inv x wx : ∀ items h D Q,
  bfs_inv h D Q items.*2 → (x, wx) ∈ L → x ∈ D → x ∉ Q →
  level (length wx) Q →
  (∀ c b, (c, b) ∈ items → (b, wx ++ [c]) ∈ L) → NoDup items.*2 →
  ∃ h' D',
    for_each (link_child rt x) (h, Q) items = Some (h', Q ++ items.*2) ∧
    bfs_inv h' D' (Q ++ items.*2) [] ∧
    length D' = length D + length items ∧
    level (length wx) (Q ++ items.*2).
Proof using T0.
  induction items as [|[c b] items IH];
    intros h D Q I Hx HxD HxQ Hlev Hitems Hnd.
  - exists h, D. simpl. rewrite app_nil_r. split_and!; [done|done|lia|done].
  - rewrite fmap_cons in Hnd, I. simpl in Hnd, I.
    apply NoDup_cons in Hnd as [Hb Hnd].
    assert ((b, wx ++ [c]) ∈ L) as HbL by (apply Hitems; left).
    destruct (link_child_inv h D Q items.*2 x wx c b I Hx HxD HxQ Hlev HbL Hb)
      as (h1 & Hrun & I1).
    { intros a ([c' a'] & -> & Hin)%list_elem_of_fmap. exists c'.
      apply Hitems. by right. }
    pose proof (bi_nodup _ _ _ _ I1) as [HbD _]%NoDup_cons.
    destruct (IH h1 (b :: D) (Q ++ [b]) I1 Hx) as (h' & D' & Hrun' & I' & HD' & Hlev').
    { by right. }
    { intros [?| ->%list_elem_of_singleton]%elem_of_app; done. }
    { apply level_push; [done|]. exists (wx ++ [c]). split; [done|].
      rewrite length_app. simpl. lia. }
    { intros c' b' Hin. apply Hitems. by right. }
    { done. }
    exists h', D'. rewrite for_each_cons, Hrun. simpl. rewrite Hrun'.
    rewrite <- (assoc_L (++)) in *. simpl in HD'.
    split_and!; [done|done|lia|done].
Qed.

(** Taking the next node off the queue. *)
Lemma pop_inv h D x Q :
  bfs_inv h D (x :: Q) [] →
  ∃ wx cur, (x, wx) ∈ L ∧ h !! x = Some cur ∧ x ∈ D ∧ (x ∉ Q) ∧
    bfs_inv h D Q (children cur).*2 ∧
    (∀ c b, (c, b) ∈ children cur → (b, wx ++ [c]) ∈ L) ∧
    NoDup (children cur).*2.
Proof using T0.
  intros I. pose proof (bi_trie _ _ _ _ I) as T.
  destruct (bi_queue _ _ _ _ I) as [[HxQ HQ]%NoDup_cons Hsub].
  assert (x ∈ D) as HxD by (apply Hsub; left).
  destruct (bi_nonroot _ _ _ _ I x HxD) as (wx & Hx & Hwx).
  destruct (trie_lookup T _ _ Hx) as [cur Hcur].
  exists wx, cur. split_and!; try done.
  - destruct I as [I1 I2 I3 I4 I5 I6 I7]. constructor; try done.
    + intros a p u c Ha Hp. rewrite (I5 a p u c Ha Hp). split.
      * intros [?|(HpD & HpQ & _)]; [by left|right].
        apply not_elem_of_cons in HpQ as [Hpx HpQ].
        split_and!; [done|done|].
        intros ([c' a'] & -> & Hin)%list_elem_of_fmap.
        apply (trie_child_elem T _ _ _ _ _ Hx Hcur) in Hin. simpl in Ha.
        pose proof (trie_word_unique T0 _ _ _ Ha Hin) as [-> ->]%snoc_inv.
        apply Hpx. by eapply (trie_addr_unique T0).
      * intros [?|(HpD & HpQ & Hap)]; [by left|right].
        split_and!; [done| |apply not_elem_of_nil].
        apply not_elem_of_cons. split; [|done]. intros ->.
        rewrite (trie_word_unique T0 _ _ _ Hp Hx) in *.
        apply Hap. apply list_elem_of_fmap. exists (c, a). split; [done|].
        by apply (trie_child_elem T _ _ _ _ _ Hx Hcur).
    + split; [done|]. intros a Ha. apply Hsub. by right.
  - intros c b. by apply (trie_child_elem T _ _ _ _ _ Hx Hcur).
  - by eapply trie_kid_addrs_NoDup.
Qed.

Lemma bfs_inv_bound h D Q pend : bfs_inv h D Q pend → S (length D) ≤ length L.
Proof using T0.
  intros I.
  assert (NoDup (rt :: D)) as Hnd.
  { constructor; [|apply I]. intros (w & Hw & Hne)%(bi_nonroot _ _ _ _ I).
    apply Hne. by apply (trie_root_word T0 _ _ Hw). }
  assert (∀ a, a ∈ rt :: D → a ∈ L.*1) as Hsub.
  { intros a [->|(w & Hw & _)%(bi_nonroot _ _ _ _ I)]%elem_of_cons;
      apply list_elem_of_fmap.
    - exists (rt, []). split; [done|apply (trie_root_in T0)].
    - by exists (a, w). }
  apply NoDup_submseteq in Hsub; [|done].
  apply submseteq_length in Hsub. by rewrite length_fmap in Hsub.
Qed.

(** The [while] loop runs to the end within its fuel. *)
Lemma bfs_inv_run : ∀ fuel h D Q d,
  bfs_inv h D Q [] → level d Q →
  length L + length Q ≤ fuel + length D + 1 →
  ∃ h' D', bfs fuel rt h Q = Some h' ∧ bfs_inv h' D' [] [].
Proof using T0.
  induction fuel as [|fuel IH]; intros h D Q d I Hlev Hfuel;
    destruct Q as [|x Q].
  - by exists h, D.
  - pose proof (bfs_inv_bound _ _ _ _ I). simpl in Hfuel. lia.
  - by exists h, D.
  - destruct (pop_inv h D x Q I)
      as (wx & cur & Hx & Hcur & HxD & HxQ & I1 & Hkids & Hnd).
    destruct (level_pop _ _ _ Hlev) as (d' & (wx' & Hx' & <-) & Hlev').
    rewrite (trie_word_unique T0 _ _ _ Hx' Hx) in Hlev'.
    destruct (link_children_inv x wx (children cur) h D Q
                I1 Hx HxD HxQ Hlev' Hkids Hnd)
      as (h1 & D1 & Hrun & I2 & HD1 & Hlev1).
    destruct (IH h1 D1 _ _ I2 Hlev1) as (h' & D' & Hrun' & I').
    { rewrite length_app, length_fmap. simpl in Hfuel. lia. }
    exists h', D'. simpl. rewrite Hcur. simpl. rewrite Hrun. simpl. done.
Qed.

Lemma bfs_inv_final h' D' : bfs_inv h' D' [] [] → links_built h'.
Proof using T0.
  intros I.
  assert (∀ w a, (a, w) ∈ L → w ≠ [] → a ∈ D') as Hall.
  { induction w as [|c u IH] using rev_ind; intros a Ha Hne; [done|].
    destruct (trie_closed _ _ _ T0 _ _ _ Ha) as [p Hp].
    apply (bi_done _ _ _ _ I a p u c Ha Hp).
    destruct (decide (u = [])) as [?|Hu]; [by left|right].
    split_and!; [by eapply IH|apply not_elem_of_nil..]. }
  split_and!.
  - apply I.
  - intros a Ha. apply (bi_untouched _ _ _ _ I).
    intros (w & Hw & Hne)%(bi_nonroot _ _ _ _ I). by apply Hne, Ha.
  - intros a p u c Ha Hp.
    assert (a ∈ D') as HaD by (eapply Hall; [done|by destruct u]).
    destruct (bi_linked _ _ _ _ I a HaD p u c Ha Hp)
      as (n & b & v & ? & ? & ? & ? & _ & ? & ?).
    by exists n, b, v.
Qed.

Theorem build_failure_links_correct ac :
  root ac = rt →
  ∃ h', build_failure_links (h0, ac) = Some (h', ac) ∧ links_built h'.
Proof using T0.
  intros Hrt. unfold build_failure_links. rewrite Hrt.
  destruct (trie_lookup T0 _ _ (trie_root_in T0)) as [r Hr].
  rewrite Hr. simpl.
  assert (∀ c b, (c, b) ∈ children r ↔ (b, [c]) ∈ L) as Hkids.
  { intros c b. apply (trie_child_elem T0 rt [] r c b (trie_root_in T0) Hr). }
  rewrite link_root_children_run; cycle 1.
  { intros b ([c b'] & -> & Hin%Hkids)%list_elem_of_fmap.
    by eapply (trie_addr_lt T0). }
  simpl.
  set (D1 := (children r).*2).
  set (h1 := foldl (λ h b, alter (set_failure (Some rt)) b h) h0 D1).
  assert (same_shape h0 h1) as Hshape.
  { eapply (for_each_shape (link_root_child rt)
              (λ h q x h' q', link_root_child_shape rt h q x h' q')
              (children r) h0 [] h1 D1).
    rewrite link_root_children_run; [done|].
    intros b ([c b'] & -> & Hin%Hkids)%list_elem_of_fmap.
    by eapply (trie_addr_lt T0). }
  assert (∀ a, a ∈ D1 ↔ ∃ c, (a, [c]) ∈ L) as HD1.
  { intros a. unfold D1. rewrite list_elem_of_fmap. split.
    - intros ([c b] & -> & Hin%Hkids). by exists c.
    - intros [c Hc%Hkids]. by exists (c, a). }
  assert (bfs_inv h1 D1 D1 []) as I.
  { constructor.
    - by eapply trie_same_shape.
    - intros a Ha. unfold h1. rewrite foldl_set_failure_lookup.
      by rewrite decide_False.
    - by eapply (trie_kid_addrs_NoDup _ _ _ _ _ _ T0 (trie_root_in T0)).
    - intros a [c Hc]%HD1. by exists [c].
    - intros a p u c Ha Hp. rewrite HD1. split.
      + intros [c' Hc']. left.
        pose proof (trie_word_unique T0 _ _ _ Ha Hc') as Heq.
        by destruct u as [|? [|]].
      + intros [->|(? & ? & _)]; [by exists c|done].
    - intros a HaD p u c Ha Hp.
      pose proof HaD as [c' Hc']%HD1.
      pose proof (trie_word_unique T0 _ _ _ Ha Hc') as Heq.
      assert (u = []) as -> by by destruct u as [|? [|]].
      destruct (trie_lookup T0 _ _ Ha) as [n Hn].
      exists (set_failure (Some rt) n), rt, [].
      split_and!; [|done|apply (trie_root_in T0)|done|by left| |done].
      + unfold h1. rewrite foldl_set_failure_lookup, decide_True by done.
        by rewrite Hn.
      + intros _. split; [done|]. simpl. unfold out_of, field.
        by rewrite Hn.
    - split; [|done].
      by eapply (trie_kid_addrs_NoDup _ _ _ _ _ _ T0 (trie_root_in T0)). }
  destruct (bfs_inv_run (length h1) h1 D1 D1 0 I) as (h' & D' & Hrun & I').
  { exists [], D1. split_and!; [done|constructor|].
    apply Forall_forall. intros a [c Hc]%HD1. by exists [c]. }
  { pose proof (trie_length (bi_trie _ _ _ _ I)). lia. }
  exists h'. rewrite Hrun. simpl. split; [done|]. by eapply bfs_inv_final.
Qed.
End bfs.

(** ** The built automaton *)

(** Everything known about the result of the script on [patterns], started
    in the store [h0]: [h] is the store before the links are built, [h'] the
    store after. *)
Lemma build_spec h0 patterns :
  ∃ h ac L h',
    automaton h0 patterns = Some (h, ac) ∧
    build h0 patterns = Some (h', ac) ∧
    build_failure_links (h, ac) = Some (h', ac) ∧
    automaton_inv h ac L ∧ root ac = length h0 ∧
    L.*2 = trie_words_of patterns ∧
    links_built h (root ac) L h' ∧
    (Forall (λ p, p ≠ []) patterns →
       ∃ r, h !! root ac = Some r ∧ is_end r = false ∧ output r = []).
Proof.
  destruct (automaton_spec h0 patterns) as (h & ac & L & Ha & I & Hrt & Hw & Hne).
  destruct (build_failure_links_correct h (root ac) L (ai_trie _ _ _ I) ac eq_refl)
    as (h' & Hb & Hl).
  exists h, ac, L, h'. unfold build. rewrite Ha. simpl. by split_and!.
Qed.

Section built.
Context {h rt L h'} (B : links_built h rt L h').

Lemma built_trie : trie h' rt L.
Proof using B. apply B. Qed.

Lemma built_root : h' !! rt = h !! rt.
Proof using B.
  destruct B as (T & Hu & _). apply Hu. intros w Hw.
  by apply (trie_root_word T _ _ Hw).
Qed.

Lemma built_foreign a : a ∉ L.*1 → h' !! a = h !! a.
Proof using B.
  destruct B as (T & Hu & _). intros Ha. apply Hu. intros w Hw.
  destruct Ha. apply list_elem_of_fmap. by exists (a, w).
Qed.

Lemma built_link a w :
  (a, w) ∈ L → w ≠ [] →
  ∃ n b v, h' !! a = Some n ∧ failure n = Some b ∧ (b, v) ∈ L ∧
           length v < length w.
Proof using B.
  destruct B as (T & _ & Hl). intros Ha Hne.
  induction w as [|c u _] using rev_ind; [done|].
  destruct (trie_closed _ _ _ T _ _ _ Ha) as [p Hp].
  destruct (Hl a p u c Ha Hp) as (n & b & v & ? & ? & ? & ? & _).
  exists n, b, v. rewrite length_app. simpl. split_and!; [done..|lia].
Qed.
End built.

(** ** The rule of steps 2a-2d *)

Lemma follow_failure_walk h rt c fuel : ∀ fn r,
  is_Some (h !! rt) →
  follow_failure fuel h rt c fn = Some r → candidate_walk h rt c fn r.
Proof.
  induction fuel as [|fuel IH]; intros fn r [nr Hrt] H; simpl in H; [done|].
  case_decide as Hfn.
  { injection H as <-. subst fn. eapply cw_stop; [done|by left]. }
  destruct (h !! fn) as [n|] eqn:Hn; [|done]. simpl in H.
  destruct (dict_has c (children n)) eqn:Hc.
  { injection H as <-. eapply cw_stop; [done|by right]. }
  destruct (failure n) as [f|] eqn:Hf; [|done]. simpl in H.
  eapply cw_advance; [done..|]. apply IH; [by eexists|done].
Qed.

Lemma failure_target_spec h rt current c child link :
  is_Some (h !! rt) →
  failure_target h rt current c child = Some link →
  spec_link h rt current c child link.
Proof.
  intros Hrt H. unfold failure_target in H.
  destruct (h !! current) as [cur|] eqn:Hcur; [|done]. simpl in H.
  destruct (failure cur) as [f0|] eqn:Hf0; [|done]. simpl in H.
  destruct (follow_failure (length h) h rt c f0) as [r|] eqn:Hr; [|done].
  simpl in H. unfold choose_failure in H.
  destruct (h !! r) as [cn|] eqn:Hcn; [|done]. simpl in H.
  exists cur, f0, r, cn. split_and!; [done|done| |done|].
  - by eapply follow_failure_walk.
  - destruct (dict_get c (children cn)) as [x|]; [|by injection H].
    case_decide; by injection H.
Qed.

Section built_links.
Context {h rt L h'} (B : links_built h rt L h').
Context (Hroot : ∃ r, h !! rt = Some r ∧ failure r = Some rt).

(** The link of every node, also of a child of the root, is what lines
    48-59 compute in the final store. *)
Lemma built_target a p u c :
  (a, u ++ [c]) ∈ L → (p, u) ∈ L →
  ∃ n b, h' !! a = Some n ∧ failure n = Some b ∧
         failure_target h' rt p c a = Some b.
Proof using B Hroot.
  intros Ha Hp. pose proof (built_trie B) as T.
  destruct B as (_ & _ & Hl).
  destruct (Hl a p u c Ha Hp) as (n & b & v & Hn & Hf & Hb & _ & H1 & H2).
  exists n, b. split_and!; [done..|].
  destruct (decide (u = [])) as [->|Hu]; [|by apply H2].
  destruct (H1 eq_refl) as [-> _].
  assert (p = rt) as -> by by apply (trie_root_word T _ _ Hp).
  destruct Hroot as (r & Hr & Hfr). rewrite <- (built_root B) in Hr.
  unfold failure_target. rewrite Hr. simpl. rewrite Hfr. simpl.
  pose proof (lookup_lt_Some _ _ _ Hr) as Hlt.
  destruct (length h') as [|k]; [lia|]. simpl.
  rewrite decide_True by done. simpl. unfold choose_failure.
  rewrite Hr. simpl.
  rewrite (proj2 (trie_child_get T rt [] r c a Hp Hr) Ha).
  by rewrite decide_False by (by intros ?).
Qed.
End built_links.

(** ** The links are determined by the words of the trie

    Two stores whose tries spell the same words, each with its links built,
    have the same links up to the naming of nodes: nodes spelling the same
    word link to nodes spelling the same word. *)

Section unique.
Context {hA rtA LA hA'} (BA : links_built hA rtA LA hA').
Context {hB rtB LB hB'} (BB : links_built hB rtB LB hB').
Context (HrootA : ∃ r, hA !! rtA = Some r ∧ failure r = Some rtA).
Context (HrootB : ∃ r, hB !! rtB = Some r ∧ failure r = Some rtB).
Context (Hwords : LA.*2 = LB.*2).

Local Abbreviation same_word := (same_word LA LB).
Local Abbreviation links_agree := (links_agree LA LB hA' hB').

Lemma has_child_same a b v na nb c :
  (a, v) ∈ LA → (b, v) ∈ LB → hA' !! a = Some na → hB' !! b = Some nb →
  dict_has c (children na) = dict_has c (children nb).
Proof using BA BB Hwords.
  intros Ha Hb Hna Hnb.
  pose proof (trie_child_get_None (built_trie BA) a v na c Ha Hna) as HA.
  pose proof (trie_child_get_None (built_trie BB) b v nb c Hb Hnb) as HB.
  rewrite Hwords in HA. rewrite <- HB, <- !dict_has_false in HA.
  destruct (dict_has c (children na)), (dict_has c (children nb)); try done.
  - by apply HA.
  - symmetry. by apply HA.
Qed.

Lemma follow_failure_same k c :
  links_agree k →
  ∀ fuelA fuelB fnA fnB v rA rB,
    length v ≤ k → (fnA, v) ∈ LA → (fnB, v) ∈ LB →
    follow_failure fuelA hA' rtA c fnA = Some rA →
    follow_failure fuelB hB' rtB c fnB = Some rB →
    ∃ vr, (rA, vr) ∈ LA ∧ (rB, vr) ∈ LB ∧ length vr ≤ length v.
Proof using BA BB Hwords.
  intros IHk. pose proof (built_trie BA) as TA. pose proof (built_trie BB) as TB.
  induction fuelA as [|fuelA IH]; intros fuelB fnA fnB v rA rB Hk HA HB RA RB;
    (destruct fuelB as [|fuelB]; simpl in RA, RB; [done..|]); [done|].
  destruct (decide (v = [])) as [->|Hne].
  { assert (fnA = rtA) as -> by by apply (trie_root_word TA _ _ HA).
    assert (fnB = rtB) as -> by by apply (trie_root_word TB _ _ HB).
    rewrite decide_True in RA by done. rewrite decide_True in RB by done.
    injection RA as <-. injection RB as <-. by exists []. }
  rewrite decide_False in RA
    by (intros ?; by apply Hne, (trie_root_word TA _ _ HA)).
  rewrite decide_False in RB
    by (intros ?; by apply Hne, (trie_root_word TB _ _ HB)).
  destruct (hA' !! fnA) as [nA|] eqn:HnA; [|done].
  destruct (hB' !! fnB) as [nB|] eqn:HnB; [|done]. simpl in RA, RB.
  rewrite (has_child_same fnA fnB v nA nB c HA HB HnA HnB) in RA.
  destruct (dict_has c (children nB)).
  { injection RA as <-. injection RB as <-. by exists v. }
  destruct (failure nA) as [fA|] eqn:HfA; [|done].
  destruct (failure nB) as [fB|] eqn:HfB; [|done]. simpl in RA, RB.
  destruct (IHk fnA fnB v nA nB fA fB Hk Hne HA HB HnA HnB HfA HfB)
    as (v' & HA' & HB').
  destruct (built_link BA fnA v HA Hne) as (n & b & vb & Hn & Hf & Hb & Hlen).
  assert (b = fA) as -> by congruence.
  rewrite (trie_word_unique TA _ _ _ Hb HA') in Hlen.
  destruct (IH fuelB fA fB v' rA rB) as (vr & ? & ? & ?); [lia|done..|].
  exists vr. split_and!; [done|done|lia].
Qed.

Lemma links_agree_all k : links_agree k.
Proof using BA BB HrootA HrootB Hwords.
  pose proof (built_trie BA) as TA. pose proof (built_trie BB) as TB.
  induction k as [|k IHk]; intros a b w na nb fa fb Hk Hne HA HB Hna Hnb Hfa Hfb.
  { destruct w; [done|simpl in Hk; lia]. }
  induction w as [|c u _] using rev_ind; [done|].
  rewrite length_app in Hk. simpl in Hk.
  destruct (trie_closed _ _ _ TA _ _ _ HA) as [pA HpA].
  destruct (trie_closed _ _ _ TB _ _ _ HB) as [pB HpB].
  destruct (built_target BA HrootA a pA u c HA HpA) as (na' & fa' & Hna' & Hfa' & HtA).
  destruct (built_target BB HrootB b pB u c HB HpB) as (nb' & fb' & Hnb' & Hfb' & HtB).
  assert (fa' = fa) as -> by congruence.
  assert (fb' = fb) as -> by congruence. clear na' nb' Hna' Hnb' Hfa' Hfb'.
  unfold failure_target in HtA, HtB.
  destruct (hA' !! pA) as [curA|] eqn:HcurA; [|done].
  destruct (hB' !! pB) as [curB|] eqn:HcurB; [|done]. simpl in HtA, HtB.
  destruct (failure curA) as [f0A|] eqn:Hf0A; [|done].
  destruct (failure curB) as [f0B|] eqn:Hf0B; [|done]. simpl in HtA, HtB.
  destruct (follow_failure (length hA') hA' rtA c f0A) as [rA|] eqn:HrA; [|done].
  destruct (follow_failure (length hB') hB' rtB c f0B) as [rB|] eqn:HrB; [|done].
  simpl in HtA, HtB.
  assert (∃ v0, (f0A, v0) ∈ LA ∧ (f0B, v0) ∈ LB ∧ length v0 ≤ k)
    as (v0 & H0A & H0B & Hlen0).
  { destruct (decide (u = [])) as [->|Hu].
    - assert (pA = rtA) as -> by by apply (trie_root_word TA _ _ HpA).
      assert (pB = rtB) as -> by by apply (trie_root_word TB _ _ HpB).
      destruct HrootA as (r1 & Hr1 & Hf1), HrootB as (r2 & Hr2 & Hf2).
      rewrite <- (built_root BA) in Hr1. rewrite <- (built_root BB) in Hr2.
      assert (f0A = rtA) as -> by congruence.
      assert (f0B = rtB) as -> by congruence.
      exists []. split_and!; [apply (trie_root_in TA)|apply (trie_root_in TB)|simpl; lia].
    - destruct (IHk pA pB u curA curB f0A f0B) as (v0 & H0A & H0B);
        [lia|done..|].
      exists v0. split_and!; [done..|].
      destruct (built_link BA pA u HpA Hu) as (n & f & vf & Hn & Hf & Hvf & Hlen).
      assert (f = f0A) as -> by congruence.
      rewrite (trie_word_unique TA _ _ _ Hvf H0A) in Hlen. lia. }
  destruct (follow_failure_same k c IHk _ _ _ _ v0 rA rB Hlen0 H0A H0B HrA HrB)
    as (vr & HvA & HvB & Hlenr).
  unfold choose_failure in HtA, HtB.
  destruct (hA' !! rA) as [nrA|] eqn:HnrA; [|done].
  destruct (hB' !! rB) as [nrB|] eqn:HnrB; [|done]. simpl in HtA, HtB.
  pose proof (has_child_same rA rB vr nrA nrB c HvA HvB HnrA HnrB) as Hsame.
  destruct (dict_get c (children nrA)) as [xA|] eqn:ExA;
    destruct (dict_get c (children nrB)) as [xB|] eqn:ExB.
  - apply (trie_child_get TA _ _ _ _ _ HvA HnrA) in ExA.
    apply (trie_child_get TB _ _ _ _ _ HvB HnrB) in ExB.
    destruct (decide (vr = u)) as [->|Hvu].
    + rewrite (trie_addr_unique TA _ _ _ ExA HA) in HtA.
      rewrite (trie_addr_unique TB _ _ _ ExB HB) in HtB.
      rewrite decide_False in HtA by (by intros ?).
      rewrite decide_False in HtB by (by intros ?).
      injection HtA as <-. injection HtB as <-.
      exists []. split; [apply (trie_root_in TA)|apply (trie_root_in TB)].
    + rewrite decide_True in HtA.
      2:{ intros ->. apply Hvu.
          by pose proof (trie_word_unique TA _ _ _ ExA HA) as [? _]%snoc_inv. }
      rewrite decide_True in HtB.
      2:{ intros ->. apply Hvu.
          by pose proof (trie_word_unique TB _ _ _ ExB HB) as [? _]%snoc_inv. }
      injection HtA as <-. injection HtB as <-. by exists (vr ++ [c]).
  - exfalso. unfold dict_has in Hsame. rewrite ExA, ExB in Hsame.
    by vm_compute in Hsame.
  - exfalso. unfold dict_has in Hsame. rewrite ExA, ExB in Hsame.
    by vm_compute in Hsame.
  - injection HtA as <-. injection HtB as <-.
    exists []. split; [apply (trie_root_in TA)|apply (trie_root_in TB)].
Qed.

(** Corresponding nodes have corresponding links. *)
Lemma links_same a b w :
  (a, w) ∈ LA → (b, w) ∈ LB →
  ∃ na nb fa fb, hA' !! a = Some na ∧ hB' !! b = Some nb ∧
    failure na = Some fa ∧ failure nb = Some fb ∧ same_word fa fb.
Proof using BA BB HrootA HrootB Hwords.
  intros HA HB.
  pose proof (built_trie BA) as TA. pose proof (built_trie BB) as TB.
  destruct (decide (w = [])) as [->|Hne].
  - assert (a = rtA) as -> by by apply (trie_root_word TA _ _ HA).
    assert (b = rtB) as -> by by apply (trie_root_word TB _ _ HB).
    destruct HrootA as (r1 & Hr1 & Hf1), HrootB as (r2 & Hr2 & Hf2).
    rewrite <- (built_root BA) in Hr1. rewrite <- (built_root BB) in Hr2.
    exists r1, r2, rtA, rtB. split_and!; [done..|]. by exists [].
  - destruct (built_link BA a w HA Hne) as (na & fa & ? & Hna & Hfa & _).
    destruct (built_link BB b w HB Hne) as (nb & fb & ? & Hnb & Hfb & _).
    exists na, nb, fa, fb. split_and!; [done..|].
    by eapply (links_agree_all (length w) a b w).
Qed.
End unique.

(** ** Building the links a second time *)

Section rebuild.
Context {h rt L h1 h2} (B1 : links_built h rt L h1) (B2 : links_built h1 rt L h2).
Context (Hroot : ∃ r, h !! rt = Some r ∧ failure r = Some rt).

Lemma rebuild_root : ∃ r, h1 !! rt = Some r ∧ failure r = Some rt.
Proof using B1 Hroot. by rewrite (built_root B1). Qed.

Lemma rebuild_failure a : field failure h2 a = field failure h1 a.
Proof using B1 B2 Hroot.
  pose proof (built_trie B1) as T. unfold field.
  destruct (decide (a ∈ L.*1)) as [Hin|Hout]; [|by rewrite (built_foreign B2)].
  apply list_elem_of_fmap in Hin as ([a' w] & -> & Hin). simpl.
  destruct (links_same B1 B2 Hroot rebuild_root eq_refl a' a' w Hin Hin)
    as (n1 & n2 & f1 & f2 & -> & -> & Hf1 & Hf2 & v & Hv1 & Hv2).
  simpl. rewrite Hf1, Hf2. do 2 f_equal.
  by eapply (trie_addr_unique T).
Qed.

Lemma rebuild_output k : ∀ a w,
  length w ≤ k → (a, w) ∈ L →
  ∀ p, p ∈ out_of h2 a ↔ p ∈ out_of h1 a.
Proof using B1 B2 Hroot.
  pose proof (built_trie B1) as T.
  induction k as [|k IH]; intros a w Hk Ha p.
  { destruct w; [|simpl in Hk; lia].
    assert (a = rt) as -> by by apply (trie_root_word T _ _ Ha).
    unfold out_of, field. by rewrite (built_root B2). }
  induction w as [|c u _] using rev_ind.
  { assert (a = rt) as -> by by apply (trie_root_word T _ _ Ha).
    unfold out_of, field. by rewrite (built_root B2). }
  rewrite length_app in Hk. simpl in Hk.
  destruct (trie_closed _ _ _ T _ _ _ Ha) as [q Hq].
  pose proof (rebuild_failure a) as Hfail.
  destruct B1 as (_ & _ & Hl1). destruct B2 as (_ & _ & Hl2).
  destruct (Hl1 a q u c Ha Hq) as (n1 & b1 & v1 & Hn1 & Hf1 & Hb1 & Hlen1 & _ & Hd1).
  destruct (Hl2 a q u c Ha Hq) as (n2 & b2 & v2 & Hn2 & Hf2 & Hb2 & Hlen2 & Hr2 & Hd2).
  unfold field in Hfail. rewrite Hn1, Hn2 in Hfail. simpl in Hfail.
  assert (b2 = b1) as -> by congruence.
  destruct (decide (u = [])) as [->|Hu].
  { destruct (Hr2 eq_refl) as [_ Hout]. unfold out_of at 1, field.
    rewrite Hn2. simpl. by rewrite Hout. }
  destruct (Hd1 Hu) as (_ & nb1 & Hnb1 & Hout1).
  destruct (Hd2 Hu) as (_ & nb2 & Hnb2 & Hout2).
  specialize (IH b1 v1 ltac:(lia) Hb1 p).
  assert (out_of h1 a = output n1) as Ho
    by (unfold out_of, field; by rewrite Hn1).
  unfold out_of, field in IH |- *. rewrite Hnb1, Hnb2 in IH.
  rewrite Hn1, Hn2. simpl in *.
  rewrite Hout2, Ho, Hout1, !elem_of_app, IH. tauto.
Qed.

(** The second pass only appends to the output lists. *)
Lemma rebuild_prefix a : out_of h1 a `prefix_of` out_of h2 a.
Proof using B1 B2.
  pose proof (built_trie B1) as T.
  destruct (decide (a ∈ L.*1)) as [Hin|Hout];
    [|unfold out_of, field; by rewrite (built_foreign B2)].
  apply list_elem_of_fmap in Hin as ([a' w] & -> & Hin). simpl.
  induction w as [|c u _] using rev_ind.
  { assert (a' = rt) as -> by by apply (trie_root_word T _ _ Hin).
    unfold out_of, field. by rewrite (built_root B2). }
  destruct (trie_closed _ _ _ T _ _ _ Hin) as [q Hq].
  destruct B2 as (_ & _ & Hl2).
  destruct (Hl2 a' q u c Hin Hq) as (n2 & b & v & Hn2 & _ & _ & _ & Hr & Hd).
  unfold out_of at 2, field. rewrite Hn2. simpl.
  destruct (decide (u = [])) as [->|Hu].
  - destruct (Hr eq_refl) as [_ ->]. done.
  - destruct (Hd Hu) as (_ & nb & _ & ->). by apply prefix_app_r.
Qed.

Lemma rebuild_output_all a p : p ∈ out_of h2 a ↔ p ∈ out_of h1 a.
Proof using B1 B2 Hroot.
  destruct (decide (a ∈ L.*1)) as [Hin|Hout].
  - apply list_elem_of_fmap in Hin as ([a' w] & -> & Hin).
    by eapply (rebuild_output (length w)).
  - unfold out_of, field. by rewrite (built_foreign B2).
Qed.
End rebuild.

(** ** Two tries with the same words *)

Lemma child_entry_key w b v :
  fst <$> child_entry w (b, v) = fst <$> child_entry w (0, v).
Proof.
  unfold child_entry. simpl. destruct (reverse v) as [|c u]; [done|].
  by case_decide.
Qed.

Lemma child_keys w (L : labelling) :
  (omap (child_entry w) L).*1
  = omap (λ v, fst <$> child_entry w (0, v)) L.*2.
Proof.
  induction L as [|[b v] L IH]; [done|].
  pose proof (child_entry_key w b v) as Hk. cbn.
  destruct (child_entry w (b, v)) as [[c b']|],
    (child_entry w (0, v)) as [[c' b'']|]; simpl in *; try done.
  injection Hk as <-. by rewrite <- IH.
Qed.

Section same_words.
Context {hA rtA LA} (TA : trie hA rtA LA).
Context {hB rtB LB} (TB : trie hB rtB LB).
Context (Hwords : LA.*2 = LB.*2).

Lemma same_words_id a b w :
  (a, w) ∈ LA → (b, w) ∈ LB →
  ∃ na nb, hA !! a = Some na ∧ hB !! b = Some nb ∧ node_id na = node_id nb.
Proof using TA TB Hwords.
  intros [i Hi]%list_elem_of_lookup [j Hj]%list_elem_of_lookup.
  destruct (trie_ids _ _ _ TA _ _ _ Hi) as (na & Hna & Hida).
  destruct (trie_ids _ _ _ TB _ _ _ Hj) as (nb & Hnb & Hidb).
  exists na, nb. split_and!; [done..|]. rewrite Hida, Hidb. f_equal.
  eapply NoDup_lookup; [apply (trie_words _ _ _ TB)|..].
  - by rewrite <- Hwords, list_lookup_fmap, Hi.
  - by rewrite list_lookup_fmap, Hj.
Qed.

Lemma same_words_keys a b w na nb :
  (a, w) ∈ LA → (b, w) ∈ LB → hA !! a = Some na → hB !! b = Some nb →
  (children na).*1 = (children nb).*1.
Proof using TA TB Hwords.
  intros Ha Hb Hna Hnb.
  destruct (trie_kids _ _ _ TA _ _ Ha) as (na' & Hna' & Hka).
  destruct (trie_kids _ _ _ TB _ _ Hb) as (nb' & Hnb' & Hkb).
  assert (na' = na) as -> by congruence.
  assert (nb' = nb) as -> by congruence.
  by rewrite Hka, Hkb, !child_keys, Hwords.
Qed.

Lemma same_words_walk w :
  (∃ a b, walk hA rtA w = Some a ∧ walk hB rtB w = Some b ∧
          (a, w) ∈ LA ∧ (b, w) ∈ LB) ∨
  (walk hA rtA w = None ∧ walk hB rtB w = None).
Proof using TA TB Hwords.
  destruct (walk hA rtA w) as [a|] eqn:Ea, (walk hB rtB w) as [b|] eqn:Eb.
  - left. exists a, b. split_and!; [done|done|..].
    + by apply (trie_walk_root TA).
    + by apply (trie_walk_root TB).
  - exfalso. apply (trie_walk_root TA) in Ea.
    assert (w ∈ LB.*2) as ([b v] & -> & Hin)%list_elem_of_fmap.
    { rewrite <- Hwords. apply list_elem_of_fmap. by exists (a, w). }
    simpl in *. apply (trie_walk_root TB) in Hin. congruence.
  - exfalso. apply (trie_walk_root TB) in Eb.
    assert (w ∈ LA.*2) as ([a v] & -> & Hin)%list_elem_of_fmap.
    { rewrite Hwords. apply list_elem_of_fmap. by exists (b, w). }
    simpl in *. apply (trie_walk_root TA) in Hin. congruence.
  - by right.
Qed.
End same_words.

(** ** States an automaton can be in *)

Lemma reachable_trie s :
  reachable s → ∃ L, trie s.1 (root s.2) L ∧ node_counter s.2 = length L.
Proof.
  induction 1 as [h0|[h ac] p [h' ac'] _ IH Hadd|[h ac] [h' ac'] _ IH Hb];
    [|destruct IH as (L & T & Hc); simpl in T, Hc..]; simpl.
  - pose proof (AhoCorasick_new_inv h0) as [T Hc _]. eauto.
  - destruct (add_pattern_spec p h ac L T Hc) as (h1 & L' & node & Hrun & T' & _).
    rewrite Hrun in Hadd. injection Hadd as <- <-. eauto.
  - apply build_failure_links_shape in Hb as [-> Hs].
    exists L. split; [by eapply trie_same_shape|done].
Qed.

Lemma add_patterns_reachable patterns : ∀ s s',
  reachable s → add_patterns patterns s = Some s' → reachable s'.
Proof.
  induction patterns as [|p ps IH]; intros s s' Hr E.
  - by injection E as <-.
  - rewrite add_patterns_cons in E.
    destruct (add_pattern p s) as [s1|] eqn:E'; [|done]. simpl in E.
    eapply IH; [|done]. by eapply reach_add.
Qed.

Lemma automaton_reachable h0 patterns s :
  automaton h0 patterns = Some s → reachable s.
Proof. apply add_patterns_reachable, reach_new. Qed.

Lemma build_reachable h0 patterns s : build h0 patterns = Some s → reachable s.
Proof.
  unfold build.
  destruct (automaton h0 patterns) as [s1|] eqn:E; [|done]. simpl.
  apply reach_build. by eapply automaton_reachable.
Qed.

(** The pass returns in every state of an automaton. *)
Lemma build_failure_links_total s :
  reachable s → ∃ s', build_failure_links s = Some s'.
Proof.
  intros (L & T & _)%reachable_trie. destruct s as [h ac].
  destruct (build_failure_links_correct h (root ac) L T ac eq_refl)
    as (h' & Hb & _). eauto.
Qed.

(** ** The words of the trie are the prefixes of the patterns *)

Lemma add_words_elem pat : ∀ w W v,
  v ∈ add_words pat w W ↔
  v ∈ W ∨ ∃ k, k < length pat ∧ v = w ++ take (S k) pat.
Proof.
  induction pat as [|c pat IH]; intros w W v; simpl.
  - split; [by left|]. intros [?|(k & ? & _)]; [done|lia].
  - assert (∀ k, w ++ c :: take k pat = (w ++ [c]) ++ take k pat) as Hk
      by (intros k; by rewrite <- (assoc_L (++))).
    assert ((∃ k, k < S (length pat) ∧ v = w ++ c :: take k pat) ↔
            v = w ++ [c] ∨ ∃ k, k < length pat ∧ v = (w ++ [c]) ++ take (S k) pat)
      as Hsplit.
    { split.
      - intros ([|k] & Hlt & ->); [left; by rewrite take_0|right].
        exists k. split; [lia|apply Hk].
      - intros [->|(k & Hlt & ->)].
        + exists 0. split; [lia|by rewrite take_0].
        + exists (S k). split; [lia|by rewrite Hk]. }
    rewrite Hsplit. case_decide as Hin; rewrite IH.
    + split; [tauto|]. intros [?|[->|?]]; tauto.
    + rewrite elem_of_app, list_elem_of_singleton. tauto.
Qed.

Lemma prefix_take_S (w p : str) :
  w `prefix_of` p ∧ w ≠ [] ↔ ∃ k, k < length p ∧ w = take (S k) p.
Proof.
  split.
  - intros [[k ->] Hne]. destruct w as [|c w]; [done|].
    exists (length w). rewrite length_app. simpl. split; [lia|].
    change (S (length w)) with (length (c :: w)).
    by rewrite take_app_length.
  - intros (k & Hlt & ->). split; [apply prefix_take|].
    destruct p; [simpl in Hlt; lia|done].
Qed.

Lemma trie_words_of_elem ps v :
  v ∈ trie_words_of ps ↔ v = [] ∨ ∃ p, p ∈ ps ∧ v `prefix_of` p.
Proof.
  unfold trie_words_of.
  assert (∀ W, v ∈ foldl (λ W pat, add_words pat [] W) W ps ↔
               v ∈ W ∨ ∃ p, p ∈ ps ∧ v `prefix_of` p ∧ v ≠ []) as H.
  { induction ps as [|p ps IH]; intros W; simpl.
    - split; [by left|]. by intros [?|(p & ?%elem_of_nil & _)].
    - rewrite IH, add_words_elem. simpl.
      rewrite <- (prefix_take_S v p). split.
      + intros [[?|[? ?]]|(q & ? & ? & ?)]; [by left|right..].
        * exists p. split_and!; [left|done..].
        * exists q. split_and!; [by right|done..].
      + intros [?|(q & [->|?]%elem_of_cons & ? & ?)];
          [left; by left|left; by right|right].
        by exists q. }
  rewrite H, list_elem_of_singleton. split.
  - intros [?|(p & ? & ? & _)]; [by left|right; by exists p].
  - destruct (decide (v = [])) as [?|Hne]; [by left|].
    intros [?|(p & ? & ?)]; [done|right; by exists p].
Qed.

(** The words of the trie of [ps] are no longer than the patterns. *)
Lemma words_room ps (L : labelling) frames :
  L.*2 = trie_words_of ps →
  4 ≤ frames → Forall (λ p, 2 * length p + 4 ≤ frames) ps →
  ∀ a w, (a, w) ∈ L → 2 * length w + 4 ≤ frames.
Proof.
  intros HW H4 Hps a w Ha. rewrite Forall_forall in Hps.
  assert (w ∈ L.*2) as Hw by (apply list_elem_of_fmap; by exists (a, w)).
  rewrite HW in Hw. apply trie_words_of_elem in Hw as [->|(p & Hp & Hpre)].
  - simpl. lia.
  - apply prefix_length in Hpre. specialize (Hps p Hp). simpl in Hps. lia.
Qed.

Lemma words_pattern ps (L : labelling) p :
  L.*2 = trie_words_of ps → p ∈ ps → ∃ a, (a, p) ∈ L.
Proof.
  intros HW Hp.
  assert (p ∈ L.*2) as ([a w] & -> & Ha)%list_elem_of_fmap.
  { rewrite HW. apply trie_words_of_elem. right. by exists p. }
  by exists a.
Qed.

(** ** Finding the path to a node *)

Lemma object_lookup h a n : h !! a = Some n → object h a = Returns n.
Proof. unfold object. by intros ->. Qed.

Lemma find_path_unfold frames h target node path :
  find_path (S frames) h target node path
  = if decide (node = target) then Returns (Some path) else
    n ← object h node; find_in (find_path frames h target) path (children n).
Proof.
  simpl. case_decide; [done|]. destruct (object h node) as [n| |]; [|done..].
  simpl. induction (children n) as [|[c b] items IH]; [done|]. simpl.
  destruct (find_path frames h target b (path ++ [c])) as [[p|]| |];
    simpl; done.
Qed.

Section find.
Context {h : heap} {rt : addr} {L : labelling} (T : trie h rt L).
Context (target : addr).

(** With a call left for every level below [node], [find_path] returns the
    path of [target] when [target] is below the node it starts from, and
    Python's [None] when it is not. *)
Lemma find_path_spec : ∀ frames node w,
  (node, w) ∈ L →
  (∀ b v, (b, v) ∈ L → w `prefix_of` v → length v < frames + length w) →
  ∃ r, find_path frames h target node w = Returns r ∧
    (∀ v, r = Some v → (target, v) ∈ L ∧ w `prefix_of` v) ∧
    (r = None → ∀ v, (target, v) ∈ L → ¬ w `prefix_of` v).
Proof using T.
  induction frames as [|frames IH]; intros node w Hn Hroom.
  { specialize (Hroom node w Hn). simpl in Hroom.
    assert (length w < length w) by by apply Hroom. lia. }
  rewrite find_path_unfold. case_decide as Hnt.
  { subst node. exists (Some w). split_and!; [done| |done].
    by intros v [= <-]. }
  destruct (trie_lookup T _ _ Hn) as [n Hlk].
  rewrite (object_lookup _ _ _ Hlk). simpl.
  assert (∀ items, (∀ c b, (c, b) ∈ items → (b, w ++ [c]) ∈ L) →
    ∃ r, find_in (find_path frames h target) w items = Returns r ∧
      (∀ v, r = Some v → (target, v) ∈ L ∧
         ∃ c b, (c, b) ∈ items ∧ (w ++ [c]) `prefix_of` v) ∧
      (r = None → ∀ v, (target, v) ∈ L →
         ∀ c b, (c, b) ∈ items → ¬ (w ++ [c]) `prefix_of` v)) as Hloop.
  { induction items as [|[c b] items IHi]; intros Hitems; simpl.
    - exists None. split_and!; [done|done|]. by intros _ v _ c b ?%elem_of_nil.
    - destruct (IH b (w ++ [c])) as (r1 & -> & Hs1 & Hn1).
      { apply Hitems. left. }
      { intros b' v Hv Hpre. rewrite length_app. simpl.
        assert (length v < S frames + length w); [|lia].
        apply (Hroom b' v Hv). etrans; [|done]. by apply prefix_app_r. }
      simpl. destruct r1 as [p|].
      + exists (Some p). split_and!; [done| |done]. intros v [= <-].
        destruct (Hs1 p eq_refl) as [? ?]. split; [done|].
        exists c, b. split; [left|done].
      + destruct IHi as (r & -> & Hs & Hno).
        { intros c' b' Hin. apply Hitems. by right. }
        exists r. split_and!; [done| |].
        * intros v Hv. destruct (Hs v Hv) as (? & c' & b' & ? & ?).
          split; [done|]. exists c', b'. split; [by right|done].
        * intros -> v Hv c' b' [[= -> ->]|Hin]%elem_of_cons.
          -- by apply Hn1.
          -- by eapply Hno. }
  destruct (Hloop (children n)) as (r & -> & Hs & Hno).
  { intros c b. by apply (trie_child_elem T _ _ _ _ _ Hn Hlk). }
  exists r. split_and!; [done| |].
  - intros v Hv. destruct (Hs v Hv) as (? & c & b & _ & Hpre).
    split; [done|]. etrans; [|done]. by apply prefix_app_r.
  - intros -> v Hv [k ->].
    destruct k as [|c k].
    + rewrite app_nil_r in Hv. apply Hnt. by eapply (trie_addr_unique T).
    + replace (w ++ c :: k) with ((w ++ [c]) ++ k) in Hv
        by by rewrite <- (assoc_L (++)).
      destruct (trie_prefix_closed T _ _ _ Hv) as [b Hb].
      eapply (Hno eq_refl _ Hv c b).
      * by apply (trie_child_elem T _ _ _ _ _ Hn Hlk).
      * by exists k.
Qed.

(** Whatever the number of calls left, [find_path] on a node of the trie
    raises [RecursionError], returns [None], or returns a path of
    [target]. *)
Lemma find_path_cases : ∀ frames node w,
  (node, w) ∈ L →
  find_path frames h target node w = RecursionError ∨
  find_path frames h target node w = Returns None ∨
  ∃ v, find_path frames h target node w = Returns (Some v) ∧ (target, v) ∈ L.
Proof using T.
  induction frames as [|frames IH]; intros node w Hn; [by left|].
  rewrite find_path_unfold. case_decide as Hnt.
  { subst node. right. right. by exists w. }
  destruct (trie_lookup T _ _ Hn) as [n Hlk].
  rewrite (object_lookup _ _ _ Hlk). simpl.
  assert (∀ items, (∀ c b, (c, b) ∈ items → (b, w ++ [c]) ∈ L) →
    find_in (find_path frames h target) w items = RecursionError ∨
    find_in (find_path frames h target) w items = Returns None ∨
    ∃ v, find_in (find_path frames h target) w items = Returns (Some v) ∧
         (target, v) ∈ L) as Hloop.
  { induction items as [|[c b] items IHi]; intros Hitems; simpl.
    { right. by left. }
    assert ((b, w ++ [c]) ∈ L) as Hb by (apply Hitems; left).
    destruct (IH b (w ++ [c]) Hb) as [->|[->|(v & -> & Hv)]]; simpl.
    - by left.
    - apply IHi. intros c' b' Hin. apply Hitems. by right.
    - right. right. by exists v. }
  apply Hloop. intros c b. by apply (trie_child_elem T _ _ _ _ _ Hn Hlk).
Qed.

(** When no path leads to [target], the search below a node goes through
    all that is below it, and raises when a node there is further down than
    there are calls left. *)
Lemma find_path_deep : ∀ frames node w b v,
  target ∉ L.*1 →
  (node, w) ∈ L → (b, v) ∈ L → w `prefix_of` v →
  frames + length w ≤ length v →
  find_path frames h target node w = RecursionError.
Proof using T.
  induction frames as [|frames IH]; intros node w b v Hout Hn Hv Hpre Hdeep;
    [done|].
  rewrite find_path_unfold. case_decide as Hnt.
  { destruct Hout. subst node. apply list_elem_of_fmap. by exists (target, w). }
  destruct (trie_lookup T _ _ Hn) as [n Hlk].
  rewrite (object_lookup _ _ _ Hlk). simpl.
  destruct Hpre as [k ->]. destruct k as [|c k].
  { rewrite app_nil_r in Hdeep. lia. }
  replace (w ++ c :: k) with ((w ++ [c]) ++ k) in *
    by by rewrite <- (assoc_L (++)).
  destruct (trie_prefix_closed T _ _ _ Hv) as [b' Hb'].
  assert ((c, b') ∈ children n) as Hin
    by by apply (trie_child_elem T _ _ _ _ _ Hn Hlk).
  assert (∀ items, (∀ c b, (c, b) ∈ items → (b, w ++ [c]) ∈ L) →
    (c, b') ∈ items →
    find_in (find_path frames h target) w items = RecursionError) as Hloop.
  { induction items as [|[c1 b1] items IHi]; intros Hitems Hc.
    { by apply elem_of_nil in Hc. }
    simpl. apply elem_of_cons in Hc as [[= <- <-]|Hc].
    - rewrite (IH b' (w ++ [c]) b ((w ++ [c]) ++ k)); [done..| |].
      + by exists k.
      + rewrite !length_app in *. simpl in *. lia.
    - assert ((b1, w ++ [c1]) ∈ L) as Hb1 by (apply Hitems; left).
      destruct (find_path_cases frames b1 (w ++ [c1]) Hb1)
        as [->|[->|(u & -> & Hu)]]; simpl.
      + done.
      + apply IHi; [|done]. intros c2 b2 ?. apply Hitems. by right.
      + destruct Hout. apply list_elem_of_fmap. by exists (target, u). }
  apply Hloop; [|done].
  intros c' b''. by apply (trie_child_elem T _ _ _ _ _ Hn Hlk).
Qed.

Lemma get_path_to_node_in frames ac v :
  root ac = rt → (target, v) ∈ L →
  (∀ b u, (b, u) ∈ L → length u + 2 ≤ frames) →
  get_path_to_node frames h ac target = Returns (or_root v).
Proof using T.
  intros Hrt Hv Hroom. unfold get_path_to_node.
  destruct frames as [|frames]; [specialize (Hroom _ _ Hv); lia|].
  rewrite Hrt. case_decide as Ht.
  { subst target. by rewrite (proj1 (trie_root_word T _ _ Hv) eq_refl). }
  destruct (find_path_spec frames rt [] (trie_root_in T))
    as (r & -> & Hs & Hno).
  { intros b u Hu _. specialize (Hroom b u Hu). simpl. lia. }
  simpl. destruct r as [p|].
  - destruct (Hs p eq_refl) as [Hp _].
    rewrite (trie_word_unique T _ _ _ Hp Hv).
    destruct v; [|done]. destruct Ht. by apply (trie_root_word T _ _ Hv).
  - destruct (Hno eq_refl v Hv). apply prefix_nil.
Qed.

Lemma get_path_to_node_out frames ac :
  root ac = rt → target ∉ L.*1 →
  (∀ b u, (b, u) ∈ L → length u + 2 ≤ frames) →
  get_path_to_node frames h ac target = Returns UNKNOWN.
Proof using T.
  intros Hrt Hout Hroom. unfold get_path_to_node.
  destruct frames as [|frames]; [specialize (Hroom _ _ (trie_root_in T)); lia|].
  rewrite Hrt. case_decide as Ht.
  { destruct Hout. subst target. apply list_elem_of_fmap.
    exists (rt, []). split; [done|apply (trie_root_in T)]. }
  destruct (find_path_spec frames rt [] (trie_root_in T))
    as (r & -> & Hs & Hno).
  { intros b u Hu _. specialize (Hroom b u Hu). simpl. lia. }
  simpl. destruct r as [p|]; [|done].
  destruct (Hs p eq_refl) as [Hp _]. destruct Hout.
  apply list_elem_of_fmap. by exists (target, p).
Qed.

Lemma get_path_to_node_deep frames ac b u :
  root ac = rt → target ∉ L.*1 →
  (b, u) ∈ L → frames < length u + 2 →
  get_path_to_node frames h ac target = RecursionError.
Proof using T.
  intros Hrt Hout Hu Hdeep. unfold get_path_to_node.
  destruct frames as [|frames]; [done|].
  rewrite Hrt. case_decide as Ht.
  { destruct Hout. subst target. apply list_elem_of_fmap.
    exists (rt, []). split; [done|apply (trie_root_in T)]. }
  rewrite (find_path_deep frames rt [] b u Hout (trie_root_in T) Hu);
    [done|apply prefix_nil|simpl; lia].
Qed.

(** On a node of the trie the call returns or raises [RecursionError]. *)
Lemma get_path_to_node_cases frames ac :
  root ac = rt →
  get_path_to_node frames h ac target = RecursionError ∨
  ∃ p, get_path_to_node frames h ac target = Returns p.
Proof using T.
  intros Hrt. unfold get_path_to_node. destruct frames as [|frames]; [by left|].
  rewrite Hrt. case_decide; [right; by eexists|].
  destruct (find_path_cases frames rt [] (trie_root_in T))
    as [->|[->|(v & -> & _)]]; simpl; [by left|right; by eexists..].
Qed.
End find.

(** ** The snapshot *)

Lemma traverse_unfold frames h ac node path :
  traverse (S frames) h ac node path
  = n ← object h node;
    here ← match node_id n with
            | Some id => r ← record_of frames h ac n id path; Returns [r]
            | None => Returns []
            end;
    below ← traverse_in (traverse frames h ac) path
              (sorted_items (children n));
    Returns (here ++ below).
Proof.
  cbn [traverse]. destruct (object h node) as [n| |]; [|done..].
  cbn [mbind outcome_bind].
  destruct (match node_id n with
            | Some id => r ← record_of frames h ac n id path; Returns [r]
            | None => Returns []
            end) as [here| |]; [|done..]. cbn [mbind outcome_bind].
  f_equal. generalize (sorted_items (children n)).
  induction l as [|[c b] items IH]; [done|]. cbn [traverse_in].
  by rewrite <- IH.
Qed.

Lemma path_lt_app w u v : path_lt (w ++ u) (w ++ v) ↔ path_lt u v.
Proof.
  induction w as [|c w IH]; simpl; [done|]. rewrite IH.
  split; [intros [?|[_ ?]]; [lia|done]|by right].
Qed.

Lemma path_lt_extend w c k : path_lt w (w ++ c :: k).
Proof.
  rewrite <- (app_nil_r w) at 1. by apply path_lt_app.
Qed.

Lemma path_lt_branch w c d k1 k2 :
  nat_of_ascii c < nat_of_ascii d →
  path_lt ((w ++ [c]) ++ k1) ((w ++ [d]) ++ k2).
Proof.
  intros Hlt. rewrite <- !(assoc_L (++)). apply path_lt_app. simpl. by left.
Qed.

Global Instance item_le_trans : Transitive item_le.
Proof. unfold item_le. intros x y z. lia. Qed.

Global Instance item_le_total : Total item_le.
Proof. unfold item_le. intros x y. lia. Qed.

Lemma nat_of_ascii_inj c d : nat_of_ascii c = nat_of_ascii d → c = d.
Proof.
  intros H. rewrite <- (ascii_nat_embedding c), <- (ascii_nat_embedding d).
  by rewrite H.
Qed.

Lemma sorted_items_strict d :
  NoDup d.*1 → StronglySorted item_lt (sorted_items d).
Proof.
  intros Hnd. unfold sorted_items.
  pose proof (StronglySorted_merge_sort item_le d) as Hs.
  assert (NoDup (merge_sort item_le d).*1) as Hnd'.
  { by rewrite (merge_sort_Permutation item_le d). }
  induction Hs as [|x l Hs IH Hx]; [constructor|].
  rewrite fmap_cons in Hnd'. apply NoDup_cons in Hnd' as [Hnx Hnd'].
  constructor; [by apply IH|].
  rewrite Forall_forall in Hx |- *. intros y Hy.
  specialize (Hx y Hy). unfold item_le in Hx. unfold item_lt.
  destruct (decide (nat_of_ascii x.1 = nat_of_ascii y.1)) as [Heq|]; [|lia].
  destruct Hnx. apply nat_of_ascii_inj in Heq. rewrite Heq.
  by apply list_elem_of_fmap_2.
Qed.

Lemma path_lt_irrefl w : ¬ path_lt w w.
Proof.
  induction w as [|c w IH]; simpl; [by intros []|].
  intros [?|[_ ?]]; [lia|done].
Qed.

Lemma StronglySorted_path_lt_NoDup (l : list str) :
  StronglySorted path_lt l → NoDup l.
Proof.
  induction 1 as [|x l _ IH Hx]; constructor; [|done].
  intros Hin. rewrite Forall_forall in Hx.
  by apply (path_lt_irrefl x), Hx.
Qed.

(** The traversal of a trie of depth at most [d], when the record of a
    node can be made with [d + 2] calls left: the relation [R] says what
    the record of a node holds. *)
Section snapshot.
Context {h : heap} {ac : AhoCorasick} {L : labelling}.
Context (T : trie h (root ac) L).
Context (d : nat) (Hd : ∀ a w, (a, w) ∈ L → length w ≤ d).
Context (R : addr → str → link_record → Prop).
Context (HR : ∀ frames a w n id,
  (a, w) ∈ L → h !! a = Some n → node_id n = Some id → d + 2 ≤ frames →
  ∃ r, record_of frames h ac n id w = Returns r ∧ R a w r).

Local Abbreviation below := (below L).

Lemma traverse_run : ∀ frames a w,
  (a, w) ∈ L → 2 * d + 3 ≤ frames + length w →
  ∃ recs nodes,
    traverse frames h ac a w = Returns recs ∧ below w nodes ∧
    StronglySorted path_lt nodes.*2 ∧
    Forall2 (λ e r, R e.1 e.2 r) nodes recs.
Proof using T Hd HR.
  induction frames as [|frames IH]; intros a w Ha Hroom.
  { pose proof (Hd _ _ Ha). lia. }
  rewrite traverse_unfold.
  destruct (trie_lookup T _ _ Ha) as [n Hn].
  rewrite (object_lookup _ _ _ Hn). simpl.
  assert (∃ id, node_id n = Some id) as [id Hid].
  { apply list_elem_of_lookup in Ha as [i Hi].
    destruct (trie_ids _ _ _ T _ _ _ Hi) as (n' & Hn' & Hid).
    exists i. congruence. }
  rewrite Hid.
  destruct (HR frames a w n id Ha Hn Hid) as (r & -> & Hr).
  { pose proof (Hd _ _ Ha). lia. }
  simpl.
  assert (∀ items, StronglySorted item_lt items →
    (∀ c b, (c, b) ∈ items → (b, w ++ [c]) ∈ L) →
    ∃ recs nodes,
      traverse_in (traverse frames h ac) w items = Returns recs ∧
      (∀ b v, (b, v) ∈ nodes ↔
         (b, v) ∈ L ∧ ∃ c b', (c, b') ∈ items ∧ (w ++ [c]) `prefix_of` v) ∧
      StronglySorted path_lt nodes.*2 ∧
      Forall2 (λ e r, R e.1 e.2 r) nodes recs) as Hloop.
  { induction items as [|[c b] items IHi]; intros Hs Hitems; simpl.
    - exists [], []. split_and!; [done| |constructor|constructor].
      intros b v. split; [by intros ?%elem_of_nil|].
      by intros (_ & c & b' & ?%elem_of_nil & _).
    - apply StronglySorted_inv in Hs as [Hs Hc].
      destruct (IH b (w ++ [c])) as (r1 & nodes1 & -> & Hb1 & Hs1 & Hf1).
      { apply Hitems. left. }
      { rewrite length_app. simpl. lia. }
      destruct (IHi Hs) as (r2 & nodes2 & -> & Hb2 & Hs2 & Hf2).
      { intros c' b' Hin. apply Hitems. by right. }
      simpl. exists (r1 ++ r2), (nodes1 ++ nodes2).
      split_and!; [done| | |by apply Forall2_app].
      + intros b0 v. rewrite elem_of_app, (Hb1 b0 v), (Hb2 b0 v). split.
        * intros [[? ?]|(? & c' & b' & ? & ?)]; (split; [done|]).
          -- exists c, b. split; [left|done].
          -- exists c', b'. split; [by right|done].
        * intros (? & c' & b' & [[= -> ->]|?]%elem_of_cons & ?);
            [by left|right]. split; [done|]. by exists c', b'.
      + rewrite fmap_app. apply StronglySorted_app_2; [|done|done].
        intros v1 v2 ([b1 v1'] & -> & (_ & [k1 ->])%Hb1)%list_elem_of_fmap
          ([b2 v2'] & -> & (_ & c' & b' & Hin & [k2 ->])%Hb2)%list_elem_of_fmap.
        simpl. apply path_lt_branch.
        rewrite Forall_forall in Hc. apply (Hc _ Hin). }
  destruct (Hloop (sorted_items (children n)))
    as (recs & nodes & -> & Hb & Hs & Hf).
  { apply sorted_items_strict. by eapply (trie_keys_NoDup T). }
  { intros c b Hin. apply (trie_child_elem T _ _ _ _ _ Ha Hn).
    unfold sorted_items in Hin.
    by rewrite (merge_sort_Permutation item_le (children n)) in Hin. }
  simpl. exists (r :: recs), ((a, w) :: nodes).
  split_and!; [done| | |by constructor].
  - intros b v. rewrite elem_of_cons, (Hb b v). split.
    + intros [[= -> ->]|(? & c & b' & _ & Hpre)]; [done|].
      split; [done|]. etrans; [|done]. by apply prefix_app_r.
    + intros [Hv [k ->]]. destruct k as [|c k].
      * left. rewrite app_nil_r in *. f_equal.
        by eapply (trie_addr_unique T).
      * right. split; [done|].
        replace (w ++ c :: k) with ((w ++ [c]) ++ k) in *
          by by rewrite <- (assoc_L (++)).
        destruct (trie_prefix_closed T _ _ _ Hv) as [b' Hb'].
        exists c, b'. split; [|by exists k].
        unfold sorted_items.
        rewrite (merge_sort_Permutation item_le (children n)).
        by apply (trie_child_elem T _ _ _ _ _ Ha Hn).
  - rewrite fmap_cons. constructor; [done|]. simpl.
    apply Forall_forall.
    intros v ([b v'] & -> & (_ & c & b' & _ & [k ->])%Hb)%list_elem_of_fmap.
    simpl. rewrite <- (assoc_L (++)). apply path_lt_extend.
Qed.

(** The records come one per node, the root's first. *)
Lemma snapshot_nodes frames :
  2 * d + 4 ≤ frames →
  ∃ recs rest,
    get_failure_links_representation frames (h, ac) = Returns recs ∧
    (root ac, []) :: rest ≡ₚ L ∧
    StronglySorted path_lt ((root ac, []) :: rest).*2 ∧
    Forall2 (λ e r, R e.1 e.2 r) ((root ac, []) :: rest) recs.
Proof using T Hd HR.
  intros Hroom. destruct frames as [|frames]; [lia|]. simpl.
  destruct (traverse_run frames (root ac) [])
    as (recs & nodes & Hrun & Hbelow & Hs & Hf).
  { apply (trie_root_in T). }
  { simpl. lia. }
  assert (nodes ≡ₚ L) as Hperm.
  { apply NoDup_Permutation.
    - eapply NoDup_fmap_1, StronglySorted_path_lt_NoDup, Hs.
    - eapply NoDup_fmap_1, (trie_addrs _ _ _ T).
    - intros [a w]. rewrite (Hbelow a w).
      split; [by intros [? _]|]. intros ?. split; [done|apply prefix_nil]. }
  assert ((root ac, []) ∈ nodes) as Hin
    by (rewrite Hperm; apply (trie_root_in T)).
  destruct nodes as [|[a w] rest]; [by apply elem_of_nil in Hin|].
  assert ((a, w) = (root ac, [])) as E.
  { apply elem_of_cons in Hin as [?|Hin]; [done|]. exfalso.
    pose proof Hs as Hs'.
    rewrite fmap_cons in Hs'. apply StronglySorted_inv in Hs' as [_ Hlt].
    rewrite Forall_forall in Hlt.
    assert (path_lt w []) as Hbad.
    { apply Hlt. apply list_elem_of_fmap. by exists (root ac, []). }
    by destruct w. }
  rewrite E in *. by exists recs, rest.
Qed.

Lemma snapshot_record recs nodes r :
  Forall2 (λ e r, R e.1 e.2 r) nodes recs → nodes ≡ₚ L → r ∈ recs →
  ∃ a w, (a, w) ∈ L ∧ R a w r.
Proof.
  intros Hf Hperm [i Hi]%list_elem_of_lookup.
  destruct (Forall2_lookup_r _ _ _ _ _ Hf Hi) as ([a w] & He & Hr).
  exists a, w. split; [|done]. rewrite <- Hperm.
  by eapply list_elem_of_lookup_2.
Qed.

Lemma snapshot_node recs nodes a w :
  Forall2 (λ e r, R e.1 e.2 r) nodes recs → nodes ≡ₚ L → (a, w) ∈ L →
  ∃ r, r ∈ recs ∧ R a w r.
Proof.
  intros Hf Hperm Ha. rewrite <- Hperm in Ha.
  apply list_elem_of_lookup in Ha as [i Hi].
  destruct (Forall2_lookup_l _ _ _ _ _ Hf Hi) as (r & Hr & HR').
  exists r. split; [|done]. by eapply list_elem_of_lookup_2.
Qed.
End snapshot.

(** The records, and the traversal with too few calls left, when the
    failure links stay inside the trie. *)
Section records.
Context {h : heap} {ac : AhoCorasick} {L : labelling}.
Context (T : trie h (root ac) L) (Hin : links_inside h L).

Lemma linked_node a w n f :
  (a, w) ∈ L → h !! a = Some n → failure n = Some f →
  ∃ v fn, (f, v) ∈ L ∧ h !! f = Some fn.
Proof using T Hin.
  intros Ha Hn Hf.
  destruct (proj1 (list_elem_of_fmap _ _ _) (Hin a w n f Ha Hn Hf))
    as ([f' v] & -> & Hv). simpl.
  destruct (trie_lookup T _ _ Hv) as [fn Hfn]. by exists v, fn.
Qed.

Lemma record_of_any frames d a w n id :
  (∀ b u, (b, u) ∈ L → length u ≤ d) →
  (a, w) ∈ L → h !! a = Some n → node_id n = Some id → d + 2 ≤ frames →
  ∃ r, record_of frames h ac n id w = Returns r ∧ record_any h ac a w r.
Proof using T Hin.
  intros Hd Ha Hn Hid Hroom. unfold record_of, record_any.
  destruct (failure n) as [f|] eqn:Hf.
  - destruct (linked_node a w n f Ha Hn Hf) as (v & fn & Hv & Hfn).
    rewrite (get_path_to_node_in T f frames ac v eq_refl Hv).
    2:{ intros b u Hu. specialize (Hd b u Hu). lia. }
    simpl. rewrite (object_lookup _ _ _ Hfn). simpl.
    eexists. split; [done|]. exists n. simpl. rewrite Hf.
    split_and!; try done. exists fn, v. split_and!; [done..| |done].
    by apply (trie_walk_root T).
  - eexists. split; [done|]. exists n. simpl. by rewrite Hf.
Qed.

Lemma record_any_for a w r :
  record_any h ac a w r →
  (∀ n, h !! a = Some n → is_Some (failure n)) →
  record_for h ac a w r.
Proof.
  intros (n & Hn & Hid & Hp & He & Ho & Hfl) Hlinked.
  destruct (Hlinked n Hn) as [f Hf]. rewrite Hf in Hfl.
  destruct Hfl as (fn & v & Hfn & Hfid & Hv & Hfp).
  exists n, f, fn, v. by split_and!.
Qed.

Lemma record_of_cases frames a w n id :
  (a, w) ∈ L → h !! a = Some n →
  record_of frames h ac n id w = RecursionError ∨
  ∃ r, record_of frames h ac n id w = Returns r.
Proof using T Hin.
  intros Ha Hn. unfold record_of.
  destruct (failure n) as [f|] eqn:Hf; [|right; by eexists].
  destruct (get_path_to_node_cases T f frames ac eq_refl) as [->|[p ->]];
    simpl; [by left|].
  destruct (linked_node a w n f Ha Hn Hf) as (v & fn & Hv & Hfn).
  rewrite (object_lookup _ _ _ Hfn). simpl. right. by eexists.
Qed.

Lemma traverse_cases : ∀ frames a w,
  (a, w) ∈ L →
  traverse frames h ac a w = RecursionError ∨
  ∃ recs, traverse frames h ac a w = Returns recs.
Proof using T Hin.
  induction frames as [|frames IH]; intros a w Ha; [by left|].
  rewrite traverse_unfold.
  destruct (trie_lookup T _ _ Ha) as [n Hn].
  rewrite (object_lookup _ _ _ Hn). simpl.
  destruct (node_id n) as [id|].
  - destruct (record_of_cases frames a w n id Ha Hn) as [->|[r ->]];
      simpl; [by left|].
    assert (∀ items, (∀ c b, (c, b) ∈ items → (b, w ++ [c]) ∈ L) →
      traverse_in (traverse frames h ac) w items = RecursionError ∨
      ∃ recs, traverse_in (traverse frames h ac) w items = Returns recs)
      as Hloop.
    { induction items as [|[c b] items IHi]; intros Hitems; simpl.
      { right. by eexists. }
      destruct (IH b (w ++ [c])) as [->|[r1 ->]]; simpl; [|by left|].
      { apply Hitems. left. }
      destruct IHi as [->|[r2 ->]]; simpl; [|by left|right; by eexists].
      intros c' b' ?. apply Hitems. by right. }
    destruct (Hloop (sorted_items (children n))) as [->|[recs ->]];
      simpl; [|by left|right; by eexists].
    intros c b Hc. apply (trie_child_elem T _ _ _ _ _ Ha Hn).
    unfold sorted_items in Hc.
    by rewrite (merge_sort_Permutation item_le (children n)) in Hc.
  - simpl.
    assert (∀ items, (∀ c b, (c, b) ∈ items → (b, w ++ [c]) ∈ L) →
      traverse_in (traverse frames h ac) w items = RecursionError ∨
      ∃ recs, traverse_in (traverse frames h ac) w items = Returns recs)
      as Hloop.
    { induction items as [|[c b] items IHi]; intros Hitems; simpl.
      { right. by eexists. }
      destruct (IH b (w ++ [c])) as [->|[r1 ->]]; simpl; [|by left|].
      { apply Hitems. left. }
      destruct IHi as [->|[r2 ->]]; simpl; [|by left|right; by eexists].
      intros c' b' ?. apply Hitems. by right. }
    destruct (Hloop (sorted_items (children n))) as [->|[recs ->]];
      simpl; [|by left|right; by eexists].
    intros c b Hc. apply (trie_child_elem T _ _ _ _ _ Ha Hn).
    unfold sorted_items in Hc.
    by rewrite (merge_sort_Permutation item_le (children n)) in Hc.
Qed.

(** The traversal reaches every node below the one it starts from, unless
    it has raised before: with a node further down than there are calls
    left, it raises. *)
Lemma traverse_deep : ∀ frames a w b v,
  (a, w) ∈ L → (b, v) ∈ L → w `prefix_of` v →
  frames + length w ≤ length v →
  traverse frames h ac a w = RecursionError.
Proof using T Hin.
  induction frames as [|frames IH]; intros a w b v Ha Hv Hpre Hdeep; [done|].
  rewrite traverse_unfold.
  destruct (trie_lookup T _ _ Ha) as [n Hn].
  rewrite (object_lookup _ _ _ Hn). simpl.
  assert (∃ id, node_id n = Some id) as [id Hid].
  { apply list_elem_of_lookup in Ha as [i Hi].
    destruct (trie_ids _ _ _ T _ _ _ Hi) as (n' & Hn' & Hid).
    exists i. congruence. }
  rewrite Hid.
  destruct (record_of_cases frames a w n id Ha Hn) as [->|[r ->]];
    simpl; [done|].
  destruct Hpre as [k ->]. destruct k as [|c k].
  { rewrite app_nil_r in Hdeep. lia. }
  replace (w ++ c :: k) with ((w ++ [c]) ++ k) in *
    by by rewrite <- (assoc_L (++)).
  destruct (trie_prefix_closed T _ _ _ Hv) as [b' Hb'].
  assert (∀ items, (∀ c b, (c, b) ∈ items → (b, w ++ [c]) ∈ L) →
    (c, b') ∈ items →
    traverse_in (traverse frames h ac) w items = RecursionError) as Hloop.
  { induction items as [|[c1 b1] items IHi]; intros Hitems Hc.
    { by apply elem_of_nil in Hc. }
    simpl. apply elem_of_cons in Hc as [[= <- <-]|Hc].
    - rewrite (IH b' (w ++ [c]) b ((w ++ [c]) ++ k)); [done..| |].
      + by exists k.
      + rewrite !length_app in *. simpl in *. lia.
    - destruct (traverse_cases frames b1 (w ++ [c1])) as [->|[r1 ->]];
        simpl; [|done|].
      { apply Hitems. left. }
      rewrite IHi; [done| |done]. intros c2 b2 ?. apply Hitems. by right. }
  rewrite Hloop; [done| |].
  - intros c' b'' Hc. apply (trie_child_elem T _ _ _ _ _ Ha Hn).
    unfold sorted_items in Hc.
    by rewrite (merge_sort_Permutation item_le (children n)) in Hc.
  - unfold sorted_items.
    rewrite (merge_sort_Permutation item_le (children n)).
    by apply (trie_child_elem T _ _ _ _ _ Ha Hn).
Qed.

Lemma snapshot_deep frames b v :
  (b, v) ∈ L → frames < length v + 2 →
  get_failure_links_representation frames (h, ac) = RecursionError.
Proof using T Hin.
  intros Hv Hdeep. simpl. destruct frames as [|frames]; [done|].
  apply (traverse_deep frames (root ac) [] b v);
    [apply (trie_root_in T)|done|apply prefix_nil|simpl; lia].
Qed.

(** With [2 * length w + 4] calls left for every path [w], the snapshot
    returns the records of the nodes. *)
Lemma snapshot_any frames :
  (∀ a w, (a, w) ∈ L → 2 * length w + 4 ≤ frames) →
  ∃ recs rest,
    get_failure_links_representation frames (h, ac) = Returns recs ∧
    (root ac, []) :: rest ≡ₚ L ∧
    StronglySorted path_lt ((root ac, []) :: rest).*2 ∧
    Forall2 (λ e r, record_any h ac e.1 e.2 r) ((root ac, []) :: rest) recs.
Proof using T Hin.
  intros Hroom. pose proof (Hroom _ _ (trie_root_in T)) as H0. simpl in H0.
  assert (∀ a w, (a, w) ∈ L → length w ≤ (frames - 4) / 2) as Hd.
  { intros a w Ha. specialize (Hroom a w Ha).
    apply Nat.div_le_lower_bound; lia. }
  apply (snapshot_nodes T ((frames - 4) / 2) Hd (record_any h ac)).
  - intros fr a w n id Ha Hn Hid Hfr.
    by apply (record_of_any fr ((frames - 4) / 2)).
  - pose proof (Nat.Div0.mul_div_le (frames - 4) 2). lia.
Qed.
End records.

(** The links of a built automaton stay inside the trie, and no node is
    without one. *)
Lemma built_links_inside h ac L h' :
  automaton_inv h ac L → links_built h (root ac) L h' →
  links_inside h' L ∧
  ∀ a w n, (a, w) ∈ L → h' !! a = Some n → is_Some (failure n).
Proof.
  intros I B. pose proof (built_trie B) as T.
  assert (∀ a w n, (a, w) ∈ L → h' !! a = Some n →
    ∃ f, failure n = Some f ∧ f ∈ L.*1) as Hl.
  { intros a w n Ha Hn. destruct (decide (w = [])) as [->|Hne].
    - assert (a = root ac) as -> by by apply (trie_root_word T _ _ Ha).
      destruct (ai_root _ _ _ I) as (r & Hr & Hfr).
      rewrite <- (built_root B) in Hr. exists (root ac).
      split; [congruence|]. apply list_elem_of_fmap. by exists (root ac, []).
    - destruct (built_link B a w Ha Hne) as (n' & b & v & Hn' & Hb' & Hv & _).
      exists b. split; [congruence|]. apply list_elem_of_fmap. by exists (b, v). }
  split.
  - intros a w n f Ha Hn Hf. destruct (Hl a w n Ha Hn) as (f' & Hf' & ?).
    congruence.
  - intros a w n Ha Hn. destruct (Hl a w n Ha Hn) as (f & Hf & _). by exists f.
Qed.

(** The snapshot of a built automaton. *)
Lemma built_snapshot h ac L h' frames :
  automaton_inv h ac L → links_built h (root ac) L h' →
  (∀ a w, (a, w) ∈ L → 2 * length w + 4 ≤ frames) →
  ∃ recs rest,
    get_failure_links_representation frames (h', ac) = Returns recs ∧
    (root ac, []) :: rest ≡ₚ L ∧
    StronglySorted path_lt ((root ac, []) :: rest).*2 ∧
    Forall2 (λ e r, record_for h' ac e.1 e.2 r) ((root ac, []) :: rest) recs.
Proof.
  intros I B Hroom. pose proof (built_trie B) as T.
  destruct (built_links_inside h ac L h' I B) as [Hin Hlinked].
  destruct (snapshot_any T Hin frames Hroom)
    as (recs & rest & Hrun & Hperm & Hs & Hf).
  exists recs, rest. split_and!; [done..|].
  assert (∀ e, e ∈ (root ac, []) :: rest → e ∈ L) as Hsub
    by (intros e He; by rewrite <- Hperm).
  clear Hperm Hs Hrun. revert Hsub.
  induction Hf as [|[a w] r nodes recs Hr _ IH]; intros Hsub; constructor.
  - simpl in *. apply (record_any_for _ _ _ Hr). intros n Hn.
    apply (Hlinked a w n); [|done]. apply Hsub. left.
  - apply IH. intros e He. apply Hsub. by right.
Qed.

(** With a pattern longer than the calls left, the snapshot of the
    automaton the script builds raises. *)
Lemma build_snapshot_deep h0 ps frames :
  Exists (λ p, frames < length p + 2) ps →
  ∃ s, build h0 ps = Some s ∧
       get_failure_links_representation frames s = RecursionError.
Proof.
  intros (p & Hp & Hdeep)%Exists_exists.
  destruct (build_spec h0 ps)
    as (h & ac & L & h' & _ & Hb & _ & I & _ & HW & B & _).
  destruct (built_links_inside h ac L h' I B) as [Hin _].
  destruct (words_pattern ps L p HW Hp) as [a Ha].
  exists (h', ac). split; [done|].
  by apply (snapshot_deep (built_trie B) Hin frames a p).
Qed.

(** * The claims *)

(** ** C1: inserting the empty pattern *)

(** C1, as the code has it. [add_pattern("")] does not fail: whenever the
    root is a live object the call returns, creates no node, leaves the
    counter alone, and rewrites the root to be terminal with the empty
    pattern appended to its output. *)
Theorem add_pattern_empty (h : heap) (ac : AhoCorasick) (r : TrieNode) :
  h !! root ac = Some r →
  add_pattern [] (h, ac)
  = Some (<[root ac := mkTrieNode (children r) true (failure r)
                         (output r ++ [[]]) (node_id r)]> h, ac).
Proof.
  intros Hr. unfold add_pattern. simpl. rewrite Hr. simpl.
  destruct ac as [rt cnt]. simpl in *. f_equal. f_equal.
  apply list_eq. intros a. destruct (decide (a = rt)) as [->|Hne].
  - rewrite !list_lookup_alter_eq, Hr.
    rewrite list_lookup_insert_eq by by eapply lookup_lt_Some. done.
  - rewrite !list_lookup_alter_ne by done.
    by rewrite list_lookup_insert_ne.
Qed.

Lemma add_pattern_empty_witness :
  let s := AhoCorasick_new [] in
  s.1 !! root s.2 = Some (mkTrieNode [] false (Some 0) [] (Some 0)) ∧
  add_pattern [] s
  = Some (<[root s.2 := mkTrieNode [] true (Some 0) [[]] (Some 0)]> s.1, s.2).
Proof.
  split; [reflexivity|].
  exact (add_pattern_empty (AhoCorasick_new []).1 (AhoCorasick_new []).2
           (mkTrieNode [] false (Some 0) [] (Some 0)) eq_refl).
Defined.

(** C1 fails on the code: on the automaton holding "he", inserting the empty
    pattern returns normally and turns the root from non-terminal with empty
    output into a terminal node with output [""]. *)
Lemma add_pattern_empty_counterexample :
  ∃ h ac h' ac' r r',
    automaton [] [lit "he"] = Some (h, ac) ∧
    add_pattern [] (h, ac) = Some (h', ac') ∧
    h !! root ac = Some r ∧ is_end r = false ∧ output r = [] ∧
    h' !! root ac' = Some r' ∧ is_end r' = true ∧ output r' = [[]].
Proof.
  eexists _, _, _, _, _, _. vm_compute. by split_and!.
Qed.

(** ** C2: building the links a second time *)

(** C2, as the code has it. A second call of [build_failure_links] is not
    rejected: it returns, leaves the automaton and every node's failure
    link as the first call left them, and only appends to the output lists,
    patterns that the list already holds: each output keeps its patterns as
    members, but the stored lists are not kept equal. *)
Theorem rebuild_keeps_links (h0 : heap) (patterns : list str) :
  ∃ h1 ac h2,
    build h0 patterns = Some (h1, ac) ∧
    build_failure_links (h1, ac) = Some (h2, ac) ∧
    ∀ a, field failure h2 a = field failure h1 a ∧
         out_of h1 a `prefix_of` out_of h2 a ∧
         ∀ p, p ∈ out_of h2 a ↔ p ∈ out_of h1 a.
Proof.
  destruct (build_spec h0 patterns)
    as (h & ac & L & h1 & _ & Hb & _ & I & _ & _ & B1 & _).
  destruct (build_failure_links_correct h1 (root ac) L (built_trie B1) ac eq_refl)
    as (h2 & Hb2 & B2).
  exists h1, ac, h2. split_and!; [done..|]. intros a. split_and!.
  - apply (rebuild_failure B1 B2 (ai_root _ _ _ I)).
  - apply (rebuild_prefix B1 B2).
  - intros p. apply (rebuild_output_all B1 B2 (ai_root _ _ _ I)).
Qed.

(** C2 fails on the code: with "he" and "she", a second call returns
    normally and leaves the node at "she" with output ["she"; "he"; "he"]
    where the first call had left ["she"; "he"]. *)
Lemma rebuild_counterexample :
  ∃ h1 ac h2 ac' she,
    build [] [lit "he"; lit "she"] = Some (h1, ac) ∧
    build_failure_links (h1, ac) = Some (h2, ac') ∧
    walk h1 (root ac) (lit "she") = Some she ∧
    field output h1 she = Some [lit "she"; lit "he"] ∧
    field output h2 she = Some [lit "she"; lit "he"; lit "he"] ∧
    field output h2 she ≠ field output h1 she.
Proof.
  eexists _, _, _, _, _. vm_compute. by split_and!.
Qed.

(** ** C3: the path to a node of another trie *)


Lemma foreign_not_in_new_trie :
  let s := AhoCorasick_new [TrieNode_new] in
  ∀ w, walk s.1 (root s.2) w ≠ Some 0.
Proof. intros s [|c w]; by vm_compute. Defined.

Lemma new_trie_depth :
  let s := AhoCorasick_new [TrieNode_new] in
  ∀ w n, walk s.1 (root s.2) w = Some n → length w + 2 ≤ 1000.
Proof. intros s [|c w] n Hw; [simpl; lia|by vm_compute in Hw]. Defined.



(** ** C4: the root loops to itself and links go strictly up *)

(** C4. After the script has run on non-empty patterns, the root's failure
    link is the root, and the failure link of the node at a non-empty path
    [w] is a node of the trie at a path strictly shorter than [w]. *)
Theorem depth_monotonicity (h0 : heap) (patterns : list str) :
  Forall (λ p, p ≠ []) patterns →
  ∃ h ac, build h0 patterns = Some (h, ac) ∧
    field failure h (root ac) = Some (Some (root ac)) ∧
    ∀ w n, w ≠ [] → walk h (root ac) w = Some n →
      ∃ m v, field failure h n = Some (Some m) ∧
             walk h (root ac) v = Some m ∧ length v < length w.
Proof.
  intros _.
  destruct (build_spec h0 patterns)
    as (h & ac & L & h' & _ & Hb & _ & I & _ & _ & B & _).
  exists h', ac. split; [done|]. split.
  - unfold field. rewrite (built_root B).
    destruct (ai_root _ _ _ I) as (r & -> & Hf). simpl. by rewrite Hf.
  - intros w n Hne Hw.
    apply (trie_walk_root (built_trie B)) in Hw.
    destruct (built_link B n w Hw Hne) as (nd & b & v & Hn & Hf & Hb' & Hlen).
    exists b, v. unfold field. rewrite Hn. simpl. rewrite Hf.
    split; [done|]. split; [|done].
    by apply (trie_walk_root (built_trie B)).
Qed.

Lemma ex_patterns_nonempty : Forall (λ p : str, p ≠ []) ex_patterns.
Proof. unfold ex_patterns. repeat constructor; by vm_compute. Defined.

Lemma depth_monotonicity_witness :
  Forall (λ p : str, p ≠ []) ex_patterns ∧
  ∃ h ac, build [] ex_patterns = Some (h, ac) ∧
    field failure h (root ac) = Some (Some (root ac)) ∧
    ∀ w n, w ≠ [] → walk h (root ac) w = Some n →
      ∃ m v, field failure h n = Some (Some m) ∧
             walk h (root ac) v = Some m ∧ length v < length w.
Proof.
  split; [exact ex_patterns_nonempty|].
  exact (depth_monotonicity [] ex_patterns ex_patterns_nonempty).
Defined.

(** ** C5: a node's output contains its failure node's output *)

(** C5. After the script has run on non-empty patterns, every node of the
    trie has a failure node, and each pattern in the failure node's output
    is in the node's own output. *)
Theorem output_superset (h0 : heap) (patterns : list str) :
  Forall (λ p, p ≠ []) patterns →
  ∃ h ac, build h0 patterns = Some (h, ac) ∧
    ∀ w n, walk h (root ac) w = Some n →
      ∃ nd f fd, h !! n = Some nd ∧ failure nd = Some f ∧ h !! f = Some fd ∧
                 ∀ p, p ∈ output fd → p ∈ output nd.
Proof.
  intros Hne.
  destruct (build_spec h0 patterns)
    as (h & ac & L & h' & _ & Hb & _ & I & _ & _ & B & Hroot).
  destruct (Hroot Hne) as (r & Hr & _ & Hout).
  exists h', ac. split; [done|]. intros w n Hw.
  apply (trie_walk_root (built_trie B)) in Hw.
  induction w as [|c u _] using rev_ind.
  - assert (n = root ac) as ->
      by by apply (trie_root_word (built_trie B) _ _ Hw).
    destruct (ai_root _ _ _ I) as (r' & Hr' & Hf).
    exists r', (root ac), r'. rewrite (built_root B). by split_and!.
  - destruct B as (T & Hu & Hl).
    destruct (trie_closed _ _ _ T _ _ _ Hw) as [p Hp].
    destruct (Hl n p u c Hw Hp) as (nd & b & v & Hn & Hf & Hb' & _ & H1 & H2).
    destruct (decide (u = [])) as [->|Hu'].
    + destruct (H1 eq_refl) as [-> _].
      exists nd, (root ac), r.
      rewrite (built_root (conj T (conj Hu Hl))), Hr, Hout.
      split_and!; [done..|]. by intros p' ?%elem_of_nil.
    + destruct (H2 Hu') as (_ & nb & Hnb & Hout').
      exists nd, b, nb. split_and!; [done..|].
      intros p' Hp'. rewrite Hout'. apply elem_of_app. by right.
Qed.

Lemma output_superset_witness :
  Forall (λ p : str, p ≠ []) ex_patterns ∧
  ∃ h ac, build [] ex_patterns = Some (h, ac) ∧
    ∀ w n, walk h (root ac) w = Some n →
      ∃ nd f fd, h !! n = Some nd ∧ failure nd = Some f ∧ h !! f = Some fd ∧
                 ∀ p, p ∈ output fd → p ∈ output nd.
Proof.
  split; [exact ex_patterns_nonempty|].
  exact (output_superset [] ex_patterns ex_patterns_nonempty).
Defined.

(** ** C6: the automaton depends on the patterns only *)

(** C6. Running the script twice on the same patterns, in whatever stores,
    gives automatons that agree at every path: a node exists at the path in
    one exactly when it does in the other, and then the two nodes have the
    same id, the same children keys in the same order, and failure nodes
    with the same id. *)
Theorem build_deterministic (h1 h2 : heap) (patterns : list str) :
  ∃ s1 s2,
    build h1 patterns = Some s1 ∧ build h2 patterns = Some s2 ∧
    ∀ path, node_view s1 path = node_view s2 path.
Proof.
  destruct (build_spec h1 patterns)
    as (hA & acA & LA & hA' & _ & HbA & _ & IA & _ & HwA & BA & _).
  destruct (build_spec h2 patterns)
    as (hB & acB & LB & hB' & _ & HbB & _ & IB & _ & HwB & BB & _).
  exists (hA', acA), (hB', acB). split_and!; [done..|].
  assert (LA.*2 = LB.*2) as Hwords by congruence.
  pose proof (built_trie BA) as TA. pose proof (built_trie BB) as TB.
  intros path. unfold node_view.
  destruct (same_words_walk TA TB Hwords path)
    as [(a & b & -> & -> & Ha & Hb)|[-> ->]]; [|done]. simpl.
  destruct (links_same BA BB (ai_root _ _ _ IA) (ai_root _ _ _ IB) Hwords
              a b path Ha Hb)
    as (na & nb & fa & fb & Hna & Hnb & Hfa & Hfb & v & Hva & Hvb).
  rewrite Hna, Hnb. simpl. rewrite Hfa, Hfb. simpl.
  destruct (same_words_id TA TB Hwords a b path Ha Hb)
    as (na' & nb' & Hna' & Hnb' & Hid).
  assert (na' = na) as -> by congruence.
  assert (nb' = nb) as -> by congruence.
  destruct (same_words_id TA TB Hwords fa fb v Hva Hvb)
    as (nfa & nfb & -> & -> & Hfid). simpl.
  rewrite Hid, Hfid.
  by rewrite (same_words_keys TA TB Hwords a b path na nb Ha Hb Hna Hnb).
Qed.

(** ** C7: the rule every link obeys *)

(** C7. After the script has run, the failure link of the child of
    [current] for a character is the node the rule of steps 2a-2d yields in
    the final store: start at [current]'s failure node, follow failure
    links while the candidate is not the root and has no child for the
    character, take that child if it exists and is not [child] itself, and
    the root otherwise.  And no node but the root is its own failure
    link. *)
Theorem failure_link_rule (h0 : heap) (patterns : list str) :
  ∃ h ac, build h0 patterns = Some (h, ac) ∧
    (∀ u c current child,
       walk h (root ac) u = Some current →
       walk h (root ac) (u ++ [c]) = Some child →
       ∃ link, field failure h child = Some (Some link) ∧
               spec_link h (root ac) current c child link) ∧
    (∀ w n, walk h (root ac) w = Some n →
       field failure h n = Some (Some n) → n = root ac).
Proof.
  destruct (build_spec h0 patterns)
    as (h & ac & L & h' & _ & Hb & _ & I & _ & _ & B & _).
  pose proof (built_trie B) as T.
  exists h', ac. split; [done|]. split.
  - intros u c current child Hcur%(trie_walk_root T) Hch%(trie_walk_root T).
    destruct (built_target B (ai_root _ _ _ I) child current u c Hch Hcur)
      as (n & b & Hn & Hf & Ht).
    exists b. unfold field. rewrite Hn. simpl. rewrite Hf. split; [done|].
    apply failure_target_spec; [|done].
    rewrite (built_root B). destruct (ai_root _ _ _ I) as (r & -> & _). done.
  - intros w n Hw%(trie_walk_root T) Hf.
    destruct (decide (w = [])) as [->|Hne].
    { by apply (trie_root_word T _ _ Hw). }
    destruct (built_link B n w Hw Hne) as (nd & b & v & Hn & Hf' & Hb' & Hlen).
    unfold field in Hf. rewrite Hn in Hf. simpl in Hf.
    assert (b = n) as -> by congruence.
    rewrite (trie_word_unique T _ _ _ Hb' Hw) in Hlen. lia.
Qed.

(** ** C8: the automaton of "he", "she", "his" *)

(** C8. With the patterns "he", "she", "his" inserted in that order into a
    fresh automaton and the links built, the node at path "he" is terminal
    with output ["he"], and the node at path "she" has the node at "he" as
    its failure link and output ["she"; "he"]. *)
Theorem scenario_he_she_his :
  ∃ h ac he she,
    build [] [lit "he"; lit "she"; lit "his"] = Some (h, ac) ∧
    walk h (root ac) (lit "he") = Some he ∧
    walk h (root ac) (lit "she") = Some she ∧
    field is_end h he = Some true ∧
    field output h he = Some [lit "he"] ∧
    field failure h she = Some (Some he) ∧
    field output h she = Some [lit "she"; lit "he"].
Proof.
  eexists _, _, _, _. vm_compute. by split_and!.
Qed.

(** ** C9: the snapshot *)




(** ** C10: what the pass leaves alone *)

(** C10. In every state of an automaton [build_failure_links] returns, and
    it has rewritten only [failure] and [output]: the automaton's [root] and
    [node_counter] are what they were, no object was created, and every
    object has the [children], [is_end] and [node_id] it had before. *)
Theorem build_failure_links_frame (s : state) :
  reachable s →
  ∃ s', build_failure_links s = Some s' ∧
    node_counter s'.2 = node_counter s.2 ∧ root s'.2 = root s.2 ∧
    length s'.1 = length s.1 ∧
    ∀ a, field children s'.1 a = field children s.1 a ∧
         field is_end s'.1 a = field is_end s.1 a ∧
         field node_id s'.1 a = field node_id s.1 a.
Proof.
  intros [[h' ac'] Hb]%build_failure_links_total. destruct s as [h ac].
  exists (h', ac'). split; [done|].
  apply build_failure_links_shape in Hb as [-> [Hlen Hs]]. by split_and!.
Qed.

Lemma ex_automaton_reachable :
  ∃ s, automaton [] ex_patterns = Some s ∧ reachable s.
Proof.
  destruct (automaton [] ex_patterns) as [s|] eqn:E; [|by vm_compute in E].
  exists s. split; [done|]. by eapply automaton_reachable.
Defined.

Lemma build_failure_links_frame_witness :
  ∃ s, automaton [] ex_patterns = Some s ∧ reachable s ∧
  ∃ s', build_failure_links s = Some s' ∧
    node_counter s'.2 = node_counter s.2 ∧ root s'.2 = root s.2 ∧
    length s'.1 = length s.1 ∧
    ∀ a, field children s'.1 a = field children s.1 a ∧
         field is_end s'.1 a = field is_end s.1 a ∧
         field node_id s'.1 a = field node_id s.1 a.
Proof.
  destruct ex_automaton_reachable as (s & E & Hr).
  exists s. split; [done|]. split; [done|].
  exact (build_failure_links_frame s Hr).
Defined.

(** * Further properties *)

(** ** Paths and the shape of the store *)

Lemma walk_same_shape h h' : same_shape h h' →
  ∀ w a, walk h' a w = walk h a w.
Proof.
  intros [_ Hs]. induction w as [|c w IH]; intros a; simpl; [done|].
  destruct (Hs a) as (Hc & _ & _).
  destruct (h !! a) as [n|], (h' !! a) as [n'|]; simpl in *; try done.
  injection Hc as ->. destruct (dict_get c (children n)); simpl; [apply IH|done].
Qed.

(** ** Insertion, node by node *)

Lemma add_chars_data pat : ∀ h cnt node h' cnt' node',
  add_chars pat h cnt node = Some (h', cnt', node') →
  same_data h h' ∧ length h ≤ length h' ∧
  ∀ a n, length h ≤ a → h' !! a = Some n → fresh_node n.
Proof.
  induction pat as [|c pat IH]; intros h cnt node h' cnt' node' H; simpl in H.
  { injection H as <- <- <-. split_and!; [apply same_data_refl|done|].
    intros a n Ha Hn. apply lookup_lt_Some in Hn. lia. }
  destruct (h !! node) as [nd|] eqn:Hnd; [|done]. simpl in H.
  destruct (dict_get c (children nd)) as [child|]; [by eapply IH|].
  pose proof (lookup_lt_Some _ _ _ Hnd) as Hlt.
  apply IH in H as (Hd & Hlen & Hfresh).
  rewrite !length_alter, length_app in Hlen. simpl in Hlen.
  set (h3 := alter (set_node_id (Some cnt)) (length h)
               (alter (λ n, set_children (children n ++ [(c, length h)]) n)
                  node (h ++ [TrieNode_new]))) in *.
  assert (h3 !! length h = Some (set_node_id (Some cnt) TrieNode_new)) as Hnew.
  { unfold h3. rewrite list_lookup_alter_eq, list_lookup_alter_ne by lia.
    by rewrite list_lookup_middle. }
  split_and!; [|lia|].
  - eapply same_data_trans; [|done]. intros a n Hn.
    pose proof (lookup_lt_Some _ _ _ Hn). unfold h3.
    rewrite list_lookup_alter_ne by lia.
    destruct (decide (node = a)) as [->|Hne].
    + rewrite list_lookup_alter_eq, (lookup_app_l_Some _ _ _ _ Hn). eauto 10.
    + rewrite list_lookup_alter_ne, (lookup_app_l_Some _ _ _ _ Hn) by done.
      eauto 10.
  - intros a n Ha Hn. destruct (decide (a = length h)) as [->|Hne].
    + destruct (Hd _ _ Hnew) as (n' & Hn' & ? & ? & ? & _).
      assert (n' = n) as -> by congruence. by split_and!.
    + apply (Hfresh a n); [|done]. unfold h3.
      rewrite !length_alter, length_app. simpl. lia.
Qed.

(** [add_chars_spec], with the labelling it builds made explicit. *)
Lemma add_chars_grow pat : ∀ h cnt node w L rt,
  trie h rt L → cnt = length L → (node, w) ∈ L →
  ∃ h' Ln node',
    add_chars pat h cnt node = Some (h', length (L ++ Ln), node') ∧
    trie h' rt (L ++ Ln) ∧ (node', w ++ pat) ∈ L ++ Ln ∧
    (L ++ Ln).*2 = add_words pat w L.*2 ∧
    length Ln ≤ length pat ∧
    ∀ a v, (a, v) ∈ Ln → length h ≤ a.
Proof.
  induction pat as [|c pat IH]; intros h cnt node w L rt T -> Hnode; simpl.
  - exists h, [], node. rewrite !app_nil_r.
    split_and!; [done..|]. by intros a v ?%elem_of_nil.
  - destruct (trie_lookup T _ _ Hnode) as [n Hn]. rewrite Hn. simpl.
    replace (w ++ c :: pat) with ((w ++ [c]) ++ pat)
      by by rewrite <- (assoc_L (++)).
    destruct (dict_get c (children n)) as [child|] eqn:E.
    + apply (trie_child_get T _ _ _ _ _ Hnode Hn) in E.
      rewrite decide_True
        by (apply list_elem_of_fmap; by exists (child, w ++ [c])).
      destruct (IH h (length L) child (w ++ [c]) L rt T eq_refl E)
        as (h' & Ln & node' & ? & ? & ? & ? & ? & ?).
      exists h', Ln, node'. split_and!; [done..|lia|done].
    + apply (trie_child_get_None T _ _ _ _ Hnode Hn) in E.
      rewrite decide_False by done.
      pose proof (trie_extend T node w c Hnode E) as T'.
      edestruct (IH _ (S (length L)) (length h) (w ++ [c]) _ rt T')
        as (h' & Ln & node' & Hrun & T'' & Hin & Hw & Hlen & Hge).
      { rewrite length_app. simpl. lia. }
      { apply elem_of_app. right. by apply list_elem_of_singleton. }
      exists h', ((length h, w ++ [c]) :: Ln), node'.
      rewrite (cons_middle _ L Ln), !(assoc_L (++)).
      split_and!; [done|done|done| |simpl; lia|].
      * rewrite Hw, fmap_app. done.
      * intros a v [[= -> ->]|Ha%Hge]%elem_of_cons; [done|].
        rewrite !length_alter, length_app in Ha. simpl in Ha. lia.
Qed.

Lemma add_pattern_grow pat h ac L :
  trie h (root ac) L → node_counter ac = length L →
  ∃ h1 Ln node,
    add_pattern pat (h, ac)
    = Some (alter (λ n, set_output (output n ++ [pat]) n) node
              (alter (set_is_end true) node h1),
            mkAhoCorasick (root ac) (length (L ++ Ln))) ∧
    trie h1 (root ac) (L ++ Ln) ∧ (node, pat) ∈ L ++ Ln ∧
    (L ++ Ln).*2 = add_words pat [] L.*2 ∧ length Ln ≤ length pat ∧
    same_data h h1 ∧
    ∀ a v, (a, v) ∈ Ln → ∃ n, h1 !! a = Some n ∧ fresh_node n.
Proof.
  intros T Hc.
  destruct (add_chars_grow pat h _ (root ac) [] L (root ac) T Hc
              (trie_root_in T))
    as (h1 & Ln & node & Hrun & T1 & Hin & Hw & Hlen & Hge).
  destruct (add_chars_data _ _ _ _ _ _ _ Hrun) as (Hd & _ & Hfresh).
  exists h1, Ln, node. simpl in Hin. unfold add_pattern. rewrite Hrun. simpl.
  destruct (trie_lookup T1 _ _ Hin) as [n1 Hn1]. rewrite Hn1. simpl.
  split_and!; try done.
  intros a v Ha.
  destruct (trie_lookup T1 a v) as [n Hn]; [apply elem_of_app; by right|].
  exists n. split; [done|]. eapply Hfresh; [|done]. by eapply Hge.
Qed.

Lemma filter_eq_snoc (ps : list str) (p w : str) :
  filter (λ q, q = w) (ps ++ [p])
  = filter (λ q, q = w) ps ++ (if decide (p = w) then [p] else []).
Proof.
  rewrite filter_app. by f_equal.
Qed.

Lemma filter_eq_nil (ps : list str) (w : str) :
  w ∉ ps → filter (λ q, q = w) ps = [].
Proof.
  intros Hw. induction ps as [|p ps IH]; [done|].
  apply not_elem_of_cons in Hw as [Hne Hw].
  rewrite filter_cons_False by done. by apply IH.
Qed.

Lemma add_pattern_content pat h ac L ps :
  automaton_inv h ac L → content h (root ac) L ps →
  (∀ p, p ∈ ps → p ∈ L.*2) →
  ∃ h' ac' Ln,
    add_pattern pat (h, ac) = Some (h', ac') ∧
    automaton_inv h' ac' (L ++ Ln) ∧ root ac' = root ac ∧
    (L ++ Ln).*2 = add_words pat [] L.*2 ∧ length Ln ≤ length pat ∧
    content h' (root ac) (L ++ Ln) (ps ++ [pat]) ∧
    (∀ p, p ∈ ps ++ [pat] → p ∈ (L ++ Ln).*2) ∧
    (∀ a v, (a, v) ∈ Ln → ∃ n, h' !! a = Some n ∧ failure n = None).
Proof.
  intros [T Hc (r & Hr & Hfr)] Hcont Hps.
  destruct (add_pattern_grow pat h ac L T Hc)
    as (h1 & Ln & node & Hrun & T1 & Hin & Hw & Hlen & Hd & Hfresh).
  set (h' := alter (λ n, set_output (output n ++ [pat]) n) node
               (alter (set_is_end true) node h1)) in *.
  assert (∀ a, a ≠ node → h' !! a = h1 !! a) as Hother.
  { intros a Ha. unfold h'. by rewrite !list_lookup_alter_ne. }
  assert (∀ n1, h1 !! node = Some n1 →
            h' !! node = Some (set_output (output n1 ++ [pat])
                                 (set_is_end true n1))) as Hnode.
  { intros n1 Hn1. unfold h'. by rewrite !list_lookup_alter_eq, Hn1. }
  assert (∀ a v, (a, v) ∈ Ln → (v ∉ L.*2) ∧ (v ∉ ps) ∧ v ≠ []) as Hnew.
  { intros a v Ha. pose proof (trie_words _ _ _ T1) as Hnd.
    rewrite fmap_app in Hnd. apply NoDup_app in Hnd as (_ & Hdisj & _).
    assert (v ∉ L.*2) as Hv.
    { intros Hv. apply (Hdisj v Hv). apply list_elem_of_fmap. by exists (a, v). }
    split_and!; [done|by intros ?%Hps|].
    intros ->. apply Hv. apply list_elem_of_fmap.
    exists (root ac, []). split; [done|apply (trie_root_in T)]. }
  assert (∀ a w, (a, w) ∈ L ++ Ln →
            ∃ n1, h1 !! a = Some n1 ∧ is_end n1 = bool_decide (w ∈ ps) ∧
                  output n1 = filter (λ p, p = w) ps ∧
                  failure n1 = if decide (w = []) then Some (root ac) else None)
    as Hcont1.
  { intros a w [Ha|Ha]%elem_of_app.
    - destruct (Hcont a w Ha) as (n & Hn & ? & ? & ?).
      destruct (Hd _ _ Hn) as (n1 & Hn1 & ? & ? & ? & _).
      exists n1. split_and!; congruence.
    - destruct (Hfresh a w Ha) as (n1 & Hn1 & He & Ho & Hf).
      destruct (Hnew a w Ha) as (_ & Hwps & Hne).
      exists n1. split_and!; [done| | |].
      + by rewrite He, bool_decide_eq_false_2.
      + by rewrite Ho, filter_eq_nil.
      + by rewrite Hf, decide_False. }
  eexists h', _, Ln. split; [exact Hrun|]. split_and!; try done.
  - constructor; simpl; [|done|].
    + unfold h'. apply trie_alter; [done|]. by apply trie_alter.
    + destruct (Hd _ _ Hr) as (r1 & Hr1 & _ & Hf1 & _).
      destruct (decide (root ac = node)) as [Heq|Hne].
      * rewrite Heq in *. rewrite (Hnode r1 Hr1). eexists. split; [done|].
        simpl. congruence.
      * rewrite Hother by done. exists r1. split; congruence.
  - intros a w Ha. destruct (Hcont1 a w Ha) as (n1 & Hn1 & He & Ho & Hf).
    destruct (decide (a = node)) as [->|Hne].
    + rewrite (trie_word_unique T1 _ _ _ Ha Hin) in *.
      rewrite (Hnode n1 Hn1). eexists. split; [done|]. simpl.
      split_and!; [|by rewrite filter_eq_snoc, decide_True, Ho|done].
      symmetry. apply bool_decide_eq_true_2, elem_of_app. right.
      by apply list_elem_of_singleton.
    + rewrite Hother by done. exists n1. split; [done|].
      assert (pat ≠ w) as Hpw.
      { intros ->. apply Hne. by eapply (trie_addr_unique T1). }
      split_and!; [|by rewrite filter_eq_snoc, decide_False, app_nil_r|done].
      rewrite He. apply bool_decide_ext.
      rewrite elem_of_app, list_elem_of_singleton.
      split; [by left|]. by intros [?|?].
  - intros p [Hp%Hps| ->%list_elem_of_singleton]%elem_of_app.
    + rewrite fmap_app. apply elem_of_app. by left.
    + apply list_elem_of_fmap. by exists (node, pat).
  - intros a v Ha. destruct (Hcont1 a v) as (n1 & Hn1 & _ & _ & Hf);
      [apply elem_of_app; by right|].
    destruct (Hnew a v Ha) as (_ & _ & Hne). rewrite decide_False in Hf by done.
    destruct (decide (a = node)) as [->|Hn].
    + rewrite (Hnode n1 Hn1). eexists. split; [done|]. done.
    + rewrite Hother by done. eauto.
Qed.

Lemma add_patterns_content ps : ∀ done h ac L,
  automaton_inv h ac L → content h (root ac) L done →
  (∀ p, p ∈ done → p ∈ L.*2) →
  ∃ h' ac' L',
    add_patterns ps (h, ac) = Some (h', ac') ∧ automaton_inv h' ac' L' ∧
    root ac' = root ac ∧
    L'.*2 = foldl (λ W pat, add_words pat [] W) L.*2 ps ∧
    content h' (root ac) L' (done ++ ps) ∧
    (∀ p, p ∈ done ++ ps → p ∈ L'.*2).
Proof.
  induction ps as [|p ps IH]; intros done h ac L I Hc Hps.
  - exists h, ac, L. rewrite app_nil_r. by split_and!.
  - destruct (add_pattern_content p h ac L done I Hc Hps)
      as (h1 & ac1 & Ln & Hrun & I1 & Hrt & Hw & _ & Hc1 & Hps1 & _).
    rewrite add_patterns_cons, Hrun. simpl. rewrite <- Hrt in Hc1.
    destruct (IH (done ++ [p]) h1 ac1 (L ++ Ln) I1 Hc1 Hps1)
      as (h' & ac' & L' & Hrun' & I' & Hrt' & Hw' & Hc' & Hps').
    exists h', ac', L'. rewrite <- (assoc_L (++)) in Hc', Hps'. simpl in *.
    rewrite Hrt in Hc'.
    split_and!; [done|done|congruence|by rewrite Hw', Hw|done|done].
Qed.

(** The automaton once the patterns are inserted, with what its nodes
    hold. *)
Lemma automaton_full h0 ps :
  ∃ h ac L,
    automaton h0 ps = Some (h, ac) ∧ automaton_inv h ac L ∧
    root ac = length h0 ∧ L.*2 = trie_words_of ps ∧
    content h (root ac) L ps ∧ (∀ p, p ∈ ps → p ∈ L.*2).
Proof.
  unfold automaton.
  pose proof (AhoCorasick_new_inv h0) as I.
  pose proof (AhoCorasick_new_root h0) as Hr.
  destruct (AhoCorasick_new h0) as [h1 ac1] eqn:E. simpl in I, Hr.
  assert (root ac1 = length h0) as Hrt.
  { unfold AhoCorasick_new in E. by injection E as <- <-. }
  destruct (add_patterns_content ps [] h1 ac1 _ I)
    as (h & ac & L & Hrun & I' & Hrt' & Hw & Hc & Hps).
  { intros a w [= -> ->]%list_elem_of_singleton. rewrite Hrt in Hr |- *.
    rewrite Hr. eexists. split; [done|]. by split_and!. }
  { by intros p ?%elem_of_nil. }
  exists h, ac, L. rewrite Hrt'. split_and!; try done.
Qed.

(** The script's run, with what the nodes held before the links were
    built. *)
Lemma build_full h0 ps :
  ∃ h ac L h',
    automaton h0 ps = Some (h, ac) ∧ build h0 ps = Some (h', ac) ∧
    automaton_inv h ac L ∧ root ac = length h0 ∧
    L.*2 = trie_words_of ps ∧ content h (root ac) L ps ∧
    (∀ p, p ∈ ps → p ∈ L.*2) ∧
    links_built h (root ac) L h' ∧ same_shape h h'.
Proof.
  destruct (automaton_full h0 ps) as (h & ac & L & Ha & I & Hrt & Hw & Hc & Hps).
  destruct (build_failure_links_correct h (root ac) L (ai_trie _ _ _ I) ac eq_refl)
    as (h' & Hb & Hl).
  exists h, ac, L, h'. unfold build. rewrite Ha. simpl.
  split_and!; try done. by apply build_failure_links_shape in Hb as [_ ?].
Qed.

(** ** A failure link leads to the longest proper suffix in the trie *)

Section lps.
Context {h rt L h'} (B : links_built h rt L h').
Context (Hroot : ∃ r, h !! rt = Some r ∧ failure r = Some rt).

Local Abbreviation lps_word := (lps_word L).
Local Abbreviation lps_upto := (lps_upto L h').

Lemma word_elem a w : (a, w) ∈ L → w ∈ L.*2.
Proof using Type. intros Ha. apply list_elem_of_fmap. by exists (a, w). Qed.

Lemma word_parent (s : str) c : s ++ [c] ∈ L.*2 → s ∈ L.*2.
Proof using B.
  intros ([a v] & Hv & Hin)%list_elem_of_fmap. simpl in Hv. subst v.
  destruct (trie_closed _ _ _ (built_trie B) _ _ _ Hin) as [q Hq].
  by eapply word_elem.
Qed.

Lemma suffix_shorter (s v u : str) :
  s `suffix_of` u → v `suffix_of` u → length s ≤ length v → s `suffix_of` v.
Proof.
  intros Hs Hv Hlen.
  destruct (suffix_weak_total s v u Hs Hv) as [?|Hvs]; [done|].
  rewrite (suffix_length_eq v s Hvs); [done|].
  apply suffix_length in Hvs. lia.
Qed.

(** The [while] loop stops at the longest suffix of [u] that has a child
    for [c], or at the root. *)
Lemma follow_failure_lps k c (u : str) :
  lps_upto k →
  ∀ fuel fn v r,
    length v ≤ k → (fn, v) ∈ L → v `suffix_of` u →
    (∀ s, s `suffix_of` u → s ≠ u → s ++ [c] ∈ L.*2 → length s ≤ length v) →
    follow_failure fuel h' rt c fn = Some r →
    ∃ vr, (r, vr) ∈ L ∧ vr `suffix_of` u ∧ length vr ≤ length v ∧
      (vr = [] ∨ vr ++ [c] ∈ L.*2) ∧
      ∀ s, s `suffix_of` u → s ≠ u → s ++ [c] ∈ L.*2 → length s ≤ length vr.
Proof using B.
  intros IHk. pose proof (built_trie B) as T.
  induction fuel as [|fuel IH]; intros fn v r Hk Hfn Hsuf Hmax H;
    simpl in H; [done|].
  case_decide as Hrt.
  { injection H as <-. subst fn.
    assert (v = []) as -> by by apply (trie_root_word T _ _ Hfn).
    exists []. split_and!; [done|done|done|by left|done]. }
  assert (v ≠ []) as Hne.
  { intros ->. by apply Hrt, (trie_root_word T _ _ Hfn). }
  destruct (h' !! fn) as [n|] eqn:Hn; [|done]. simpl in H.
  destruct (dict_has c (children n)) eqn:Hc.
  { injection H as <-. exists v. split_and!; [done|done|done| |done].
    right. unfold dict_has in Hc. apply bool_decide_eq_true in Hc as [x Hx].
    apply (trie_child_get T _ _ _ _ _ Hfn Hn) in Hx. by eapply word_elem. }
  destruct (failure n) as [f|] eqn:Hf; [|done]. simpl in H.
  destruct (built_link B fn v Hfn Hne) as (n' & f' & vf & Hn' & Hf' & Hvf & Hlen).
  assert (n' = n) as -> by congruence.
  assert (f' = f) as -> by congruence.
  destruct (IHk fn v n f vf Hk Hne Hfn Hn Hf Hvf) as (Hvs & Hvne & _ & Hvmax).
  apply dict_has_false in Hc.
  apply (trie_child_get_None T _ _ _ _ Hfn Hn) in Hc.
  destruct (IH f vf r) as (vr & ? & ? & ? & ? & ?); [lia|done| | |done|].
  - by etrans.
  - intros s Hs Hsu Hsc. apply Hvmax.
    + apply (suffix_shorter s v u); [done|done|by apply Hmax].
    + intros ->. by apply Hc.
    + by eapply word_parent.
  - exists vr. split_and!; [done|done|lia|done|done].
Qed.

Lemma lps_all k : lps_upto k.
Proof using B Hroot.
  pose proof (built_trie B) as T.
  induction k as [|k IHk]; intros a w n b v Hk Hne Ha Hn Hf Hb.
  { destruct w; [done|simpl in Hk; lia]. }
  induction w as [|c u _] using rev_ind; [done|].
  rewrite length_app in Hk. simpl in Hk.
  destruct (trie_closed _ _ _ T _ _ _ Ha) as [p Hp].
  destruct (decide (u = [])) as [->|Hu].
  { (* a child of the root *)
    destruct B as (_ & _ & Hl).
    destruct (Hl a p [] c Ha Hp) as (n' & b' & v' & Hn' & Hf' & Hb' & _ & H1 & _).
    destruct (H1 eq_refl) as [-> _].
    assert (b = rt) as -> by congruence.
    assert (v = []) as -> by by apply (trie_root_word T _ _ Hb).
    split_and!; [apply suffix_nil|done|by eapply word_elem|].
    intros t Ht1 Ht2 _. apply suffix_length in Ht1 as Hlen. simpl in *.
    destruct (decide (length t = 1)) as [Heq|]; [|lia].
    destruct Ht2. apply suffix_length_eq; [done|simpl; lia]. }
  destruct (built_target B Hroot a p u c Ha Hp) as (n' & b' & Hn' & Hf' & Ht).
  assert (n' = n) as -> by congruence.
  assert (b' = b) as -> by congruence.
  (* the node the search starts from *)
  unfold failure_target in Ht.
  destruct (h' !! p) as [cur|] eqn:Hcur; [|done]. simpl in Ht.
  destruct (failure cur) as [f0|] eqn:Hf0; [|done]. simpl in Ht.
  destruct (follow_failure (length h') h' rt c f0) as [r|] eqn:Hr; [|done].
  simpl in Ht.
  destruct (built_link B p u Hp Hu) as (n0 & f & v0 & Hn0 & Hf0' & H0 & Hlen0).
  assert (f = f0) as -> by congruence.
  destruct (IHk p u cur f0 v0 ltac:(lia) Hu Hp Hcur Hf0 H0)
    as (Hsuf0 & _ & _ & Hmax).
  assert (∀ s, s `suffix_of` u → s ≠ u → s ++ [c] ∈ L.*2 →
               length s ≤ length v0) as Hmax0.
  { intros s Hs Hsu Hsc. apply Hmax; [done|done|by eapply word_parent]. }
  destruct (follow_failure_lps k c u IHk _ f0 v0 r ltac:(lia) H0 Hsuf0 Hmax0 Hr)
    as (vr & Hvr & Hsufr & Hlenr & Hstop & Hmaxr).
  assert (∀ t, t `suffix_of` u ++ [c] → t ≠ u ++ [c] → t ∈ L.*2 →
            t = [] ∨ ∃ s, t = s ++ [c] ∧ length s ≤ length vr) as Hcases.
  { intros t Ht1 Ht2 Ht3. induction t as [|d s _] using rev_ind; [by left|].
    right. pose proof (suffix_snoc_inv_1 _ _ _ _ Ht1) as ->.
    apply suffix_snoc_inv_2 in Ht1. exists s. split; [done|].
    apply Hmaxr; [done| |done]. by intros ->. }
  unfold choose_failure in Ht.
  destruct (h' !! r) as [nr|] eqn:Hnr; [|done]. simpl in Ht.
  destruct (dict_get c (children nr)) as [x|] eqn:Ex.
  - apply (trie_child_get T _ _ _ _ _ Hvr Hnr) in Ex.
    rewrite decide_True in Ht.
    2:{ intros ->. pose proof (trie_word_unique T _ _ _ Ex Ha) as [Heq _]%snoc_inv.
        subst vr. lia. }
    injection Ht as <-.
    rewrite (trie_word_unique T _ _ _ Hb Ex).
    split_and!.
    + by apply suffix_app.
    + intros [Heq _]%snoc_inv. subst vr. lia.
    + by eapply word_elem.
    + intros t Ht1 Ht2 Ht3.
      destruct (Hcases t Ht1 Ht2 Ht3) as [->|(s & -> & Hs)]; [simpl; lia|].
      rewrite !length_app. simpl. lia.
  - apply (trie_child_get_None T _ _ _ _ Hvr Hnr) in Ex.
    injection Ht as <-.
    assert (v = []) as -> by by apply (trie_root_word T _ _ Hb).
    destruct Hstop as [->|?]; [|done].
    split_and!; [apply suffix_nil|by destruct u|by eapply word_elem|].
    intros t Ht1 Ht2 Ht3.
    destruct (Hcases t Ht1 Ht2 Ht3) as [->|(s & -> & Hs)]; [done|].
    destruct s; [|simpl in Hs; lia]. done.
Qed.

Lemma built_lps a w :
  (a, w) ∈ L → w ≠ [] →
  ∃ n b v, h' !! a = Some n ∧ failure n = Some b ∧ (b, v) ∈ L ∧ lps_word w v.
Proof using B Hroot.
  intros Ha Hne.
  destruct (built_link B a w Ha Hne) as (n & b & v & Hn & Hf & Hb & _).
  exists n, b, v. split_and!; [done..|].
  by eapply (lps_all (length w) a w n b v).
Qed.
End lps.

(** ** What the outputs hold once the links are built *)

Section outputs.
Context {h : heap} {rt : addr} {L : labelling} {h' : heap} {ps : list str}.
Context (B : links_built h rt L h').
Context (Hroot : ∃ r, h !! rt = Some r ∧ failure r = Some rt).
Context (Hcont : content h rt L ps) (Hps : ∀ p, p ∈ ps → p ∈ L.*2).

Lemma own_output a w : (a, w) ∈ L → out_of h a = filter (λ p, p = w) ps.
Proof using Hcont.
  intros Ha. destruct (Hcont a w Ha) as (n & Hn & _ & Ho & _).
  unfold out_of, field. by rewrite Hn.
Qed.

(** The output of a node is its own output followed by the output of its
    failure node, except for the children of the root, which keep their
    own. *)
Lemma built_output_eq a w :
  (a, w) ∈ L → w ≠ [] →
  ∃ n b v, h' !! a = Some n ∧ failure n = Some b ∧ (b, v) ∈ L ∧
    lps_word L w v ∧
    out_of h' a = filter (λ p, p = w) ps
                  ++ (if decide (length w = 1) then [] else out_of h' b).
Proof using B Hroot Hcont.
  intros Ha Hne. pose proof (built_trie B) as T.
  destruct (built_lps B Hroot a w Ha Hne) as (n & b & v & Hn & Hf & Hb & Hlps).
  exists n, b, v. split_and!; [done..|].
  induction w as [|c u _] using rev_ind; [done|].
  destruct (trie_closed _ _ _ T _ _ _ Ha) as [p Hp].
  destruct B as (_ & _ & Hl).
  destruct (Hl a p u c Ha Hp) as (n' & b' & v' & Hn' & Hf' & _ & _ & H1 & H2).
  assert (n' = n) as -> by congruence.
  assert (b' = b) as -> by congruence.
  rewrite length_app. simpl. unfold out_of at 1, field. rewrite Hn. simpl.
  destruct (decide (u = [])) as [->|Hu].
  - destruct (H1 eq_refl) as [_ ->]. rewrite (own_output a _ Ha).
    by rewrite decide_True, app_nil_r.
  - destruct (H2 Hu) as (_ & nb & Hnb & ->). rewrite (own_output a _ Ha).
    rewrite decide_False by (destruct u; [done|simpl; lia]).
    unfold out_of, field. by rewrite Hnb.
Qed.

Lemma built_output_root : (∀ p, p ∈ ps → p ≠ []) → out_of h' rt = [].
Proof using B Hcont.
  intros Hne. pose proof (built_trie B) as T.
  unfold out_of, field. rewrite (built_root B).
  destruct (Hcont rt [] (trie_root_in T)) as (n & Hn & _ & Ho & _).
  rewrite Hn. simpl. rewrite Ho.
  apply filter_eq_nil. intros Hin. by apply (Hne _ Hin).
Qed.

Lemma built_output_elem k : (∀ p, p ∈ ps → p ≠ []) →
  ∀ a w, length w ≤ k → (a, w) ∈ L →
  ∀ p, p ∈ out_of h' a ↔ p ∈ ps ∧ p `suffix_of` w.
Proof using B Hroot Hcont Hps.
  intros Hne. pose proof (built_trie B) as T.
  assert (∀ p, p ∈ out_of h' rt ↔ p ∈ ps ∧ p `suffix_of` []) as Hrt.
  { intros p. rewrite (built_output_root Hne). split; [by intros ?%elem_of_nil|].
    intros [Hp ->%suffix_nil_inv]. by destruct (Hne _ Hp). }
  induction k as [|k IH]; intros a w Hk Ha p.
  { destruct w; [|simpl in Hk; lia].
    assert (a = rt) as -> by by apply (trie_root_word T _ _ Ha). apply Hrt. }
  destruct (decide (w = [])) as [->|Hw].
  { assert (a = rt) as -> by by apply (trie_root_word T _ _ Ha). apply Hrt. }
  destruct (built_output_eq a w Ha Hw)
    as (n & b & v & Hn & Hf & Hb & (Hvs & Hvw & _ & Hmax) & ->).
  rewrite elem_of_app, list_elem_of_filter.
  assert (length v < length w) as Hlen.
  { apply suffix_length in Hvs as Hl.
    destruct (decide (length v = length w)) as [Heq|]; [|lia].
    destruct Hvw. apply suffix_length_eq; [done|lia]. }
  assert (p ∈ (if decide (length w = 1) then [] else out_of h' b) ↔
          p ∈ ps ∧ p `suffix_of` v) as ->.
  { case_decide as H1; [|apply (IH b v); [lia|done]].
    assert (v = []) as -> by (destruct v; [done|simpl in Hlen; lia]).
    assert (b = rt) as -> by by apply (trie_root_word T _ _ Hb).
    rewrite <- Hrt, (built_output_root Hne). done. }
  split.
  - intros [[-> ?]|[? ?]]; (split; [done|]); [done|by etrans].
  - intros [Hp Hsuf]. destruct (decide (p = w)) as [->|Hpw]; [by left|right].
    split; [done|]. apply (suffix_shorter p v w); [done|done|].
    apply Hmax; [done|done|by apply Hps].
Qed.

(** With patterns inserted once each, no output holds a pattern twice. *)
Lemma built_output_NoDup k : NoDup ps → (∀ p, p ∈ ps → p ≠ []) →
  ∀ a w, length w ≤ k → (a, w) ∈ L → NoDup (out_of h' a).
Proof using B Hroot Hcont Hps.
  intros Hnd Hne. pose proof (built_trie B) as T.
  induction k as [|k IH]; intros a w Hk Ha.
  { destruct w; [|simpl in Hk; lia].
    assert (a = rt) as -> by by apply (trie_root_word T _ _ Ha).
    rewrite (built_output_root Hne). constructor. }
  destruct (decide (w = [])) as [->|Hw].
  { assert (a = rt) as -> by by apply (trie_root_word T _ _ Ha).
    rewrite (built_output_root Hne). constructor. }
  destruct (built_output_eq a w Ha Hw)
    as (n & b & v & Hn & Hf & Hb & (Hvs & Hvw & _ & Hmax) & ->).
  assert (length v < length w) as Hlen.
  { apply suffix_length in Hvs as Hl.
    destruct (decide (length v = length w)) as [Heq|]; [|lia].
    destruct Hvw. apply suffix_length_eq; [done|lia]. }
  apply NoDup_app. split_and!.
  - by apply NoDup_filter.
  - intros p [-> _]%list_elem_of_filter. case_decide; [apply not_elem_of_nil|].
    intros [_ Hsuf%suffix_length]%(built_output_elem (length v) Hne b v); [lia|done..].
  - case_decide; [constructor|]. apply (IH b v); [lia|done].
Qed.
End outputs.

(** ** Every state of an automaton *)

Lemma reachable_inv s : reachable s → ∃ L, automaton_inv s.1 s.2 L.
Proof.
  induction 1 as [h0|[h ac] p [h' ac'] _ IH Hadd|[h ac] [h' ac'] _ IH Hb];
    [|destruct IH as (L & I); simpl in I..]; simpl.
  - eexists. apply AhoCorasick_new_inv.
  - destruct (add_pattern_inv p h ac L I) as (h1 & ac1 & L' & _ & Hrun & I' & _).
    rewrite Hrun in Hadd. injection Hadd as <- <-. eauto.
  - destruct (build_failure_links_correct h (root ac) L (ai_trie _ _ _ I) ac eq_refl)
      as (h1 & Hrun & B).
    rewrite Hrun in Hb. injection Hb as <- <-. exists L.
    constructor; [apply (built_trie B)|apply I|].
    rewrite (built_root B). apply I.
Qed.

(** ** The script's removal of repeated keywords *)

Lemma first_occurrences_elem l x : x ∈ first_occurrences l ↔ x ∈ l.
Proof.
  induction l as [|y l IH]; simpl; [done|].
  rewrite !elem_of_cons, list_elem_of_filter, IH.
  destruct (decide (x = y)); tauto.
Qed.

Lemma first_occurrences_NoDup l : NoDup (first_occurrences l).
Proof.
  induction l as [|y l IH]; simpl; constructor.
  - rewrite list_elem_of_filter. by intros [? _].
  - by apply NoDup_filter.
Qed.

Lemma keep_unseen_run l : ∀ acc (seen : gset str),
  (∀ x, x ∈ seen ↔ x ∈ acc) →
  (foldl keep_unseen (acc, seen) l).1
  = acc ++ filter (λ y, y ∉ acc) (first_occurrences l).
Proof.
  induction l as [|x l IH]; intros acc seen Hseen; simpl.
  { by rewrite app_nil_r. }
  case_decide as Hx.
  - rewrite (IH acc seen Hseen). f_equal.
    apply Hseen in Hx. rewrite filter_cons_False by (intros H; by apply H).
    rewrite list_filter_filter. apply list_filter_iff.
    intros y. split; [|by intros [? _]]. intros Hy. split; [done|].
    by intros ->.
  - assert (x ∉ acc) as Hxa by by rewrite <- Hseen.
    rewrite (IH (acc ++ [x]) ({[x]} ∪ seen)).
    2:{ intros y. rewrite elem_of_union, elem_of_singleton, elem_of_app,
          list_elem_of_singleton, Hseen. tauto. }
    rewrite filter_cons_True by done. rewrite <- (assoc_L (++)). simpl.
    do 2 f_equal. rewrite list_filter_filter. apply list_filter_iff.
    intros y. rewrite elem_of_app, list_elem_of_singleton. tauto.
Qed.

Lemma trie_walk_is_Some h rt L u :
  trie h rt L → is_Some (walk h rt u) ↔ u ∈ L.*2.
Proof.
  intros T. rewrite list_elem_of_fmap. split.
  - intros [a Ha%(trie_walk_root T)]. by exists (a, u).
  - intros ([a v] & Hu & Ha). simpl in Hu. subst v.
    exists a. by apply (trie_walk_root T).
Qed.

Lemma add_chars_walk p : ∀ h cnt node n,
  walk h node p = Some n → add_chars p h cnt node = Some (h, cnt, n).
Proof.
  induction p as [|c p IH]; intros h cnt node n H; simpl in *.
  - by injection H as ->.
  - destruct (h !! node) as [nd|]; [|done]. simpl in *.
    destruct (dict_get c (children nd)) as [child|]; [|done]. simpl in H.
    by apply IH.
Qed.

(** The links of every automaton the methods can produce stay inside its
    trie. *)
Lemma reachable_links s :
  reachable s →
  ∃ L, trie s.1 (root s.2) L ∧ node_counter s.2 = length L ∧
       links_inside s.1 L.
Proof.
  induction 1 as [h0|[h ac] p [h' ac'] _ IH Hadd|[h ac] [h' ac'] _ IH Hb];
    [|destruct IH as (L & T & Hc & Hin); simpl in T, Hc, Hin..]; simpl.
  - destruct (AhoCorasick_new_inv h0) as [T Hc (r & Hr & Hf)].
    eexists. split_and!; [exact T|exact Hc|].
    intros a w n f Ha Hn Hfn.
    apply list_elem_of_fmap. eexists (_, _). split; [|apply (trie_root_in T)].
    simpl. apply list_elem_of_singleton in Ha. injection Ha as -> ->.
    unfold AhoCorasick_new in *. simpl in *. congruence.
  - destruct (add_pattern_grow p h ac L T Hc)
      as (h1 & Ln & node & Hrun & T1 & _ & _ & _ & Hd & Hfresh).
    rewrite Hrun in Hadd. injection Hadd as <- <-. simpl.
    exists (L ++ Ln). split_and!; [|done|].
    { apply trie_alter; [done|]. by apply trie_alter. }
    intros a w n f Ha Hn Hfn.
    assert (∃ n1, h1 !! a = Some n1 ∧ failure n1 = Some f) as (n1 & Hn1 & Hf1).
    { destruct (decide (node = a)) as [->|Hne].
      - rewrite !list_lookup_alter_eq in Hn.
        destruct (h1 !! a) as [n1|]; [|done]. injection Hn as <-. by exists n1.
      - rewrite !list_lookup_alter_ne in Hn by done. by exists n. }
    rewrite fmap_app. apply elem_of_app.
    apply elem_of_app in Ha as [Ha|Ha].
    + left. destruct (trie_lookup T _ _ Ha) as [n0 Hn0].
      destruct (Hd _ _ Hn0) as (n1' & Hn1' & _ & Hf0 & _).
      apply (Hin a w n0 f Ha Hn0). congruence.
    + destruct (Hfresh _ _ Ha) as (n1' & Hn1' & _ & _ & Hnone). congruence.
  - destruct (build_failure_links_correct h (root ac) L T ac eq_refl)
      as (h1 & Hrun & B).
    rewrite Hrun in Hb. injection Hb as <- <-. simpl.
    exists L. split_and!; [apply (built_trie B)|done|].
    intros a w n f Ha Hn Hfn. destruct (decide (w = [])) as [->|Hne].
    + assert (a = root ac) as -> by by apply (trie_root_word T _ _ Ha).
      rewrite (built_root B) in Hn. by apply (Hin _ _ _ _ Ha Hn).
    + destruct (built_link B a w Ha Hne) as (n' & b & v & Hn' & Hb' & Hv & _).
      apply list_elem_of_fmap. exists (b, v). split; [|done]. simpl. congruence.
Qed.

Lemma or_root_ROOT v : or_root v = ROOT ↔ v = [] ∨ v = ROOT.
Proof.
  destruct v as [|c v]; simpl; [by split; [left|]|].
  split; [by right|]. by intros [?|?].
Qed.

Lemma filter_split_length {A} (P Q : A → Prop)
    `{∀ x, Decision (P x)} `{∀ x, Decision (Q x)} (l : list A) :
  Forall (λ x, P x ↔ ¬ Q x) l →
  length (filter P l) + length (filter Q l) = length l.
Proof.
  induction 1 as [|x l Hx _ IH]; [done|].
  destruct (decide (Q x)) as [HQ|HQ].
  - rewrite (filter_cons_True Q), filter_cons_False by tauto. simpl. lia.
  - rewrite (filter_cons_False Q), filter_cons_True by tauto. simpl. lia.
Qed.

(** No path of the automaton of [ps] is longer than the patterns. *)
Lemma automaton_depth h0 ps s d :
  automaton h0 ps = Some s → Forall (λ p, length p ≤ d) ps →
  ∀ w n, walk s.1 (root s.2) w = Some n → length w ≤ d.
Proof.
  intros Ha Hps w n Hw. rewrite Forall_forall in Hps.
  destruct (automaton_spec h0 ps) as (h & ac & L & Ha' & I & _ & HW & _).
  rewrite Ha' in Ha. injection Ha as <-. simpl in Hw.
  apply (trie_walk_root (ai_trie _ _ _ I)) in Hw.
  assert (w ∈ L.*2) as Hin by (apply list_elem_of_fmap; by exists (n, w)).
  rewrite HW in Hin. apply trie_words_of_elem in Hin as [->|(p & Hp & Hpre)].
  - simpl. lia.
  - apply prefix_length in Hpre. specialize (Hps p Hp). simpl in Hps. lia.
Qed.

Lemma build_depth h0 ps s d :
  build h0 ps = Some s → Forall (λ p, length p ≤ d) ps →
  ∀ w n, walk s.1 (root s.2) w = Some n → length w ≤ d.
Proof.
  intros Hb Hps w n Hw. rewrite Forall_forall in Hps.
  destruct (build_spec h0 ps)
    as (h & ac & L & h' & _ & Hb' & _ & I & _ & HW & B & _).
  rewrite Hb' in Hb. injection Hb as <-. simpl in Hw.
  apply (trie_walk_root (built_trie B)) in Hw.
  assert (w ∈ L.*2) as Hin by (apply list_elem_of_fmap; by exists (n, w)).
  rewrite HW in Hin. apply trie_words_of_elem in Hin as [->|(p & Hp & Hpre)].
  - simpl. lia.
  - apply prefix_length in Hpre. specialize (Hps p Hp). simpl in Hps. lia.
Qed.

Lemma ex_patterns_short : Forall (λ p : str, length p ≤ 3) ex_patterns.
Proof. unfold ex_patterns. repeat constructor. Defined.

(** * The further properties, one by one *)

(** ** X1: the paths of the trie *)

(** X1. Once the patterns are inserted, a string is a path of the trie
    exactly when it is a prefix of one of the patterns (the empty string is
    always the path of the root); building the links changes no path. *)
Theorem trie_holds_prefixes (h0 : heap) (patterns : list str) :
  ∃ h ac h',
    automaton h0 patterns = Some (h, ac) ∧
    build h0 patterns = Some (h', ac) ∧
    ∀ w, (is_Some (walk h (root ac) w) ↔
            w = [] ∨ ∃ p, p ∈ patterns ∧ w `prefix_of` p) ∧
         walk h' (root ac) w = walk h (root ac) w.
Proof.
  destruct (build_full h0 patterns)
    as (h & ac & L & h' & Ha & Hb & I & _ & Hw & _ & _ & _ & Hs).
  exists h, ac, h'. split_and!; [done..|]. intros w. split.
  - by rewrite (trie_walk_is_Some _ _ _ _ (ai_trie _ _ _ I)), Hw,
      trie_words_of_elem.
  - by apply walk_same_shape.
Qed.

(** ** X2: what insertion stores in the nodes *)

(** X2. Once the patterns are inserted and before the links are built, the
    node at a path is terminal exactly when the path is one of the
    patterns, its output holds the path once for each time it was inserted
    and nothing else, and only the root has a failure link. *)
Theorem inserted_content (h0 : heap) (patterns : list str) :
  ∃ h ac,
    automaton h0 patterns = Some (h, ac) ∧
    ∀ w n, walk h (root ac) w = Some n →
      field is_end h n = Some (bool_decide (w ∈ patterns)) ∧
      field output h n = Some (filter (λ p, p = w) patterns) ∧
      field failure h n
      = Some (if decide (w = []) then Some (root ac) else None).
Proof.
  destruct (automaton_full h0 patterns) as (h & ac & L & Ha & I & _ & _ & Hc & _).
  exists h, ac. split; [done|]. intros w n Hw%(trie_walk_root (ai_trie _ _ _ I)).
  destruct (Hc n w Hw) as (nd & Hn & He & Ho & Hf).
  unfold field. rewrite Hn. simpl. by rewrite He, Ho, Hf.
Qed.

(** ** X3: a failure link leads to the longest proper suffix *)

(** X3. In every state of an automaton [build_failure_links] returns, and
    then the failure link of the node at a non-empty path [w] is the node
    at the longest proper suffix of [w] that is a path of the trie. *)
Theorem links_are_longest_suffixes (s : state) :
  reachable s →
  ∃ s', build_failure_links s = Some s' ∧
    ∀ w n, w ≠ [] → walk s'.1 (root s'.2) w = Some n →
      ∃ m v, field failure s'.1 n = Some (Some m) ∧
             walk s'.1 (root s'.2) v = Some m ∧
             longest_proper_suffix s'.1 (root s'.2) w v.
Proof.
  intros (L & I)%reachable_inv. destruct s as [h ac]. simpl in I.
  destruct (build_failure_links_correct h (root ac) L (ai_trie _ _ _ I) ac eq_refl)
    as (h' & Hb & B).
  exists (h', ac). split; [done|]. simpl. intros w n Hne Hw.
  pose proof (built_trie B) as T. apply (trie_walk_root T) in Hw.
  destruct (built_lps B (ai_root _ _ _ I) n w Hw Hne)
    as (nd & b & v & Hn & Hf & Hb' & Hs & Hvw & Hv & Hmax).
  exists b, v. unfold field. rewrite Hn. simpl. rewrite Hf.
  split; [done|]. split; [by apply (trie_walk_root T)|].
  split_and!; [done|done|by apply (trie_walk_is_Some _ _ _ _ T)|].
  intros u Hu Huw Hin. apply Hmax; [done|done|].
  by apply (trie_walk_is_Some _ _ _ _ T).
Qed.

Lemma links_are_longest_suffixes_witness :
  ∃ s, automaton [] ex_patterns = Some s ∧ reachable s ∧
  ∃ s', build_failure_links s = Some s' ∧
    ∀ w n, w ≠ [] → walk s'.1 (root s'.2) w = Some n →
      ∃ m v, field failure s'.1 n = Some (Some m) ∧
             walk s'.1 (root s'.2) v = Some m ∧
             longest_proper_suffix s'.1 (root s'.2) w v.
Proof.
  destruct ex_automaton_reachable as (s & E & Hr).
  exists s. split; [done|]. split; [done|].
  exact (links_are_longest_suffixes s Hr).
Defined.

(** ** X4: the outputs of the built automaton *)

(** X4. After the script has run on non-empty patterns, the node at a path
    is terminal exactly when the path is one of the patterns, and its
    output holds exactly the patterns that are suffixes of the path. *)
Theorem outputs_are_suffix_patterns (h0 : heap) (patterns : list str) :
  Forall (λ p, p ≠ []) patterns →
  ∃ h ac, build h0 patterns = Some (h, ac) ∧
    ∀ w n, walk h (root ac) w = Some n →
      field is_end h n = Some (bool_decide (w ∈ patterns)) ∧
      ∀ p, p ∈ out_of h n ↔ p ∈ patterns ∧ p `suffix_of` w.
Proof.
  intros Hne. rewrite Forall_forall in Hne.
  destruct (build_full h0 patterns)
    as (h & ac & L & h' & _ & Hb & I & _ & _ & Hc & Hps & B & Hs).
  exists h', ac. split; [done|]. intros w n Hw.
  apply (trie_walk_root (built_trie B)) in Hw. split.
  - destruct (Hc n w Hw) as (nd & Hn & He & _).
    destruct Hs as [_ Hs]. destruct (Hs n) as (_ & Hi & _).
    unfold field. rewrite Hi, Hn. simpl. by rewrite He.
  - by apply (built_output_elem B (ai_root _ _ _ I) Hc Hps (length w) Hne n w).
Qed.

Lemma outputs_are_suffix_patterns_witness :
  Forall (λ p : str, p ≠ []) ex_patterns ∧
  ∃ h ac, build [] ex_patterns = Some (h, ac) ∧
    ∀ w n, walk h (root ac) w = Some n →
      field is_end h n = Some (bool_decide (w ∈ ex_patterns)) ∧
      ∀ p, p ∈ out_of h n ↔ p ∈ ex_patterns ∧ p `suffix_of` w.
Proof.
  split; [exact ex_patterns_nonempty|].
  exact (outputs_are_suffix_patterns [] ex_patterns ex_patterns_nonempty).
Defined.

(** ** X5: the nodes that link to the root *)

(** X5. After the script has run, the failure link of the node at a
    non-empty path is the root exactly when no non-empty proper suffix of
    the path is a prefix of a pattern (what the script prints of the nodes
    that "connect directly to ROOT"). *)
Theorem root_links (h0 : heap) (patterns : list str) :
  ∃ h ac, build h0 patterns = Some (h, ac) ∧
    ∀ w n, w ≠ [] → walk h (root ac) w = Some n →
      (field failure h n = Some (Some (root ac)) ↔
       ∀ u, u `suffix_of` w → u ≠ w → u ≠ [] →
            ¬ ∃ p, p ∈ patterns ∧ u `prefix_of` p).
Proof.
  destruct (build_full h0 patterns)
    as (h & ac & L & h' & _ & Hb & I & _ & HW & _ & _ & B & _).
  pose proof (built_trie B) as T.
  exists h', ac. split; [done|]. intros w n Hne Hw%(trie_walk_root T).
  destruct (built_lps B (ai_root _ _ _ I) n w Hw Hne)
    as (nd & b & v & Hn & Hf & Hb' & Hs & Hvw & Hv & Hmax).
  unfold field. rewrite Hn. simpl. rewrite Hf. split.
  - intros [= ->]. assert (v = []) as -> by by apply (trie_root_word T _ _ Hb').
    intros u Hu Huw Hune (p & Hp & Hpre).
    assert (u ∈ L.*2) as Hin.
    { rewrite HW. apply trie_words_of_elem. right. by exists p. }
    specialize (Hmax u Hu Huw Hin). destruct u; [done|simpl in Hmax; lia].
  - intros Hnone. do 2 f_equal. apply (trie_root_word T _ _ Hb').
    destruct (decide (v = [])) as [?|Hv']; [done|].
    rewrite HW in Hv. apply trie_words_of_elem in Hv as [?|Hp]; [done|].
    by destruct (Hnone v Hs Hvw Hv').
Qed.

(** ** X6: node ids *)

(** X6. In every state of an automaton the ids of the nodes of the trie are
    exactly the numbers below [node_counter], each on one node, and the
    root has id 0: every node has an id below the counter, nodes at
    different paths have different ids, and every number below the counter
    is the id of a node. *)
Theorem node_ids_identify (s : state) :
  reachable s →
  field node_id s.1 (root s.2) = Some (Some 0) ∧
  (∀ w n, walk s.1 (root s.2) w = Some n →
     ∃ i, field node_id s.1 n = Some (Some i) ∧ i < node_counter s.2) ∧
  (∀ w1 w2 n1 n2,
     walk s.1 (root s.2) w1 = Some n1 → walk s.1 (root s.2) w2 = Some n2 →
     field node_id s.1 n1 = field node_id s.1 n2 → w1 = w2) ∧
  (∀ i, i < node_counter s.2 →
     ∃ w n, walk s.1 (root s.2) w = Some n ∧
            field node_id s.1 n = Some (Some i)).
Proof.
  intros (L & T & Hc)%reachable_trie. destruct s as [h ac]. simpl in *.
  assert (∀ w n, walk h (root ac) w = Some n →
            ∃ i, L !! i = Some (n, w) ∧ field node_id h n = Some (Some i))
    as Hid.
  { intros w n [i Hi]%(trie_walk_root T)%list_elem_of_lookup.
    destruct (trie_ids _ _ _ T _ _ _ Hi) as (nd & Hn & Hid).
    exists i. unfold field. rewrite Hn. simpl. by rewrite Hid. }
  split_and!.
  - destruct (trie_ids _ _ _ T _ _ _ (trie_root _ _ _ T)) as (nd & Hn & Hid').
    unfold field. rewrite Hn. simpl. by rewrite Hid'.
  - intros w n (i & Hi & ?)%Hid. exists i. split; [done|].
    apply lookup_lt_Some in Hi. lia.
  - intros w1 w2 n1 n2 (i & Hi & Hi')%Hid (j & Hj & Hj')%Hid Heq.
    assert (i = j) as -> by congruence. congruence.
  - intros i Hi. rewrite Hc in Hi.
    destruct (lookup_lt_is_Some_2 L i Hi) as [[n w] Hl].
    destruct (trie_ids _ _ _ T _ _ _ Hl) as (nd & Hn & Hid').
    exists w, n. split.
    + apply (trie_walk_root T). by eapply list_elem_of_lookup_2.
    + unfold field. rewrite Hn. simpl. by rewrite Hid'.
Qed.

Lemma node_ids_identify_witness :
  ∃ s, automaton [] ex_patterns = Some s ∧ reachable s ∧
  field node_id s.1 (root s.2) = Some (Some 0) ∧
  (∀ w n, walk s.1 (root s.2) w = Some n →
     ∃ i, field node_id s.1 n = Some (Some i) ∧ i < node_counter s.2) ∧
  (∀ w1 w2 n1 n2,
     walk s.1 (root s.2) w1 = Some n1 → walk s.1 (root s.2) w2 = Some n2 →
     field node_id s.1 n1 = field node_id s.1 n2 → w1 = w2) ∧
  (∀ i, i < node_counter s.2 →
     ∃ w n, walk s.1 (root s.2) w = Some n ∧
            field node_id s.1 n = Some (Some i)).
Proof.
  destruct ex_automaton_reachable as (s & E & Hr).
  exists s. split; [done|]. split; [done|].
  exact (node_ids_identify s Hr).
Defined.

(** ** X7: what an insertion does to an automaton *)

(** X7. In every state of an automaton [add_pattern] returns.  It keeps the
    root, creates at most one node for each character of the pattern, and
    leaves every path of the trie leading to the node it led to, with the
    same id and the same failure link; afterwards the pattern is a path of
    the trie, and the node it leads to is terminal and has the pattern as
    the last entry of its output. *)
Theorem add_pattern_inserts (s : state) (pattern : str) :
  reachable s →
  ∃ s', add_pattern pattern s = Some s' ∧
    root s'.2 = root s.2 ∧
    node_counter s.2 ≤ node_counter s'.2 ≤ node_counter s.2 + length pattern ∧
    (∀ w n, walk s.1 (root s.2) w = Some n →
       walk s'.1 (root s'.2) w = Some n ∧
       field node_id s'.1 n = field node_id s.1 n ∧
       field failure s'.1 n = field failure s.1 n) ∧
    ∃ n, walk s'.1 (root s'.2) pattern = Some n ∧
         field is_end s'.1 n = Some true ∧
         last (out_of s'.1 n) = Some pattern.
Proof.
  intros (L & T & Hc)%reachable_trie. destruct s as [h ac]. simpl in *.
  destruct (add_pattern_grow pattern h ac L T Hc)
    as (h1 & Ln & node & Hrun & T1 & Hin & _ & Hlen & Hd & _).
  eexists. split; [exact Hrun|]. simpl.
  set (h' := alter (λ n, set_output (output n ++ [pattern]) n) node
               (alter (set_is_end true) node h1)).
  assert (trie h' (root ac) (L ++ Ln)) as T'.
  { unfold h'. apply trie_alter; [done|]. by apply trie_alter. }
  assert (∀ a, field node_id h' a = field node_id h1 a ∧
               field failure h' a = field failure h1 a) as Hkeep.
  { intros a. unfold field, h'. destruct (decide (node = a)) as [->|Hne].
    - rewrite !list_lookup_alter_eq. by destruct (h1 !! a).
    - by rewrite !list_lookup_alter_ne. }
  split_and!; [done|rewrite Hc, length_app; lia..| |].
  - intros w n Hw%(trie_walk_root T). split_and!.
    + apply (trie_walk_root T'), elem_of_app. by left.
    + destruct (trie_lookup T _ _ Hw) as [nd Hn].
      destruct (Hd _ _ Hn) as (nd1 & Hn1 & _ & _ & _ & Hid).
      rewrite (proj1 (Hkeep n)). unfold field. rewrite Hn, Hn1. simpl.
      by rewrite Hid.
    + destruct (trie_lookup T _ _ Hw) as [nd Hn].
      destruct (Hd _ _ Hn) as (nd1 & Hn1 & _ & Hf & _).
      rewrite (proj2 (Hkeep n)). unfold field. rewrite Hn, Hn1. simpl.
      by rewrite Hf.
  - exists node. destruct (trie_lookup T1 _ _ Hin) as [n1 Hn1].
    assert (h' !! node = Some (set_output (output n1 ++ [pattern])
                                 (set_is_end true n1))) as Hnode.
    { unfold h'. by rewrite !list_lookup_alter_eq, Hn1. }
    split_and!.
    + by apply (trie_walk_root T').
    + unfold field. by rewrite Hnode.
    + unfold out_of, field. rewrite Hnode. simpl. apply last_snoc.
Qed.

Lemma add_pattern_inserts_witness :
  ∃ s, automaton [] ex_patterns = Some s ∧ reachable s ∧
  ∃ s', add_pattern (lit "hers") s = Some s' ∧
    root s'.2 = root s.2 ∧
    node_counter s.2 ≤ node_counter s'.2
      ≤ node_counter s.2 + length (lit "hers") ∧
    (∀ w n, walk s.1 (root s.2) w = Some n →
       walk s'.1 (root s'.2) w = Some n ∧
       field node_id s'.1 n = field node_id s.1 n ∧
       field failure s'.1 n = field failure s.1 n) ∧
    ∃ n, walk s'.1 (root s'.2) (lit "hers") = Some n ∧
         field is_end s'.1 n = Some true ∧
         last (out_of s'.1 n) = Some (lit "hers").
Proof.
  destruct ex_automaton_reachable as (s & E & Hr).
  exists s. split; [done|]. split; [done|].
  exact (add_pattern_inserts s (lit "hers") Hr).
Defined.

(** ** X8: inserting along a path that is there *)

(** X8. When the pattern is already a path of the trie, [add_pattern]
    creates nothing and touches the one node the path leads to: that node is
    made terminal and gets the pattern appended to its output, also when it
    is there already. *)
Theorem add_pattern_existing_path (h : heap) (ac : AhoCorasick)
    (pattern : str) (n : addr) (nd : TrieNode) :
  walk h (root ac) pattern = Some n → h !! n = Some nd →
  add_pattern pattern (h, ac)
  = Some (<[n := mkTrieNode (children nd) true (failure nd)
                   (output nd ++ [pattern]) (node_id nd)]> h, ac).
Proof.
  intros Hw Hn. unfold add_pattern.
  rewrite (add_chars_walk pattern h (node_counter ac) (root ac) n Hw).
  simpl. rewrite Hn. simpl. destruct ac as [rt cnt]. simpl. do 2 f_equal.
  apply list_eq. intros a. destruct (decide (a = n)) as [->|Hne].
  - rewrite !list_lookup_alter_eq, Hn.
    rewrite list_lookup_insert_eq by by eapply lookup_lt_Some. done.
  - rewrite !list_lookup_alter_ne by done.
    by rewrite list_lookup_insert_ne.
Qed.

Lemma add_pattern_existing_path_witness :
  ∃ h ac n nd,
    automaton [] [lit "he"] = Some (h, ac) ∧
    walk h (root ac) (lit "he") = Some n ∧ h !! n = Some nd ∧
    output nd = [lit "he"] ∧
    add_pattern (lit "he") (h, ac)
    = Some (<[n := mkTrieNode (children nd) true (failure nd)
                     [lit "he"; lit "he"] (node_id nd)]> h, ac).
Proof.
  eexists _, _, _, _. split; [by vm_compute|].
  split; [by vm_compute|]. split; [by vm_compute|]. split; [done|].
  refine (add_pattern_existing_path _ _ (lit "he") _ _ _ _); by vm_compute.
Defined.

(** ** X9: nodes created after the links were built *)

(** X9. [add_pattern] never sets a failure link: in every state of an
    automaton, also after [build_failure_links], every node the insertion
    of a pattern creates, that is every node at a path that was no path of
    the trie before, has [failure] equal to [None]; the pattern is a path
    afterwards. *)
Theorem new_node_has_no_link (s : state) (pattern : str) :
  reachable s →
  ∃ s', add_pattern pattern s = Some s' ∧
    (∀ w n, walk s.1 (root s.2) w = None →
       walk s'.1 (root s'.2) w = Some n →
       field failure s'.1 n = Some None) ∧
    ∃ n, walk s'.1 (root s'.2) pattern = Some n.
Proof.
  intros (L & T & Hc)%reachable_trie. destruct s as [h ac]. simpl in *.
  destruct (add_pattern_grow pattern h ac L T Hc)
    as (h1 & Ln & node & Hrun & T1 & Hin & _ & _ & _ & Hfresh).
  eexists. split; [exact Hrun|]. simpl.
  set (h' := alter (λ n, set_output (output n ++ [pattern]) n) node
               (alter (set_is_end true) node h1)).
  assert (trie h' (root ac) (L ++ Ln)) as T'.
  { unfold h'. apply trie_alter; [done|]. by apply trie_alter. }
  split.
  - intros w n Hnone Hw%(trie_walk_root T').
    apply elem_of_app in Hw as [Hw|Hw].
    { apply (trie_walk_root T) in Hw. congruence. }
    destruct (Hfresh _ _ Hw) as (n1 & Hn1 & _ & _ & Hf).
    unfold field, h'. destruct (decide (node = n)) as [->|Hne].
    + rewrite !list_lookup_alter_eq, Hn1. simpl. by rewrite Hf.
    + rewrite !list_lookup_alter_ne, Hn1 by done. simpl. by rewrite Hf.
  - exists node. by apply (trie_walk_root T').
Qed.

Lemma built_example_reachable :
  ∃ s, build [] ex_patterns = Some s ∧ reachable s.
Proof.
  destruct (build [] ex_patterns) as [s|] eqn:E; [|by vm_compute in E].
  exists s. split; [done|]. by eapply build_reachable.
Defined.

Lemma new_node_has_no_link_witness :
  ∃ s, build [] ex_patterns = Some s ∧ reachable s ∧
  walk s.1 (root s.2) (lit "her") = None ∧
  ∃ s', add_pattern (lit "hers") s = Some s' ∧
    (∀ w n, walk s.1 (root s.2) w = None →
       walk s'.1 (root s'.2) w = Some n →
       field failure s'.1 n = Some None) ∧
    ∃ n, walk s'.1 (root s'.2) (lit "hers") = Some n.
Proof.
  destruct built_example_reachable as (s & E & Hr).
  assert (walk s.1 (root s.2) (lit "her") = None) as Hw.
  { vm_compute in E. injection E as <-. by vm_compute. }
  exists s. split; [done|]. split; [done|]. split; [done|].
  exact (new_node_has_no_link s (lit "hers") Hr).
Defined.

(** ** X10: the path to a node of the trie *)



(** ** X11: the size of the snapshot *)



(** ** X12: the removal of repeated keywords *)

Lemma first_occurrences_id l : NoDup l → first_occurrences l = l.
Proof.
  induction 1 as [|x l Hx _ IH]; simpl; [done|]. rewrite IH. f_equal.
  clear IH. induction l as [|y l IH]; [done|].
  apply not_elem_of_cons in Hx as [Hne Hx].
  rewrite filter_cons_True by done. f_equal. by apply IH.
Qed.

Lemma first_occurrences_sublist l : first_occurrences l `sublist_of` l.
Proof.
  induction l as [|x l IH]; simpl; [done|].
  apply sublist_skip. etrans; [apply sublist_filter|done].
Qed.

(** X12. The script's loop over the keywords keeps each keyword where it
    occurs first and drops its later occurrences: the result has no
    keyword twice, has the same keywords as the input, lists them in the
    order of the input, and is the input itself when that has no
    repetition. *)
Theorem unique_keywords_spec (keywords : list str) :
  unique_keywords_of keywords = first_occurrences keywords ∧
  NoDup (unique_keywords_of keywords) ∧
  (∀ k, k ∈ unique_keywords_of keywords ↔ k ∈ keywords) ∧
  unique_keywords_of keywords `sublist_of` keywords ∧
  (NoDup keywords → unique_keywords_of keywords = keywords).
Proof.
  assert (unique_keywords_of keywords = first_occurrences keywords) as ->.
  { unfold unique_keywords_of. rewrite (keep_unseen_run keywords [] ∅).
    - simpl. induction (first_occurrences keywords) as [|x l IH]; [done|].
      rewrite filter_cons_True by apply not_elem_of_nil. by f_equal.
    - intros x. by rewrite elem_of_empty, elem_of_nil. }
  split_and!; [done|apply first_occurrences_NoDup| |
               apply first_occurrences_sublist|apply first_occurrences_id].
  intros k. apply first_occurrences_elem.
Qed.

(** ** X13: the script, from the keywords to the outputs *)

(** X13. When the script builds the automaton from the keywords with the
    repetitions removed, and no keyword is empty, the output list of
    every node names no keyword twice, and names exactly the keywords of
    the original list that are suffixes of the node's path. *)
Theorem unique_keywords_outputs (h0 : heap) (keywords : list str) :
  Forall (λ p, p ≠ []) keywords →
  ∃ h ac, build h0 (unique_keywords_of keywords) = Some (h, ac) ∧
    ∀ w n, walk h (root ac) w = Some n →
      NoDup (out_of h n) ∧
      ∀ p, p ∈ out_of h n ↔ p ∈ keywords ∧ p `suffix_of` w.
Proof.
  intros Hne. rewrite Forall_forall in Hne.
  destruct (unique_keywords_spec keywords) as (_ & Hnd & Hel & _).
  assert (∀ p, p ∈ unique_keywords_of keywords → p ≠ []) as Hne'
    by (intros p Hp; by apply Hne, Hel).
  destruct (build_full h0 (unique_keywords_of keywords))
    as (h & ac & L & h' & _ & Hb & I & _ & _ & Hc & Hps & B & Hs).
  exists h', ac. split; [done|]. intros w n Hw.
  apply (trie_walk_root (built_trie B)) in Hw. split.
  - by apply (built_output_NoDup B (ai_root _ _ _ I) Hc Hps (length w) Hnd Hne' n w).
  - intros p. rewrite <- Hel.
    by apply (built_output_elem B (ai_root _ _ _ I) Hc Hps (length w) Hne' n w).
Qed.

Lemma unique_keywords_outputs_witness :
  Forall (λ p : str, p ≠ [])
    [list_ascii_of_string "he"; list_ascii_of_string "she";
     list_ascii_of_string "he"] ∧
  ∃ h ac,
    build [] (unique_keywords_of
      [list_ascii_of_string "he"; list_ascii_of_string "she";
       list_ascii_of_string "he"]) = Some (h, ac) ∧
    ∀ w n, walk h (root ac) w = Some n →
      NoDup (out_of h n) ∧
      ∀ p, p ∈ out_of h n ↔
        p ∈ [list_ascii_of_string "he"; list_ascii_of_string "she";
             list_ascii_of_string "he"] ∧ p `suffix_of` w.
Proof.
  assert (Forall (λ p : str, p ≠ [])
    [list_ascii_of_string "he"; list_ascii_of_string "she";
     list_ascii_of_string "he"]) as Hne by (repeat constructor; done).
  split; [exact Hne|].
  exact (unique_keywords_outputs [] _ Hne).
Defined.

(** ** X14: the automaton without patterns *)


(** ** X15: the script's count of the links to the root *)



(** ** X16: the snapshot of any automaton *)


